(** * Verification of the framework slice: GL surface factory, bitmap
      platform device, located events, the view tree and the ICU common-data
      header.

    Each module embeds one source file.  Calls into the operating system
    (CoreGraphics, OpenGL bindings) are operations of an explicit platform
    state; pointers are handles, and a null pointer is [None]. *)

From Stdlib Require Import ZArith List Bool Lia String.
From stdpp Require Import base option list gmap.
Import ListNotations.
Open Scope Z_scope.

(** ** gfx geometry used across the files *)

Record Size := mkSize { size_width : Z; size_height : Z }.

(* ===================================================================== *)
(** ** ui/gfx/gl/gl_surface_mac.cc *)
(* ===================================================================== *)

Module GLSurface.

(** The enumerators this file names; [kGLImplementationOther] stands for any
    enumerator that reaches a [default:] label. *)
Inductive GLImplementation :=
| kGLImplementationDesktopGL
| kGLImplementationOSMesaGL
| kGLImplementationMockGL
| kGLImplementationOther.

Inductive OSMesaFormat := OSMESA_RGBA.

(** The three surface classes the factory instantiates. *)
Inductive Surface :=
| GLSurfaceOSMesa (format : OSMesaFormat) (size : Size)
| PbufferGLSurfaceCGL (size : Size)
| GLSurfaceStub.

(** gfx::PluginWindowHandle is an opaque handle. *)
Definition PluginWindowHandle := Z.

(** The platform the file calls into.  Every operation may read and change
    the platform state [P]; the boolean is the call's return value. *)
Record Platform (P : Type) := mkPlatform {
  InitializeRequestedGLBindings :
    list GLImplementation -> GLImplementation -> P -> bool * P;
  GetGLImplementation : P -> GLImplementation;
  GLSurfaceCGL_InitializeOneOff : P -> bool * P;
  Surface_Initialize : Surface -> P -> bool * P
}.
Arguments InitializeRequestedGLBindings {P}.
Arguments GetGLImplementation {P}.
Arguments GLSurfaceCGL_InitializeOneOff {P}.
Arguments Surface_Initialize {P}.

(** The process: the function-local [static bool initialized] and the
    platform state. *)
Record Process (P : Type) := mkProcess {
  initialized : bool;
  platform : P
}.
Arguments mkProcess {P}.
Arguments initialized {P}.
Arguments platform {P}.

Section Factory.
Context {P : Type} (os : Platform P).

(** The static array of GLSurface::InitializeOneOff. *)
Definition kAllowedGLImplementations : list GLImplementation :=
  [kGLImplementationDesktopGL; kGLImplementationOSMesaGL].

(** GLSurface::InitializeOneOff *)
Definition InitializeOneOff (s : Process P) : bool * Process P :=
  if initialized s then (true, s)
  else
    let '(ok, p1) :=
      InitializeRequestedGLBindings os kAllowedGLImplementations
        kGLImplementationDesktopGL (platform s) in
    if negb ok then (false, mkProcess false p1)
    else
      match GetGLImplementation os p1 with
      | kGLImplementationDesktopGL =>
          let '(ok2, p2) := GLSurfaceCGL_InitializeOneOff os p1 in
          if negb ok2 then (false, mkProcess false p2)
          else (true, mkProcess true p2)
      | _ => (true, mkProcess true p1)
      end.

(** NOTREACHED() is DCHECK(false): in a build with DCHECKs compiled in it
    ends the process with a fatal log message, in a build without them it
    does nothing.  [NOTREACHED rest] is NOTREACHED() followed by [rest]:
    [None] when the process has been ended. *)
Variable DCHECK_IS_ON : bool.

Definition NOTREACHED {A : Type} (rest : A) : option A :=
  if DCHECK_IS_ON then None else Some rest.

(** GLSurface::CreateOffscreenGLSurface; of [scoped_refptr<GLSurface>],
    the inner [None] is NULL; the outer [None] is a call that does not
    return, the process having been ended by NOTREACHED().  Without DCHECKs
    NOTREACHED() is followed by [return NULL]. *)
Definition CreateOffscreenGLSurface (software : bool) (size : Size) (p : P)
  : option (option Surface * P) :=
  if software then Some (None, p)
  else
    match GetGLImplementation os p with
    | kGLImplementationOSMesaGL =>
        let surface := GLSurfaceOSMesa OSMESA_RGBA size in
        let '(ok, p1) := Surface_Initialize os surface p in
        if negb ok then Some (None, p1) else Some (Some surface, p1)
    | kGLImplementationDesktopGL =>
        let surface := PbufferGLSurfaceCGL size in
        let '(ok, p1) := Surface_Initialize os surface p in
        if negb ok then Some (None, p1) else Some (Some surface, p1)
    | kGLImplementationMockGL => Some (Some GLSurfaceStub, p)
    | kGLImplementationOther => NOTREACHED (None, p)
    end.

(** GLSurface::CreateViewGLSurface *)
Definition CreateViewGLSurface (software : bool) (window : PluginWindowHandle)
  (p : P) : option (option Surface * P) :=
  CreateOffscreenGLSurface software (mkSize 1 1) p.

(** [n] successive calls of [InitializeOneOff], with their return values. *)
Fixpoint InitializeOneOff_times (n : nat) (s : Process P)
  : list bool * Process P :=
  match n with
  | O => ([], s)
  | S k =>
      let '(r, s1) := InitializeOneOff s in
      let '(rs, s2) := InitializeOneOff_times k s1 in
      (r :: rs, s2)
  end.

End Factory.

(** A concrete platform that counts its initialization calls; the bindings
    load on the second attempt only. *)
Record Counters := mkCounters {
  bindings_calls : nat;
  cgl_calls : nat;
  surface_calls : nat
}.

Definition counting : Platform Counters := {|
  InitializeRequestedGLBindings := fun _ _ c =>
    (Nat.ltb 0 (bindings_calls c),
     mkCounters (S (bindings_calls c)) (cgl_calls c) (surface_calls c));
  GetGLImplementation := fun _ => kGLImplementationDesktopGL;
  GLSurfaceCGL_InitializeOneOff := fun c =>
    (true, mkCounters (bindings_calls c) (S (cgl_calls c)) (surface_calls c));
  Surface_Initialize := fun _ c =>
    (true, mkCounters (bindings_calls c) (cgl_calls c) (S (surface_calls c)))
|}.

End GLSurface.

(* ===================================================================== *)
(** ** skia/ext/bitmap_platform_device_mac.cc *)
(* ===================================================================== *)

Module Skia.

(** Pixel memory is named by its address. *)
Definition Ptr := nat.

(** A (non-null) CGContextRef: the handle and what CGBitmapContextGetData,
    CGBitmapContextGetWidth and CGBitmapContextGetHeight report for it. *)
Record CGContext := mkCGContext {
  cg_id : nat;
  cg_data : option Ptr;
  cg_width : Z;
  cg_height : Z
}.

(** CGFloat values are kept as the integers or literals they come from. *)
Record CGRect := mkCGRect {
  cg_origin_x : Z; cg_origin_y : Z; cg_size_width : Z; cg_size_height : Z
}.

(** A (non-null) CGImageRef. *)
Inductive CGImage :=
| ImageOfContext (c : CGContext)
| ImageInRect (image : CGImage) (r : CGRect).

(** SkIRect / SkRegion: the only region this file builds is a rectangle;
    callers hand in others through setMatrixClip. *)
Inductive SkRegion :=
| SkRegion_of_rect (left top right bottom : Z)
| SkRegion_opaque (n : nat).

(** SkMatrix: [reset] gives the identity; other matrices come from callers. *)
Inductive SkMatrix :=
| SkMatrix_identity
| SkMatrix_opaque (n : nat).

Record SkBitmap := mkSkBitmap {
  bm_width : Z;
  bm_height : Z;
  bm_pixels : option Ptr;
  (** the colour of the last eraseARGB on the current pixels *)
  bm_erased : option (Z * Z * Z * Z);
  bm_opaque : bool
}.

Record BitmapPlatformDeviceData := mkData {
  bitmap_context_ : option CGContext;
  config_dirty_ : bool;
  transform_ : SkMatrix;
  clip_region_ : SkRegion
}.

Record BitmapPlatformDevice := mkDevice {
  data_ : BitmapPlatformDeviceData;
  bitmap : SkBitmap
}.

(** Every call this file makes into CoreGraphics and skia_utils_mac, and
    every device it constructs, in program order. *)
Inductive Call :=
| CGBitmapContextCreate (data : option Ptr) (width height : Z)
    (bitsPerComponent bytesPerRow : Z) (result : option CGContext)
| CGContextTranslateCTM (c : CGContext) (tx ty : Z)
| CGContextScaleCTM (c : CGContext) (sx sy : Z)
| CGContextRetain (c : option CGContext)
| CGContextRelease (c : option CGContext)
| CGContextSaveGState (c : option CGContext)
| CGContextRestoreGState (c : option CGContext)
| LoadTransformToCGContext (c : option CGContext) (m : SkMatrix)
| LoadClippingRegionToCGContext (c : option CGContext) (r : SkRegion)
    (m : SkMatrix)
| CGBitmapContextCreateImage (c : option CGContext) (result : option CGImage)
| CGImageCreateWithImageInRect (image : option CGImage) (r : CGRect)
    (result : option CGImage)
| CGContextDrawImage (target : option CGContext) (bounds : CGRect)
    (image : option CGImage)
| CGImageRelease (image : option CGImage)
| new_BitmapPlatformDevice (d : BitmapPlatformDevice).

Record World := mkWorld {
  next_id : nat;      (** handle of the next context the platform creates *)
  calls : list Call
}.

(** Computations of this file: they read and extend the world, and stop
    ([None]) when an SkASSERT fails. *)
Definition M (A : Type) : Type := World -> option (A * World).

Definition ret {A} (a : A) : M A := fun w => Some (a, w).

Definition bind {A B} (m : M A) (k : A -> M B) : M B :=
  fun w => match m w with
           | Some (a, w1) => k a w1
           | None => None
           end.

Notation "x <- m ;; k" := (bind m (fun x => k))
  (at level 100, m at level 99, k at level 200, right associativity).
Notation "m ;;; k" := (bind m (fun _ => k))
  (at level 100, k at level 200, right associativity).

(** Records a call. *)
Definition call (c : Call) : M unit :=
  fun w => Some (tt, mkWorld (next_id w) (calls w ++ [c])).

Definition is_device (c : Call) : bool :=
  match c with new_BitmapPlatformDevice _ => true | _ => false end.

(** How many devices have been constructed so far. *)
Definition devices_constructed (w : World) : nat :=
  length (filter (fun c => is_device c = true) (calls w)).


Section Device.
(** Build configuration: NDEBUG, and SK_DEBUG which arms SkASSERT. *)
Variable NDEBUG : bool.
Variable SK_DEBUG : bool.
(** Outcomes the platform decides: [SkBitmap::allocPixels] (its pixel address,
    or failure), and whether CGBitmapContextCreate yields a context. *)
Variable allocPixels : Z -> Z -> option Ptr.
Variable bitmap_context_available : option Ptr -> Z -> Z -> bool.

(** SkASSERT: checked where SK_DEBUG is defined, absent otherwise. *)
Definition SkASSERT (cond : bool) : M unit :=
  fun w => if SK_DEBUG && negb cond then None else Some (tt, w).

(** What CoreGraphics reports for a context; for a null context, 0. *)
Definition CGBitmapContextGetWidth (c : option CGContext) : Z :=
  match c with Some c => cg_width c | None => 0 end.
Definition CGBitmapContextGetHeight (c : option CGContext) : Z :=
  match c with Some c => cg_height c | None => 0 end.

(** CGContextForData: the context CGBitmapContextCreate gives over [data],
    flipped to WebCore's coordinate system, or NULL. *)
Definition CGContextForData (data : option Ptr) (width height : Z)
  : M (option CGContext) :=
  fun w =>
    if bitmap_context_available data width height then
      let context := mkCGContext (next_id w) data width height in
      (call (CGBitmapContextCreate data width height 8 (width * 4)
               (Some context)) ;;;
       call (CGContextTranslateCTM context 0 height) ;;;
       call (CGContextScaleCTM context 1 (-1)) ;;;
       ret (Some context))
        (mkWorld (S (next_id w)) (calls w))
    else
      (call (CGBitmapContextCreate data width height 8 (width * 4) None) ;;;
       ret None) w.

(** BitmapPlatformDeviceData::BitmapPlatformDeviceData(CGContextRef) *)
Definition new_BitmapPlatformDeviceData (bitmap : option CGContext)
  : M BitmapPlatformDeviceData :=
  SkASSERT (bool_decide (is_Some bitmap)) ;;;
  let clip := SkRegion_of_rect 0 0 (CGBitmapContextGetWidth bitmap)
                (CGBitmapContextGetHeight bitmap) in
  call (CGContextRetain bitmap) ;;;
  call (CGContextSaveGState bitmap) ;;;
  ret (mkData bitmap true SkMatrix_identity clip).

(** BitmapPlatformDeviceData::ReleaseBitmapContext *)
Definition ReleaseBitmapContext (d : BitmapPlatformDeviceData)
  : M BitmapPlatformDeviceData :=
  SkASSERT (bool_decide (is_Some (bitmap_context_ d))) ;;;
  call (CGContextRelease (bitmap_context_ d)) ;;;
  ret (mkData None (config_dirty_ d) (transform_ d) (clip_region_ d)).

(** BitmapPlatformDeviceData::SetMatrixClip *)
Definition SetMatrixClip (transform : SkMatrix) (region : SkRegion)
  (d : BitmapPlatformDeviceData) : BitmapPlatformDeviceData :=
  mkData (bitmap_context_ d) true transform region.

(** BitmapPlatformDeviceData::LoadConfig *)
Definition LoadConfig (d : BitmapPlatformDeviceData)
  : M BitmapPlatformDeviceData :=
  if negb (config_dirty_ d) || negb (bool_decide (is_Some (bitmap_context_ d)))
  then ret d
  else
    call (CGContextRestoreGState (bitmap_context_ d)) ;;;
    call (CGContextSaveGState (bitmap_context_ d)) ;;;
    call (LoadTransformToCGContext (bitmap_context_ d) (transform_ d)) ;;;
    call (LoadClippingRegionToCGContext (bitmap_context_ d) (clip_region_ d)
            (transform_ d)) ;;;
    ret (mkData (bitmap_context_ d) false (transform_ d) (clip_region_ d)).

(** The SkBitmap calls of Create. *)
Definition eraseARGB (b : SkBitmap) (a r g bl : Z) : SkBitmap :=
  mkSkBitmap (bm_width b) (bm_height b) (bm_pixels b) (Some (a, r, g, bl))
    (bm_opaque b).

Definition setPixels (b : SkBitmap) (p : option Ptr) : SkBitmap :=
  mkSkBitmap (bm_width b) (bm_height b) p None (bm_opaque b).

Definition setIsOpaque (b : SkBitmap) (o : bool) : SkBitmap :=
  mkSkBitmap (bm_width b) (bm_height b) (bm_pixels b) (bm_erased b) o.

(** BitmapPlatformDevice::BitmapPlatformDevice(data, bitmap) *)
Definition construct_device (d : BitmapPlatformDeviceData) (b : SkBitmap)
  : M BitmapPlatformDevice :=
  let rv := mkDevice d b in
  call (new_BitmapPlatformDevice rv) ;;; ret rv.

(** BitmapPlatformDevice::Create.  [setConfig] and a successful [allocPixels]
    give the bitmap its size and pixels. *)
Definition Create (context : option CGContext) (width height : Z)
  (is_opaque : bool) : M (option BitmapPlatformDevice) :=
  match allocPixels width height with
  | None => ret None
  | Some px =>
      let bitmap := mkSkBitmap width height (Some px) None false in
      let '(data, bitmap) :=
        match context with
        | Some c => (cg_data c, setPixels bitmap (cg_data c))
        | None => (bm_pixels bitmap, eraseARGB bitmap 0 0 0 0)
        end in
      let bitmap := setIsOpaque bitmap is_opaque in
      let bitmap :=
        if negb NDEBUG && negb (bool_decide (is_Some context)) && is_opaque
        then eraseARGB bitmap 255 0 255 128 else bitmap in
      context' <- match context with
                  | None => CGContextForData data width height
                  | Some c => call (CGContextRetain (Some c)) ;;; ret (Some c)
                  end ;;
      match context' with
      | None => ret None
      | Some c =>
          d <- new_BitmapPlatformDeviceData (Some c) ;;
          rv <- construct_device d bitmap ;;
          call (CGContextRelease (Some c)) ;;;
          ret (Some rv)
      end
  end.

(** BitmapPlatformDevice::CreateWithData *)
Definition CreateWithData (data : option Ptr) (width height : Z)
  (is_opaque : bool) : M (option BitmapPlatformDevice) :=
  context <- match data with
             | Some _ => CGContextForData data width height
             | None => ret None
             end ;;
  rv <- Create context width height is_opaque ;;
  match context with
  | Some c => call (CGContextRelease (Some c))
  | None => ret tt
  end ;;;
  ret rv.

(** BitmapPlatformDevice::GetBitmapContext *)
Definition GetBitmapContext (dev : BitmapPlatformDevice)
  : M (BitmapPlatformDevice * option CGContext) :=
  d <- LoadConfig (data_ dev) ;;
  ret (mkDevice d (bitmap dev), bitmap_context_ d).

(** The image CoreGraphics makes of a context, and of a part of an image;
    NULL of NULL. *)
Definition CGBitmapContextCreateImage_of (c : option CGContext)
  : option CGImage :=
  match c with Some c => Some (ImageOfContext c) | None => None end.

Definition CGImageCreateWithImageInRect_of (image : option CGImage)
  (r : CGRect) : option CGImage :=
  match image with Some i => Some (ImageInRect i r) | None => None end.

(** BitmapPlatformDevice::DrawToNativeContext; [width()] and [height()] are
    those of the device's bitmap. *)
Definition DrawToNativeContext (dev : BitmapPlatformDevice)
  (context : option CGContext) (x y : Z) (src_rect : option CGRect)
  : M BitmapPlatformDevice :=
  r <- (if negb (bool_decide (is_Some (bitmap_context_ (data_ dev)))) then
          got <- GetBitmapContext dev ;; ret (fst got, true)
        else ret (dev, false)) ;;
  let dev := fst r in
  let created_dc := snd r in
  let image := CGBitmapContextCreateImage_of (bitmap_context_ (data_ dev)) in
  call (CGBitmapContextCreateImage (bitmap_context_ (data_ dev)) image) ;;;
  match src_rect with
  | Some r =>
      let bounds := mkCGRect x y (cg_size_width r) (cg_size_height r) in
      let sub_image := CGImageCreateWithImageInRect_of image r in
      call (CGImageCreateWithImageInRect image r sub_image) ;;;
      call (CGContextDrawImage context bounds sub_image) ;;;
      call (CGImageRelease sub_image)
  | None =>
      let bounds :=
        mkCGRect x y (bm_width (bitmap dev)) (bm_height (bitmap dev)) in
      call (CGContextDrawImage context bounds image)
  end ;;;
  call (CGImageRelease image) ;;;
  if created_dc then
    d <- ReleaseBitmapContext (data_ dev) ;; ret (mkDevice d (bitmap dev))
  else ret dev.

(** BitmapPlatformDevice::setMatrixClip *)
Definition setMatrixClip (dev : BitmapPlatformDevice) (transform : SkMatrix)
  (region : SkRegion) : BitmapPlatformDevice :=
  mkDevice (SetMatrixClip transform region (data_ dev)) (bitmap dev).

(** BitmapPlatformDevice::onCreateCompatibleDevice *)
Definition onCreateCompatibleDevice (width height : Z) (isOpaque : bool)
  : M (option BitmapPlatformDevice) :=
  Create None width height isOpaque.

End Device.

(** The calls a computation added to the world's log. *)
Definition new_calls (before after : World) : list Call :=
  drop (length (calls before)) (calls after).

(** A CGBitmapContextCreate that returned null. *)
Definition context_creation_failed (c : Call) : bool :=
  match c with
  | CGBitmapContextCreate _ _ _ _ _ None => true
  | _ => false
  end.

(** The calls of the draw itself, from a bitmap context that may be null. *)
Definition draw_calls (dev : BitmapPlatformDevice) (context : option CGContext)
  (x y : Z) (src_rect : option CGRect) : list Call :=
  let source := bitmap_context_ (data_ dev) in
  let image := CGBitmapContextCreateImage_of source in
  CGBitmapContextCreateImage source image ::
  match src_rect with
  | Some r =>
      let sub_image := CGImageCreateWithImageInRect_of image r in
      [CGImageCreateWithImageInRect image r sub_image;
       CGContextDrawImage context
         (mkCGRect x y (cg_size_width r) (cg_size_height r)) sub_image;
       CGImageRelease sub_image]
  | None =>
      [CGContextDrawImage context
         (mkCGRect x y (bm_width (bitmap dev)) (bm_height (bitmap dev))) image]
  end ++ [CGImageRelease image].


Definition target_context : CGContext := mkCGContext 7 (Some 2%nat) 10 10.

Definition empty_world : World := mkWorld 0 [].

(** A platform that allocates bitmap pixels at address 100 and makes
    contexts over that address only. *)
Definition alloc_at_100 (width height : Z) : option Ptr := Some 100%nat.
Definition context_over_100_only (data : option Ptr) (width height : Z)
  : bool :=
  bool_decide (data = Some 100%nat).

End Skia.

(* ===================================================================== *)
(** ** ui/views/events/event.cc *)
(* ===================================================================== *)

Record Point := mkPoint { point_x : Z; point_y : Z }.

Module Events.

(** ui::EventType is an enumeration declared elsewhere; its values are kept
    as integers. *)
Definition EventType := Z.

Record Event := mkEvent { type_ : EventType; flags_ : Z }.

Record LocatedEvent := mkLocatedEvent {
  located_base : Event;
  location_ : Point
}.

Definition type (e : LocatedEvent) : EventType := type_ (located_base e).
Definition flags (e : LocatedEvent) : Z := flags_ (located_base e).
Definition location (e : LocatedEvent) : Point := location_ e.

Record MouseEvent := mkMouseEvent { mouse_base : LocatedEvent }.

(** Event::Event(EventType type, int flags) *)
Definition Event_new (type : EventType) (flags : Z) : Event :=
  mkEvent type flags.

(** LocatedEvent::LocatedEvent(EventType, const gfx::Point&, int flags) *)
Definition LocatedEvent_new (type : EventType) (location : Point) (flags : Z)
  : LocatedEvent :=
  mkLocatedEvent (Event_new type flags) location.

Section Conversion.
(** [View] is what a non-null [View*] designates.  [View::ConvertPointToView]
    is defined in views/view.cc: it is taken here as the function that gives
    the point it leaves in [*point]. *)
Variable View : Type.
Variable ConvertPointToView : View -> View -> Point -> Point.

(** LocatedEvent::LocatedEvent(const LocatedEvent& other, View* source,
    View* target) *)
Definition LocatedEvent_convert (other : LocatedEvent) (source target : View)
  : LocatedEvent :=
  let base := Event_new (type other) (flags other) in
  let location_0 := location other in
  mkLocatedEvent base (ConvertPointToView source target location_0).

(** MouseEvent::MouseEvent(const MouseEvent& other, View* source,
    View* target) *)
Definition MouseEvent_convert (other : MouseEvent) (source target : View)
  : MouseEvent :=
  mkMouseEvent (LocatedEvent_convert (mouse_base other) source target).

End Conversion.

End Events.

(* ===================================================================== *)
(** ** The ICU patch: udata.cpp, ucmndata.h, stubdata.c *)
(* ===================================================================== *)

Module ICU.

(** UDataInfo (unicode/udata.h), with the members in the order the
    initializer of stubdata.c fills them. *)
Record UDataInfo := mkUDataInfo {
  info_size : Z;
  info_reservedWord : Z;
  info_isBigEndian : Z;
  info_charsetFamily : Z;
  info_sizeofUChar : Z;
  info_reservedByte : Z;
  info_dataFormat : list Z;
  info_formatVersion : list Z;
  info_dataVersion : list Z
}.

(** MappedData and DataHeader of ucmndata.h; the patch shows the end of
    DataHeader's declaration, and the new initializer its two members. *)
Record MappedData := mkMappedData {
  headerSize : Z;
  magic1 : Z;
  magic2 : Z
}.

Record DataHeader := mkDataHeader {
  dataHeader : MappedData;
  info : UDataInfo
}.

(** Before the patch: the struct private to stubdata.c. *)
Module Before.
Record ICU_Data_Header := mkHeader {
  headerSize : Z;
  magic1 : Z;
  magic2 : Z;
  info : UDataInfo;
  padding : list Z;
  count : Z;
  reserved : Z;
  fakeNameAndData : list Z
}.
End Before.

(** After the patch: the struct of ucmndata.h. *)
Module After.
Record ICU_Data_Header := mkHeader {
  hdr : DataHeader;
  padding : list Z;
  count : Z;
  reserved : Z;
  fakeNameAndData : list Z
}.
End After.

Section EntryPoint.
(** What the platform headers fix. *)
Variable sizeof_UDataInfo : Z.
Variable U_IS_BIG_ENDIAN : bool.
Variable U_CHARSET_FAMILY : Z.
Variable sizeof_UChar : Z.
(** The initializers that follow [count]: they lie after the patched lines
    and are the same before and after. *)
Variable reserved_init : Z.
Variable fakeNameAndData_init : list Z.

Definition entry_info : UDataInfo :=
  mkUDataInfo sizeof_UDataInfo 0
    (if U_IS_BIG_ENDIAN then 1 else 0)
    U_CHARSET_FAMILY sizeof_UChar 0
    [0x54; 0x6f; 0x43; 0x50]
    [1; 0; 0; 0]
    [0; 0; 0; 0].

(** U_ICUDATA_ENTRY_POINT of stubdata.c, before. *)
Definition U_ICUDATA_ENTRY_POINT_before : Before.ICU_Data_Header :=
  Before.mkHeader 32 0xda 0x27 entry_info
    [0; 0; 0; 0; 0; 0; 0; 0] 0 reserved_init fakeNameAndData_init.

(** U_ICUDATA_ENTRY_POINT of stubdata.c, after. *)
Definition U_ICUDATA_ENTRY_POINT_after : After.ICU_Data_Header :=
  After.mkHeader (mkDataHeader (mkMappedData 32 0xda 0x27) entry_info)
    [0; 0; 0; 0; 0; 0; 0; 0] 0 reserved_init fakeNameAndData_init.

End EntryPoint.

(** The scalars of an object in declaration order: the order in which a
    brace-elided initializer fills them and in which they lie in the
    object. *)
Definition scalars_of_info (i : UDataInfo) : list Z :=
  [info_size i; info_reservedWord i; info_isBigEndian i; info_charsetFamily i;
   info_sizeofUChar i; info_reservedByte i]
  ++ info_dataFormat i ++ info_formatVersion i ++ info_dataVersion i.

Definition scalars_of_DataHeader (h : DataHeader) : list Z :=
  [headerSize (dataHeader h); magic1 (dataHeader h); magic2 (dataHeader h)]
  ++ scalars_of_info (info h).

Definition scalars_before (h : Before.ICU_Data_Header) : list Z :=
  [Before.headerSize h; Before.magic1 h; Before.magic2 h]
  ++ scalars_of_info (Before.info h)
  ++ Before.padding h ++ [Before.count h; Before.reserved h]
  ++ Before.fakeNameAndData h.

Definition scalars_after (h : After.ICU_Data_Header) : list Z :=
  scalars_of_DataHeader (After.hdr h)
  ++ After.padding h ++ [After.count h; After.reserved h]
  ++ After.fakeNameAndData h.

(** udata.cpp before the patch declares the entry point [const DataHeader]
    and takes its address: it reads the leading members of the object as a
    DataHeader. *)
Definition as_DataHeader (h : Before.ICU_Data_Header) : DataHeader :=
  mkDataHeader
    (mkMappedData (Before.headerSize h) (Before.magic1 h) (Before.magic2 h))
    (Before.info h).

(** udata.cpp after the patch: [&U_ICUDATA_ENTRY_POINT.hdr]. *)
Definition hdr_of (h : After.ICU_Data_Header) : DataHeader := After.hdr h.

(** The text of a data format identifier. *)
Definition format_name (bytes : list Z) : string :=
  string_of_list_ascii
    (map (fun b => Ascii.ascii_of_N (Z.to_N b)) bytes).

(** The patch itself: per file, the hunks with their line ranges and the
    number of lines they remove and add. *)
Record Hunk := mkHunk {
  old_start : nat; old_length : nat;
  new_start : nat; new_length : nat;
  removed : nat; added : nat
}.

Record FileDiff := mkFileDiff {
  path : string;
  hunks : list Hunk
}.

Definition patch : list FileDiff :=
  [ mkFileDiff "source/common/udata.cpp"
      [mkHunk 610 7 610 7 1 1; mkHunk 656 7 656 7 1 1; mkHunk 675 7 675 7 1 1];
    mkFileDiff "source/common/ucmndata.h"
      [mkHunk 44 6 44 20 0 14];
    mkFileDiff "source/stubdata/stubdata.c"
      [mkHunk 20 45 20 34 31 20] ].

Definition is_header_file (p : string) : bool :=
  String.eqb (String.substring (String.length p - 2) 2 p) ".h".

Definition lines_removed (f : FileDiff) : nat :=
  list_sum (map removed (hunks f)).
Definition lines_added (f : FileDiff) : nat :=
  list_sum (map added (hunks f)).

(** A change that renames on one line in one header: a single file, a
    header, with one line replaced by one line. *)
Definition one_line_renaming_in_one_header (p : list FileDiff) : Prop :=
  exists f, p = [f] /\ is_header_file (path f) = true
            /\ lines_removed f = 1%nat /\ lines_added f = 1%nat.

End ICU.

(* ===================================================================== *)
(** ** views/view_unittest.cc and the View operations it exercises *)
(* ===================================================================== *)

Record Rect := mkRect { rect_x : Z; rect_y : Z; rect_width : Z; rect_height : Z }.

#[global] Instance Rect_eq_dec : EqDecision Rect.
Proof. solve_decision. Defined.

(** gfx::Rect() *)
Definition Rect_empty : Rect := mkRect 0 0 0 0.

(** gfx::Rect::IsEmpty *)
Definition Rect_IsEmpty (r : Rect) : bool :=
  (rect_width r <=? 0) || (rect_height r <=? 0).

(** gfx::Rect::Contains(point): left and top edges inside, right and bottom
    edges outside. *)
Definition Rect_Contains (r : Rect) (p : Point) : bool :=
  (rect_x r <=? point_x p) && (point_x p <? rect_x r + rect_width r)
  && (rect_y r <=? point_y p) && (point_y p <? rect_y r + rect_height r).

Definition Rect_origin (r : Rect) : Point := mkPoint (rect_x r) (rect_y r).

(** gfx::Rect::CenterPoint; the coordinates are not negative where it is
    used, so [/] is C's division. *)
Definition Rect_CenterPoint (r : Rect) : Point :=
  mkPoint (rect_x r + rect_width r / 2) (rect_y r + rect_height r / 2).

Module Views.

(** A [View*]: views live in a store and are named by their index in it; a
    null pointer is [None]. *)
Abbreviation ViewId := nat.

(** The classes of view_unittest.cc whose overrides matter here, each with
    the members it adds to View. *)
Inductive ViewClass :=
| PlainView
| HitTestView (has_hittest_mask_ : bool)
| TestView (did_change_bounds_ : bool) (new_bounds_ : Rect).

(** Modelled from the spec: class View is declared in views/view.h, which is
    not among the sources; these are the members the operations below read
    and write. *)
Record ViewNode := mkView {
  parent_ : option ViewId;
  children_ : list ViewId;
  bounds_ : Rect;
  visible_ : bool;
  (** the view's transform: a scale by positive whole factors *)
  scale_x_ : Z;
  scale_y_ : Z;
  class_ : ViewClass
}.

Abbreviation Store := (list ViewNode).

(** *** Accessors

    A pointer that names no view of the store reads as a view without
    parent, children or extent. *)

Definition parent (s : Store) (v : ViewId) : option ViewId :=
  match s !! v with Some n => parent_ n | None => None end.

Definition children (s : Store) (v : ViewId) : list ViewId :=
  match s !! v with Some n => children_ n | None => [] end.

Definition bounds (s : Store) (v : ViewId) : Rect :=
  match s !! v with Some n => bounds_ n | None => Rect_empty end.

Definition IsVisible (s : Store) (v : ViewId) : bool :=
  match s !! v with Some n => visible_ n | None => false end.

Definition class_of (s : Store) (v : ViewId) : ViewClass :=
  match s !! v with Some n => class_ n | None => PlainView end.

Definition child_count (s : Store) (v : ViewId) : Z :=
  Z.of_nat (length (children s v)).

(** *** Member updates *)

Definition set_parent (v : ViewId) (p : option ViewId) (s : Store) : Store :=
  alter (fun n => mkView p (children_ n) (bounds_ n) (visible_ n)
                    (scale_x_ n) (scale_y_ n) (class_ n)) v s.

Definition set_children (v : ViewId) (cs : list ViewId) (s : Store) : Store :=
  alter (fun n => mkView (parent_ n) cs (bounds_ n) (visible_ n)
                    (scale_x_ n) (scale_y_ n) (class_ n)) v s.

Definition set_bounds (v : ViewId) (r : Rect) (s : Store) : Store :=
  alter (fun n => mkView (parent_ n) (children_ n) r (visible_ n)
                    (scale_x_ n) (scale_y_ n) (class_ n)) v s.

Definition set_class (v : ViewId) (c : ViewClass) (s : Store) : Store :=
  alter (fun n => mkView (parent_ n) (children_ n) (bounds_ n) (visible_ n)
                    (scale_x_ n) (scale_y_ n) c) v s.

(** Modelled from the spec: View::SetVisible (views/view.cc, not among the
    sources), as far as the tree and hit testing see it. *)
Definition SetVisible (v : ViewId) (b : bool) (s : Store) : Store :=
  alter (fun n => mkView (parent_ n) (children_ n) (bounds_ n) b
                    (scale_x_ n) (scale_y_ n) (class_ n)) v s.

(** Modelled from the spec: View::SetTransform (views/view.cc, not among the
    sources), for a transform that is a scale. *)
Definition SetTransform (v : ViewId) (sx sy : Z) (s : Store) : Store :=
  alter (fun n => mkView (parent_ n) (children_ n) (bounds_ n) (visible_ n)
                    sx sy (class_ n)) v s.

(** Modelled from the spec: the View constructor (views/view.cc, not among
    the sources) gives a view with no parent, no children, empty bounds,
    visible and untransformed. *)
Definition new_view (cls : ViewClass) (s : Store) : Store * ViewId :=
  (s ++ [mkView None [] Rect_empty true 1 1 cls], length s).

(** *** The tree operations

    View::AddChildView, View::RemoveChildView, View::ReorderChildView,
    View::RemoveAllChildViews, View::GetIndexOf and View::Contains are
    defined in views/view.cc, which is not among the sources; they are
    written here as the standard parent/child bookkeeping that the tests of
    view_unittest.cc rely on. *)

(** Modelled from the spec: View::RemoveChildView (views/view.cc).  The view
    leaves its parent's child list and loses its parent pointer; a view that
    is not a child of [p] is left alone. *)
Definition RemoveChildView (p c : ViewId) (s : Store) : Store :=
  if decide (parent s c = Some p) then
    set_parent c None
      (set_children p (filter (fun x => x <> c) (children s p)) s)
  else s.

(** Modelled from the spec: View::AddChildView (views/view.cc).  A view that
    has a parent is taken from it first; the view is appended after the
    parent's last child. *)
Definition AddChildView (p c : ViewId) (s : Store) : Store :=
  let s1 := match parent s c with
            | Some q => RemoveChildView q c s
            | None => s
            end in
  set_parent c (Some p) (set_children p (children s1 p ++ [c]) s1).

(** Modelled from the spec: View::ReorderChildView (views/view.cc).  A
    negative index moves the view to the end; an index past the end, or a
    view that is not a child, changes nothing. *)
Definition ReorderChildView (p c : ViewId) (index : Z) (s : Store) : Store :=
  if decide (parent s c = Some p) then
    let index := if index <? 0 then child_count s p - 1 else index in
    if child_count s p <=? index then s
    else
      let rest := filter (fun x => x <> c) (children s p) in
      let i := Z.to_nat index in
      set_children p (take i rest ++ c :: drop i rest) s
  else s.

(** Modelled from the spec: View::RemoveAllChildViews (views/view.cc).  Every
    child loses its parent and the child list is cleared; what happens to
    the memory of the children is not modelled. *)
Definition RemoveAllChildViews (p : ViewId) (s : Store) : Store :=
  set_children p []
    (foldr (fun c acc => set_parent c None acc) s (children s p)).

(** Modelled from the spec: the search of View::GetIndexOf (views/view.cc)
    through the child vector, first match first. *)
Fixpoint index_of (c : ViewId) (l : list ViewId) : option nat :=
  match l with
  | [] => None
  | x :: rest =>
      if decide (x = c) then Some O
      else match index_of c rest with
           | Some i => Some (S i)
           | None => None
           end
  end.

(** Modelled from the spec: View::GetIndexOf (views/view.cc): the position of
    [view] among the children, or -1. *)
Definition GetIndexOf (s : Store) (v : ViewId) (view : option ViewId) : Z :=
  match view with
  | None => -1
  | Some c =>
      match index_of c (children s v) with
      | Some i => Z.of_nat i
      | None => -1
      end
  end.

(** Modelled from the spec: the loop of View::Contains (views/view.cc), which
    walks from [view] up the parent pointers until it meets [this] or runs
    out of parents; here it takes at most [fuel] steps up. *)
Fixpoint Contains_from (fuel : nat) (s : Store) (this : ViewId)
  (view : option ViewId) : bool :=
  match view with
  | None => false
  | Some v =>
      if decide (v = this) then true
      else match fuel with
           | O => false
           | S f => Contains_from f s this (parent s v)
           end
  end.

(** Modelled from the spec: View::Contains (views/view.cc).  A view has fewer
    ancestors than the store has views, so that many steps are enough. *)
Definition Contains (s : Store) (this : ViewId) (view : option ViewId) : bool :=
  Contains_from (length s) s this view.

(** [w] is [v] or below it, following child lists down from [v]. *)
Inductive descendant_or_self (s : Store) (v : ViewId) : ViewId -> Prop :=
| desc_self : descendant_or_self s v v
| desc_child u w :
    descendant_or_self s v u -> w ∈ children s u -> descendant_or_self s v w.

(** [a] is [v] or above it, following parent pointers up from [v]. *)
Inductive ancestor_or_self (s : Store) (a : ViewId) : ViewId -> Prop :=
| anc_self : ancestor_or_self s a a
| anc_up v q :
    parent s v = Some q -> ancestor_or_self s a q -> ancestor_or_self s a v.

(** [v] reaches a view without parent in [n] steps up. *)
Inductive Rooted (s : Store) : ViewId -> nat -> Prop :=
| Rooted_root v : parent s v = None -> Rooted s v 0
| Rooted_step v q n :
    parent s v = Some q -> Rooted s q n -> Rooted s v (S n).

(** Parent/child consistency: child lists and parent pointers say the same,
    no child is listed twice, and parent pointers lead to a root. *)
Record consistent (s : Store) : Prop := mkConsistent {
  consistent_link : forall p c, c ∈ children s p <-> parent s c = Some p;
  consistent_nodup : forall p, NoDup (children s p);
  consistent_rooted : forall v, exists n, Rooted s v n
}.

(** *** Bounds *)

(** The virtual View::OnBoundsChanged.  TestView::OnBoundsChanged is the
    override of view_unittest.cc: it sets [did_change_bounds_] and copies
    [bounds()] into [new_bounds_]; View's own does nothing. *)
Definition OnBoundsChanged (v : ViewId) (previous_bounds : Rect) (s : Store)
  : Store :=
  match class_of s v with
  | TestView _ _ => set_class v (TestView true (bounds s v)) s
  | _ => s
  end.

(** Modelled from the spec: View::SetBoundsRect (views/view.cc, not among the
    sources) stores the new bounds when they differ from the current ones and
    then notifies through OnBoundsChanged with the previous bounds. *)
Definition SetBoundsRect (v : ViewId) (r : Rect) (s : Store) : Store :=
  if decide (r = bounds s v) then s
  else
    let prev := bounds s v in
    OnBoundsChanged v prev (set_bounds v r s).

(** *** The notification, observed *)

Section Notified.
(** What an override of OnBoundsChanged keeps for itself. *)
Context {L : Type}.
(** Any override of the virtual View::OnBoundsChanged: it is handed the view,
    the previous bounds and the store as it is when the call is made. *)
Variable on_bounds_changed : ViewId -> Rect -> Store -> L -> Store * L.

(** Modelled from the spec: View::SetBoundsRect, as above, for any
    override. *)
Definition SetBoundsRect_with (v : ViewId) (r : Rect) (s : Store) (l : L)
  : Store * L :=
  if decide (r = bounds s v) then (s, l)
  else
    let prev := bounds s v in
    on_bounds_changed v prev (set_bounds v r s) l.

End Notified.

(** One call of OnBoundsChanged: the view notified, the argument it was
    given and the bounds it had when the call was made. *)
Record BoundsChange := mkBoundsChange {
  notified_view : ViewId;
  previous_bounds_given : Rect;
  bounds_at_call : Rect
}.

(** OnBoundsChanged of view_unittest.cc, with every call written down. *)
Definition logged_OnBoundsChanged (v : ViewId) (previous_bounds : Rect)
  (s : Store) (log : list BoundsChange) : Store * list BoundsChange :=
  (OnBoundsChanged v previous_bounds s,
   log ++ [mkBoundsChange v previous_bounds (bounds s v)]).

(** Modelled from the spec: View::SetBounds (views/view.h, not among the
    sources) is SetBoundsRect on the rectangle of its arguments. *)
Definition SetBounds (v : ViewId) (x y w h : Z) (s : Store) : Store :=
  SetBoundsRect v (mkRect x y w h) s.

(** TestView::Reset of view_unittest.cc, for the member it shares with
    OnBoundsChanged. *)
Definition Reset (v : ViewId) (s : Store) : Store :=
  match class_of s v with
  | TestView _ nb => set_class v (TestView false nb) s
  | _ => s
  end.

(** *** Coordinate conversion *)

(** Modelled from the spec: one step of View::ConvertPointToView
    (views/view.cc, not among the sources) from a view to its parent: the
    view's transform, then its origin. *)
Definition to_parent (s : Store) (v : ViewId) (p : Point) : Point :=
  match s !! v with
  | Some n => mkPoint (rect_x (bounds_ n) + scale_x_ n * point_x p)
                      (rect_y (bounds_ n) + scale_y_ n * point_y p)
  | None => p
  end.

(** Modelled from the spec: the inverse step, from the parent to the view; a
    fractional result is rounded down. *)
Definition from_parent (s : Store) (v : ViewId) (p : Point) : Point :=
  match s !! v with
  | Some n => mkPoint ((point_x p - rect_x (bounds_ n)) / scale_x_ n)
                      ((point_y p - rect_y (bounds_ n)) / scale_y_ n)
  | None => p
  end.

(** Modelled from the spec: the views View::ConvertPointToView passes on the
    way up: [v] and its ancestors below the root, nearest first. *)
Fixpoint path_below_root (fuel : nat) (s : Store) (v : ViewId) : list ViewId :=
  match fuel with
  | O => []
  | S f =>
      match parent s v with
      | Some q => v :: path_below_root f s q
      | None => []
      end
  end.

(** Modelled from the spec: View::ConvertPointToView (views/view.cc, not among
    the sources) takes a point from the source up to the root of the
    hierarchy and from the root down to the target. *)
Definition ConvertPointToView (s : Store) (source target : ViewId) (p : Point)
  : Point :=
  if decide (source = target) then p
  else
    let in_root :=
      foldl (fun q v => to_parent s v q) p
        (path_below_root (length s) s source) in
    foldr (fun v q => from_parent s v q) in_root
      (path_below_root (length s) s target).

(** *** Hit testing *)

(** A gfx::Path made of moveTo, lineTo and close: its corners in order.
    SkScalar coordinates are kept in half units, so that [w / 2] is exact, as
    it is in a float for every width up to 2^24. *)
Definition Path := list (Z * Z).

(** HitTestView::HasHitTestMask of view_unittest.cc; View's own answers
    false. *)
Definition HasHitTestMask (s : Store) (v : ViewId) : bool :=
  match class_of s v with
  | HitTestView b => b
  | _ => false
  end.

(** HitTestView::GetHitTestMask of view_unittest.cc: the triangle
    (w / 2, 0), (w, h), (0, h).  Its DCHECK(has_hittest_mask_) holds at the
    one place it is called from, View::HitTest, which asks HasHitTestMask
    first. *)
Definition GetHitTestMask (s : Store) (v : ViewId) : Path :=
  let w := rect_width (bounds s v) in
  let h := rect_height (bounds s v) in
  [(w, 0); (2 * w, 2 * h); (0, 2 * h)].

(** Twice the signed area of the triangle [a], [b], [q]: its sign tells on
    which side of the edge from [a] to [b] the point [q] lies. *)
Definition cross (a b q : Z * Z) : Z :=
  (fst b - fst a) * (snd q - snd a) - (snd b - snd a) * (fst q - fst a).

(** The edges of a closed path. *)
Definition edges (path : Path) : list ((Z * Z) * (Z * Z)) :=
  match path with
  | [] => []
  | first :: rest => zip path (rest ++ [first])
  end.

(** Modelled from the spec: the conversion of a path to a platform region and
    the region's point test are not among the sources.  A point is inside a
    convex path when the centre of its pixel lies on one side of every edge;
    a path that encloses no area contains no point. *)
Definition path_contains (path : Path) (p : Point) : bool :=
  let centre := (2 * point_x p + 1, 2 * point_y p + 1) in
  let sides := map (fun e => cross (fst e) (snd e) centre) (edges path) in
  (forallb (fun c => 0 <=? c) sides && existsb (fun c => 0 <? c) sides)
  || (forallb (fun c => c <=? 0) sides && existsb (fun c => c <? 0) sides).

(** Modelled from the spec: View::GetLocalBounds (views/view.cc, not among
    the sources): the bounds moved to the origin. *)
Definition GetLocalBounds (s : Store) (v : ViewId) : Rect :=
  mkRect 0 0 (rect_width (bounds s v)) (rect_height (bounds s v)).

(** Modelled from the spec: View::HitTest (views/view.cc, not among the
    sources): a point of the local bounds hits, unless the view has a mask
    and the point is outside it. *)
Definition HitTest (s : Store) (v : ViewId) (l : Point) : bool :=
  if Rect_Contains (GetLocalBounds s v) l then
    if HasHitTestMask s v then path_contains (GetHitTestMask s v) l
    else true
  else false.

(** Modelled from the spec: View::GetEventHandlerForPoint (views/view.cc, not
    among the sources).  The children are tried from the last to the first;
    the first visible one that the point hits answers for its own subtree,
    and the view itself answers when there is none.  [fuel] bounds the
    depth. *)
Fixpoint GetEventHandlerForPoint (fuel : nat) (s : Store) (v : ViewId)
  (point : Point) : ViewId :=
  match fuel with
  | O => v
  | S f =>
      (fix scan (cs : list ViewId) : ViewId :=
         match cs with
         | [] => v
         | child :: rest =>
             if negb (IsVisible s child) then scan rest
             else
               let point_in_child_coords :=
                 ConvertPointToView s v child point in
               if HitTest s child point_in_child_coords
               then GetEventHandlerForPoint f s child point_in_child_coords
               else scan rest
         end) (rev (children s v))
  end.

(** The stores a program can build: views are created, and a view is added
    below another only if it is not that view or one of its ancestors. *)
Inductive built : Store -> Prop :=
| built_empty : built []
| built_new cls s : built s -> built (fst (new_view cls s))
| built_add p c s :
    built s -> (p < length s)%nat -> (c < length s)%nat ->
    Contains s c (Some p) = false ->
    built (AddChildView p c s)
| built_remove p c s : built s -> built (RemoveChildView p c s)
| built_reorder p c index s : built s -> built (ReorderChildView p c index s)
| built_remove_all p s : built s -> built (RemoveAllChildViews p s)
| built_bounds v r s : built s -> built (SetBoundsRect v r s)
| built_reset v s : built s -> built (Reset v s)
| built_visible v b s : built s -> built (SetVisible v b s)
| built_transform v sx sy s : built s -> built (SetTransform v sx sy s).

(** *** The hierarchies of the tests *)

(** ViewTest.GetIndexOf: root = 0, child1 = 1, child2 = 2, foo1 = 3. *)
Definition GetIndexOf_tree : Store :=
  AddChildView 1 3 (fst (new_view PlainView
  (AddChildView 0 2 (fst (new_view PlainView
  (AddChildView 0 1 (fst (new_view PlainView
  (fst (new_view PlainView [])))))))))).

(** ViewTest.Contains: v1 = 0, v2 = 1, v3 = 2. *)
Definition Contains_tree : Store :=
  AddChildView 1 2 (AddChildView 0 1
    (fst (new_view PlainView (fst (new_view PlainView
    (fst (new_view PlainView []))))))).

(** ViewTest.ReorderChildren: root = 0, child = 1, foo1 = 2, foo2 = 3,
    foo3 = 4. *)
Definition ReorderChildren_tree : Store :=
  AddChildView 1 4 (fst (new_view PlainView
  (AddChildView 1 3 (fst (new_view PlainView
  (AddChildView 1 2 (fst (new_view PlainView
  (AddChildView 0 1 (fst (new_view PlainView
  (fst (new_view PlainView []))))))))))))).

(** ViewTest.OnBoundsChanged: the TestView v = 0 after
    [v.SetBoundsRect(prev_rect); v.Reset();]. *)
Definition OnBoundsChanged_view : Store :=
  Reset 0 (SetBoundsRect 0 (mkRect 0 0 200 200)
    (fst (new_view (TestView false Rect_empty) []))).

(** ViewTest.ConvertPointToViewWithTransform: top_view = 0, child = 1,
    child_child = 2. *)
Definition transformed_tree : Store :=
  SetTransform 2 5 7 (SetBounds 2 17 13 100 100
  (SetTransform 1 3 4 (SetBounds 1 7 19 500 500
  (SetBounds 0 0 0 1000 1000
  (AddChildView 1 2 (AddChildView 0 1
  (fst (new_view (TestView false Rect_empty)
  (fst (new_view (TestView false Rect_empty)
  (fst (new_view (TestView false Rect_empty) [])))))))))))).

(** ViewTest.HitTestMasks: root_view = 0, v1 = 1 (no mask), v2 = 2 (mask). *)
Definition HitTestMasks_tree : Store :=
  AddChildView 0 2 (SetBoundsRect 2 (mkRect 105 0 100 100)
  (fst (new_view (HitTestView true)
  (AddChildView 0 1 (SetBoundsRect 1 (mkRect 0 0 100 100)
  (fst (new_view (HitTestView false)
  (SetBounds 0 0 0 500 500 (fst (new_view PlainView [])))))))))).

End Views.

(* ===================================================================== *)
(** ** Layers of views that paint to a layer *)
(* ===================================================================== *)

Module Layers.

(** Modelled from the spec: ui::Layer (ui/gfx/compositor/layer.cc) and
    View::SetPaintToLayer / View::SetFillsBoundsOpaquely are not among the
    sources.  The layer of a view that paints to a layer has, for children,
    the layers of the views below it; a child layer carries the bounds of
    its view, whether the view fills its bounds opaquely, and whether it is
    visible. *)
Record Layer := mkLayer {
  layer_bounds : Rect;
  fills_bounds_opaquely : bool;
  layer_visible : bool
}.

(** Modelled from the spec: the layer of the parent view, with its child
    layers in the order they were added and its hole. *)
Record ParentLayer := mkParentLayer {
  child_layers : list Layer;
  hole_rect : Rect
}.

(** Modelled from the spec: a child cuts a hole when it is visible and fills
    its bounds opaquely. *)
Definition cuts_hole (l : Layer) : bool :=
  fills_bounds_opaquely l && layer_visible l.

(** Modelled from the spec: which of several candidates gives the hole is
    left open; any rule will do that picks one of them whenever there is
    one. *)
Record Chooser := mkChooser {
  choose : list Layer -> option Layer;
  choose_member : forall l x, choose l = Some x -> x ∈ l;
  choose_nonempty : forall l, l <> [] -> is_Some (choose l)
}.

Section Hole.
Variable ch : Chooser.

(** Modelled from the spec: the hole is the bounds of the chosen candidate,
    and the empty rectangle when there is none. *)
Definition RecomputeHole (cs : list Layer) : Rect :=
  match choose ch (filter (fun l => cuts_hole l = true) cs) with
  | Some l => layer_bounds l
  | None => Rect_empty
  end.

(** Modelled from the spec: every change to the children recomputes the
    hole. *)
Definition with_children (cs : list Layer) : ParentLayer :=
  mkParentLayer cs (RecomputeHole cs).

(** Modelled from the spec: [parent_view->SetPaintToLayer(true)], no child
    layer yet. *)
Definition new_parent_layer : ParentLayer := with_children [].

(** Modelled from the spec: [parent_view->AddChildView(child)] for a child
    that has a layer, or SetPaintToLayer on a child already added. *)
Definition AddChildLayer (l : Layer) (p : ParentLayer) : ParentLayer :=
  with_children (child_layers p ++ [l]).

(** Modelled from the spec: deleting the view of child [i]. *)
Definition RemoveChildLayer (i : nat) (p : ParentLayer) : ParentLayer :=
  with_children (delete i (child_layers p)).

(** Modelled from the spec: View::SetFillsBoundsOpaquely on the view of child
    [i]. *)
Definition SetFillsBoundsOpaquely (i : nat) (b : bool) (p : ParentLayer)
  : ParentLayer :=
  with_children
    (alter (fun l => mkLayer (layer_bounds l) b (layer_visible l)) i
       (child_layers p)).

(** Modelled from the spec: View::SetVisible on the view of child [i]. *)
Definition SetVisible (i : nat) (b : bool) (p : ParentLayer) : ParentLayer :=
  with_children
    (alter (fun l => mkLayer (layer_bounds l) (fills_bounds_opaquely l) b) i
       (child_layers p)).

(** Modelled from the spec: View::SetBoundsRect on the view of child [i]. *)
Definition SetBoundsRect (i : nat) (r : Rect) (p : ParentLayer) : ParentLayer :=
  with_children
    (alter (fun l => mkLayer r (fills_bounds_opaquely l) (layer_visible l)) i
       (child_layers p)).

(** The parent layers the operations can produce. *)
Inductive reachable : ParentLayer -> Prop :=
| reach_new : reachable new_parent_layer
| reach_add l p : reachable p -> reachable (AddChildLayer l p)
| reach_remove i p : reachable p -> reachable (RemoveChildLayer i p)
| reach_opaque i b p : reachable p -> reachable (SetFillsBoundsOpaquely i b p)
| reach_visible i b p : reachable p -> reachable (SetVisible i b p)
| reach_bounds i r p : reachable p -> reachable (SetBoundsRect i r p).

End Hole.

(** The rule that takes the first candidate in child order. *)
Program Definition first_candidate : Chooser :=
  mkChooser head _ _.
Next Obligation.
  intros [|y l] x H; simpl in H; [discriminate|].
  injection H as ->. apply list_elem_of_here.
Qed.
Next Obligation.
  intros [|y l] H; [congruence|]. simpl. eauto.
Qed.

(** The rule that takes the last candidate. *)
Program Definition last_candidate : Chooser :=
  mkChooser last _ _.
Next Obligation.
  intros l x H. apply last_Some in H as [l' ->].
  apply elem_of_app. right. apply list_elem_of_here.
Qed.
Next Obligation.
  intros l H. destruct (last l) eqn:E; [eauto|].
  apply last_None in E. congruence.
Qed.

(** ViewLayerTest.ToggleOpacityWithLayer: parent_view's layer once
    child_view, at (50, 50, 100, 100), has been added and paints to a layer
    (a new layer fills its bounds opaquely only once told to). *)
Definition ToggleOpacity_parent (ch : Chooser) : ParentLayer :=
  AddChildLayer ch (mkLayer (mkRect 50 50 100 100) false true)
    (new_parent_layer ch).

(** ViewLayerTest.MultipleOpaqueLayers: child_view1 opaque at
    (50, 50, 100, 100), child_view2 not opaque at (150, 150, 200, 200). *)
Definition MultipleOpaque_parent (ch : Chooser) : ParentLayer :=
  AddChildLayer ch (mkLayer (mkRect 150 150 200 200) false true)
    (AddChildLayer ch (mkLayer (mkRect 50 50 100 100) true true)
       (new_parent_layer ch)).

End Layers.

(* ===================================================================== *)
(** ** Further definitions: observations on the logs and the remaining
       functions of the files *)
(* ===================================================================== *)

(** *** Surfaces of gl_surface_mac.cc *)

(** The size a surface was constructed with; the stub has none. *)
Definition surface_size (sfc : GLSurface.Surface) : option Size :=
  match sfc with
  | GLSurface.GLSurfaceOSMesa _ size => Some size
  | GLSurface.PbufferGLSurfaceCGL size => Some size
  | GLSurface.GLSurfaceStub => None
  end.

(** *** Ownership of contexts and images in bitmap_platform_device_mac.cc *)

Module SkiaOwnership.
Import Skia.

#[global] Instance CGContext_eq_dec : EqDecision CGContext.
Proof. solve_decision. Defined.

(** What one call does to the reference count of the context [c]: creating
    it and retaining it add a reference, releasing it drops one. *)
Definition reference_change (c : CGContext) (x : Call) : Z :=
  match x with
  | CGBitmapContextCreate _ _ _ _ _ (Some c') => if decide (c' = c) then 1 else 0
  | CGContextRetain (Some c') => if decide (c' = c) then 1 else 0
  | CGContextRelease (Some c') => if decide (c' = c) then -1 else 0
  | _ => 0
  end.

(** The references to [c] a run of calls leaves behind. *)
Definition references_gained (c : CGContext) (cs : list Call) : Z :=
  foldr (fun x n => reference_change c x + n) 0 cs.

(** The images a run of calls creates, and the images it releases. *)
Definition images_created (cs : list Call) : list CGImage :=
  flat_map (fun x => match x with
                     | CGBitmapContextCreateImage _ (Some i) => [i]
                     | CGImageCreateWithImageInRect _ _ (Some i) => [i]
                     | _ => []
                     end) cs.

Definition images_released (cs : list Call) : list CGImage :=
  flat_map (fun x => match x with
                     | CGImageRelease (Some i) => [i]
                     | _ => []
                     end) cs.

(** A call that retains or releases a context. *)
Definition touches_references (x : Call) : bool :=
  match x with
  | CGBitmapContextCreate _ _ _ _ _ _ | CGContextRetain _
  | CGContextRelease _ => true
  | _ => false
  end.

(** The draws among a run of calls. *)
Definition is_draw (x : Call) : bool :=
  match x with CGContextDrawImage _ _ _ => true | _ => false end.

Definition draws (cs : list Call) : list Call :=
  filter (fun x => is_draw x = true) cs.

(** The context a device holds. *)
Definition context_of (d : BitmapPlatformDevice) : option CGContext :=
  bitmap_context_ (data_ d).

(** A context over caller's pixels at address 2. *)
Definition some_context : CGContext := mkCGContext 5 (Some 2%nat) 30 20.

(** A platform that allocates at address 100 and makes every context. *)
Definition every_context (data : option Ptr) (width height : Z) : bool := true.

End SkiaOwnership.

(** *** The life of a device in bitmap_platform_device_mac.cc *)

Module SkiaLifetime.
Import Skia SkiaOwnership.

Section Device.
Variable NDEBUG : bool.
Variable SK_DEBUG : bool.
Variable allocPixels : Z -> Z -> option Ptr.
Variable bitmap_context_available : option Ptr -> Z -> Z -> bool.

(** BitmapPlatformDeviceData::~BitmapPlatformDeviceData *)
Definition delete_BitmapPlatformDeviceData (d : BitmapPlatformDeviceData)
  : M unit :=
  if bool_decide (is_Some (bitmap_context_ d))
  then call (CGContextRelease (bitmap_context_ d))
  else ret tt.

(** BitmapPlatformDevice::~BitmapPlatformDevice: [data_->unref()].  The data
    is constructed in Create with one reference, which the device takes over,
    and nothing in the file adds another: the unref destroys the data. *)
Definition delete_BitmapPlatformDevice (dev : BitmapPlatformDevice)
  : M unit :=
  delete_BitmapPlatformDeviceData (data_ dev).

(** What a caller does with a device: the public members of the file. *)
Inductive DeviceOp :=
| OpGetBitmapContext
| OpSetMatrixClip (transform : SkMatrix) (region : SkRegion)
| OpDrawToNativeContext (context : option CGContext) (x y : Z)
    (src_rect : option CGRect).

Definition apply_op (op : DeviceOp) (dev : BitmapPlatformDevice)
  : M BitmapPlatformDevice :=
  match op with
  | OpGetBitmapContext => got <- GetBitmapContext dev ;; ret (fst got)
  | OpSetMatrixClip transform region =>
      ret (setMatrixClip dev transform region)
  | OpDrawToNativeContext context x y src_rect =>
      DrawToNativeContext SK_DEBUG dev context x y src_rect
  end.

Fixpoint use (ops : list DeviceOp) (dev : BitmapPlatformDevice)
  : M BitmapPlatformDevice :=
  match ops with
  | [] => ret dev
  | op :: rest => dev1 <- apply_op op dev ;; use rest dev1
  end.

(** A device from its creation by [make] (Create or CreateWithData) through
    what its caller does with it to its destruction; if none is made,
    nothing follows. *)
Definition life (make : M (option BitmapPlatformDevice))
  (ops : list DeviceOp) : M unit :=
  rv <- make ;;
  match rv with
  | None => ret tt
  | Some dev => dev1 <- use ops dev ;; delete_BitmapPlatformDevice dev1
  end.

End Device.

(** A run of calls that leaves no reference on any context, and no image
    that it created unreleased. *)
Definition balanced (added : list Call) : Prop :=
  (forall c, references_gained c added = 0)
  /\ images_created added ≡ₚ images_released added.

(** What the calls of a creation leave: one reference, on the context of the
    device made, or none when no device is made; and no image. *)
Definition made (rv : option BitmapPlatformDevice) (added : list Call)
  : Prop :=
  images_created added = [] /\ images_released added = []
  /\ match rv with
     | Some d =>
         exists c, context_of d = Some c
                   /\ forall c', references_gained c' added
                                 = if decide (c' = c) then 1 else 0
     | None => forall c', references_gained c' added = 0
     end.

End SkiaLifetime.

(** *** Event::GetModifiers of ui/views/events/event.cc *)

Module EventModifiers.
Import Events.

Section Modifiers.
(** Event::IsShiftDown and its three siblings are inline members of
    ui/views/events/event.h, and the VKEY codes come from
    ui/base/keycodes; neither is among the sources. *)
Variable IsShiftDown IsControlDown IsAltDown IsCapsLockDown : Event -> bool.
Variable VKEY_SHIFT VKEY_CONTROL VKEY_MENU VKEY_CAPITAL : Z.

(** Event::GetModifiers *)
Definition GetModifiers (e : Event) : Z :=
  let modifiers := 0 in
  let modifiers :=
    if IsShiftDown e then Z.lor modifiers VKEY_SHIFT else modifiers in
  let modifiers :=
    if IsControlDown e then Z.lor modifiers VKEY_CONTROL else modifiers in
  let modifiers :=
    if IsAltDown e then Z.lor modifiers VKEY_MENU else modifiers in
  let modifiers :=
    if IsCapsLockDown e then Z.lor modifiers VKEY_CAPITAL else modifiers in
  modifiers.

End Modifiers.

(** An event whose flags hold one bit per modifier, and the key codes 0x10,
    0x11, 0x12 and 0x14. *)
Definition flag_bit (n : Z) (e : Event) : bool := Z.testbit (flags_ e) n.
Definition modifiers_of_bits (e : Event) : Z :=
  GetModifiers (flag_bit 1) (flag_bit 2) (flag_bit 3) (flag_bit 0)
    0x10 0x11 0x12 0x14 e.

End EventModifiers.

(** *** Touch handling in views/view_unittest.cc *)

Module TouchTest.

(** ui::TouchStatus: the four values view_unittest.cc names; every other
    value of the enumeration is a [TOUCH_STATUS_other]. *)
Inductive TouchStatus :=
| TOUCH_STATUS_UNKNOWN
| TOUCH_STATUS_START
| TOUCH_STATUS_CONTINUE
| TOUCH_STATUS_END
| TOUCH_STATUS_other (code : Z).

#[global] Instance TouchStatus_eq_dec : EqDecision TouchStatus.
Proof. solve_decision. Defined.

(** What the handlers read of a TouchEvent. *)
Record TouchEvent := mkTouchEvent {
  touch_type : Z;
  touch_x : Z;
  touch_y : Z
}.

(** The members of TestView that Reset, the mouse handlers and OnTouchEvent
    use; the painting and accelerator members are left out. *)
Record TestView := mkTestView {
  did_change_bounds_ : bool;
  last_mouse_event_type_ : Z;
  location_ : Point;
  last_touch_event_type_ : Z;
  last_touch_event_was_handled_ : bool;
  in_touch_sequence_ : bool
}.

(** TestView::TestView *)
Definition new_TestView (v : TestView) : TestView :=
  mkTestView (did_change_bounds_ v) (last_mouse_event_type_ v) (location_ v)
    (last_touch_event_type_ v) (last_touch_event_was_handled_ v) false.

(** TestView::Reset, for the members above. *)
Definition Reset (v : TestView) : TestView :=
  mkTestView false 0 (mkPoint 0 0) 0 false (in_touch_sequence_ v).

(** What the handlers read of a views::MouseEvent (views/events/event.h):
    [type()], [x()] and [y()]. *)
Record MouseEvent := mkMouseEvent {
  mouse_type : Z;
  mouse_x : Z;
  mouse_y : Z
}.

(** The part the three mouse handlers share:
    [last_mouse_event_type_ = event.type(); location_.SetPoint(event.x(),
    event.y());]. *)
Definition record_mouse_event (event : MouseEvent) (v : TestView)
  : TestView :=
  mkTestView (did_change_bounds_ v) (mouse_type event)
    (mkPoint (mouse_x event) (mouse_y event))
    (last_touch_event_type_ v) (last_touch_event_was_handled_ v)
    (in_touch_sequence_ v).

(** TestView::OnMousePressed *)
Definition OnMousePressed (event : MouseEvent) (v : TestView)
  : bool * TestView :=
  (true, record_mouse_event event v).

(** TestView::OnMouseDragged *)
Definition OnMouseDragged (event : MouseEvent) (v : TestView)
  : bool * TestView :=
  (true, record_mouse_event event v).

(** TestView::OnMouseReleased *)
Definition OnMouseReleased (event : MouseEvent) (v : TestView)
  : TestView :=
  record_mouse_event event v.

(** The three mouse handlers. *)
Inductive MouseHandler := MousePressed | MouseDragged | MouseReleased.

Definition on_mouse (h : MouseHandler) (event : MouseEvent)
  (v : TestView) : TestView :=
  match h with
  | MousePressed => snd (OnMousePressed event v)
  | MouseDragged => snd (OnMouseDragged event v)
  | MouseReleased => OnMouseReleased event v
  end.

Section Handlers.
(** ui::ET_TOUCH_PRESSED and ui::ET_TOUCH_RELEASED of ui/base/events.h. *)
Variable ET_TOUCH_PRESSED ET_TOUCH_RELEASED : Z.

(** TestView::OnTouchEvent *)
Definition OnTouchEvent (event : TouchEvent) (v : TestView)
  : TouchStatus * TestView :=
  let v := mkTestView (did_change_bounds_ v) (last_mouse_event_type_ v)
             (mkPoint (touch_x event) (touch_y event)) (touch_type event)
             (last_touch_event_was_handled_ v) (in_touch_sequence_ v) in
  let with_sequence (b : bool) :=
    mkTestView (did_change_bounds_ v) (last_mouse_event_type_ v)
      (location_ v) (last_touch_event_type_ v)
      (last_touch_event_was_handled_ v) b in
  let fall_through :=
    (if last_touch_event_was_handled_ v then TOUCH_STATUS_CONTINUE
     else TOUCH_STATUS_UNKNOWN, v) in
  if negb (in_touch_sequence_ v) then
    if decide (touch_type event = ET_TOUCH_PRESSED)
    then (TOUCH_STATUS_START, with_sequence true)
    else fall_through
  else
    if decide (touch_type event = ET_TOUCH_RELEASED)
    then (TOUCH_STATUS_END, with_sequence false)
    else (TOUCH_STATUS_CONTINUE, v).

(** TestViewIgnoreTouch::OnTouchEvent *)
Definition TestViewIgnoreTouch_OnTouchEvent (event : TouchEvent) (v : TestView)
  : TouchStatus * TestView :=
  (TOUCH_STATUS_UNKNOWN, v).

(** What a test does to a TestView between two looks at it: it sends a touch
    event or a mouse event, calls Reset, or writes
    [last_touch_event_was_handled_]. *)
Inductive Step :=
| Touch (event : TouchEvent)
| Mouse (h : MouseHandler) (event : MouseEvent)
| DoReset
| SetHandled (b : bool).

(** The statuses a run of steps returns, and the view it leaves. *)
Fixpoint run (steps : list Step) (v : TestView)
  : list TouchStatus * TestView :=
  match steps with
  | [] => ([], v)
  | Touch event :: rest =>
      let '(status, v1) := OnTouchEvent event v in
      let '(statuses, v2) := run rest v1 in
      (status :: statuses, v2)
  | Mouse h event :: rest => run rest (on_mouse h event v)
  | DoReset :: rest => run rest (Reset v)
  | SetHandled b :: rest =>
      run rest (mkTestView (did_change_bounds_ v) (last_mouse_event_type_ v)
                  (location_ v) (last_touch_event_type_ v) b
                  (in_touch_sequence_ v))
  end.

End Handlers.

(** Whether a list of statuses can come from a view that is ([true]) or is
    not ([false]) in a touch sequence: a sequence starts only outside one and
    ends only inside one, inside one nothing is left unknown, and no other
    status occurs. *)
Fixpoint well_bracketed (in_sequence : bool) (l : list TouchStatus) : bool :=
  match l with
  | [] => true
  | TOUCH_STATUS_START :: rest => negb in_sequence && well_bracketed true rest
  | TOUCH_STATUS_END :: rest => in_sequence && well_bracketed false rest
  | TOUCH_STATUS_CONTINUE :: rest => well_bracketed in_sequence rest
  | TOUCH_STATUS_UNKNOWN :: rest =>
      negb in_sequence && well_bracketed in_sequence rest
  | TOUCH_STATUS_other _ :: rest => false
  end.

(** Whether a view is in a touch sequence after the statuses of [l]. *)
Fixpoint in_sequence_after (in_sequence : bool) (l : list TouchStatus) : bool :=
  match l with
  | [] => in_sequence
  | TOUCH_STATUS_START :: rest => in_sequence_after true rest
  | TOUCH_STATUS_END :: rest => in_sequence_after false rest
  | _ :: rest => in_sequence_after in_sequence rest
  end.

(** The members of MockGestureManager; [last_view_] is a [View*]. *)
Record MockGestureManager := mkGestureManager {
  previously_handled_flag_ : bool;
  last_touch_event_ : Z;
  last_view_ : option nat;
  dispatched_synthetic_event_ : bool
}.

(** MockGestureManager::Reset *)
Definition GestureManager_Reset (gm : MockGestureManager)
  : MockGestureManager :=
  mkGestureManager false 0 None false.

(** MockGestureManager::ProcessTouchEventForGesture *)
Definition ProcessTouchEventForGesture (event : TouchEvent)
  (source : option nat) (status : TouchStatus) (gm : MockGestureManager)
  : bool * MockGestureManager :=
  if negb (bool_decide (status = TOUCH_STATUS_UNKNOWN)) then
    (false, mkGestureManager (previously_handled_flag_ gm)
              (last_touch_event_ gm) (last_view_ gm) false)
  else
    (true, mkGestureManager
             (negb (bool_decide (status = TOUCH_STATUS_UNKNOWN)))
             (touch_type event) source true).

(** The gesture manager after a run of calls, with what each returned. *)
Fixpoint process_all
  (calls : list (TouchEvent * option nat * TouchStatus))
  (gm : MockGestureManager) : list bool * MockGestureManager :=
  match calls with
  | [] => ([], gm)
  | (event, source, status) :: rest =>
      let '(r, gm1) := ProcessTouchEventForGesture event source status gm in
      let '(rs, gm2) := process_all rest gm1 in
      (r :: rs, gm2)
  end.

End TouchTest.

(** *** TestView::AcceleratorPressed of views/view_unittest.cc *)

Module Accelerators.

(** Modelled from the spec: an Accelerator (accelerator.h, not among the
    sources), by what orders and tells accelerators apart: the key code and
    the three modifiers. *)
Abbreviation Accelerator := (Z * bool * bool * bool)%type.

(** [int]: 32 bits, two's complement. *)
Definition INT_MIN : Z := - 2 ^ 31.
Definition INT_MAX : Z := 2 ^ 31 - 1.

(** The [int] an arithmetic result [z] is stored as: [z] itself between
    INT_MIN and INT_MAX, wrapped around outside. *)
Definition wrap_int (z : Z) : Z := (z + 2 ^ 31) mod 2 ^ 32 - 2 ^ 31.

(** [accelerator_count_map_], a [std::map<Accelerator, int>]. *)
Abbreviation CountMap := (gmap Accelerator Z).

(** The count a test reads with [accelerator_count_map_[accelerator]]: 0
    for an accelerator the map does not hold. *)
Definition count_of (m : CountMap) (a : Accelerator) : Z :=
  default 0 (m !! a).

(** TestView::AcceleratorPressed: [accelerator_count_map_[accelerator]++;
    return true;], the increment on an [int]. *)
Definition AcceleratorPressed (a : Accelerator) (m : CountMap)
  : bool * CountMap :=
  (true, <[a := wrap_int (count_of m a + 1)]> m).

(** The results of a run of presses and the map it leaves. *)
Fixpoint press_all (l : list Accelerator) (m : CountMap)
  : list bool * CountMap :=
  match l with
  | [] => ([], m)
  | a :: rest =>
      let r := AcceleratorPressed a m in
      let rs := press_all rest (snd r) in
      (fst r :: fst rs, snd rs)
  end.

(** How often [a] occurs in [l]. *)
Definition presses_of (a : Accelerator) (l : list Accelerator) : Z :=
  Z.of_nat (length (filter (fun x => x = a) l)).

End Accelerators.

(** *** LayerIsAncestor of views/view_unittest.cc *)

Module LayerWalk.

Section Layers.
(** ui::Layer::parent() is an accessor of ui/gfx/compositor/layer.h; a
    [Layer] is what a non-null [ui::Layer*] points to. *)
Context {Layer : Type} `{EqDecision Layer}.
Variable parent : Layer -> option Layer.

(** LayerIsAncestor: [while (layer && layer != ancestor) layer =
    layer->parent(); return layer == ancestor;], for at most [fuel] steps
    up; [None] when they do not suffice. *)
Fixpoint LayerIsAncestor (fuel : nat) (ancestor layer : option Layer)
  : option bool :=
  match layer with
  | None => Some (bool_decide (layer = ancestor))
  | Some l =>
      if decide (layer = ancestor) then Some (bool_decide (layer = ancestor))
      else
        match fuel with
        | O => None
        | S f => LayerIsAncestor f ancestor (parent l)
        end
  end.

(** [layer] has [n] layers above it. *)
Inductive layers_above : option Layer -> nat -> Prop :=
| above_null : layers_above None 0
| above_step l n : layers_above (parent l) n -> layers_above (Some l) (S n).

(** [a] is [l] or a layer above it. *)
Inductive on_the_way_up (a : Layer) : Layer -> Prop :=
| on_the_way_here : on_the_way_up a a
| on_the_way_further l q :
    parent l = Some q -> on_the_way_up a q -> on_the_way_up a l.

End Layers.

(** A stack of layers: layer 0 is the root, and layer [n + 1] lies on layer
    [n]. *)
Definition stack_parent (l : nat) : option nat :=
  match l with O => None | S k => Some k end.

End LayerWalk.

(** *** The tree walks of views/view_unittest.cc *)

Module TreeWalk.

(** What a walk gives: a result, or no result because the loop did not end
    within the steps it was given, or because it indexed a child vector
    outside its range. *)
Inductive Walk (A : Type) :=
| Reached (a : A)
| OutOfSteps
| OutOfRange.
Arguments Reached {A} a.
Arguments OutOfSteps {A}.
Arguments OutOfRange {A}.

Section Walk.
(** A node is what a non-null [const views::View*] or [const ui::Layer*]
    points to; [parent] is parent(), and [children] the child vector behind
    has_children(), child_at() and child_count(), or children(). *)
Context {Node : Type} `{EqDecision Node}.
Variable parent : Node -> option Node.
Variable children : Node -> list Node.

(** FirstView and FirstLayer are one loop: [while (v has children) v = its
    first child; return v;], here for at most [fuel] steps down. *)
Fixpoint First (fuel : nat) (v : Node) : option Node :=
  match children v with
  | [] => Some v
  | c :: _ =>
      match fuel with
      | O => None
      | S f => First f c
      end
  end.

(** The search loop of NextLayer: the first [index] with
    [children[index] == layer], or [children.size()]. *)
Fixpoint position (layer : Node) (cs : list Node) : nat :=
  match cs with
  | [] => O
  | c :: rest => if decide (c = layer) then O else S (position layer rest)
  end.

(** NextLayer *)
Definition NextLayer (fuel : nat) (layer : Node) : Walk (option Node) :=
  match parent layer with
  | None => Reached None
  | Some p =>
      let cs := children p in
      let index := position layer cs in
      let next := (index + 1)%nat in
      if decide (next < length cs)%nat then
        match cs !! next with
        | Some c =>
            match First fuel c with
            | Some l => Reached (Some l)
            | None => OutOfSteps
            end
        | None => OutOfRange
        end
      else Reached (Some p)
  end.

(** The nodes of the tree under [v], children before their parent and
    siblings in the order of the child vector, down to depth [fuel]. *)
Fixpoint postorder (fuel : nat) (v : Node) : list Node :=
  match fuel with
  | O => [v]
  | S f => flat_map (postorder f) (children v) ++ [v]
  end.

(** Each node of [l] but the last is followed by the node [next] gives for
    it. *)
Fixpoint follows (next : Node -> Walk (option Node)) (l : list Node) : Prop :=
  match l with
  | a :: rest =>
      match rest with
      | b :: _ => next a = Reached (Some b) /\ follows next rest
      | [] => True
      end
  | [] => True
  end.

(** The tree under [v] is at most [fuel] levels deep. *)
Fixpoint fits (fuel : nat) (v : Node) : Prop :=
  match fuel with
  | O => children v = []
  | S f => forall c, c ∈ children v -> fits f c
  end.

(** [w] is [v] or below it. *)
Inductive below (v : Node) : Node -> Prop :=
| below_self : below v v
| below_child u w : below v u -> w ∈ children u -> below v w.

(** The [k]th node above [w]. *)
Fixpoint up (k : nat) (w : Node) : option Node :=
  match k with
  | O => Some w
  | S j =>
      match parent w with
      | Some q => up j q
      | None => None
      end
  end.

End Walk.

Import Views.

(** FirstView *)
Definition FirstView (fuel : nat) (s : Store) (view : ViewId)
  : option ViewId :=
  First (children s) fuel view.

(** Modelled from the spec: View::child_at (views/view.h, not among the
    sources) is [children_[index]], defined for an index within the
    vector. *)
Definition child_at (s : Store) (v : ViewId) (index : Z) : option ViewId :=
  if index <? 0 then None else children s v !! Z.to_nat index.

(** NextView *)
Definition NextView (fuel : nat) (s : Store) (view : ViewId)
  : Walk (option ViewId) :=
  match parent s view with
  | None => Reached None
  | Some p =>
      let next := GetIndexOf s p (Some view) + 1 in
      if decide (next <> child_count s p) then
        match child_at s p next with
        | Some c =>
            match FirstView fuel s c with
            | Some v => Reached (Some v)
            | None => OutOfSteps
            end
        | None => OutOfRange
        end
      else Reached (Some p)
  end.

(** The logging loops of ViewAndLayerTreeAreConsistent,
    [for (x = start; x; x = x->parent()) LOG(ERROR) << ...]: whether the
    loop ends within [n] steps. *)
Fixpoint climb {A : Type} (parent : A -> option A) (n : nat) (x : option A)
  : bool :=
  match x with
  | None => true
  | Some a =>
      match n with
      | O => false
      | S m => climb parent m (parent a)
      end
  end.

Section Sync.
(** The view tree is a store of views, the layer tree is given by
    ui::Layer::parent() and children().  View::layer(),
    View::IsVisibleInRootView(), ui::Layer::IsDrawn() and ui::Layer::bounds()
    are accessors defined elsewhere.  Every loop may take [fuel] steps. *)
Context {Layer : Type} `{EqDecision Layer}.
Variable s : Store.
Variable layer_parent : Layer -> option Layer.
Variable layer_children : Layer -> list Layer.
Variable layer_of : ViewId -> option Layer.
Variable IsVisibleInRootView : ViewId -> bool.
Variable IsDrawn : Layer -> bool.
Variable layer_bounds : Layer -> Rect.
Variable fuel : nat.

(** [while (v && !v->layer()) v = NextView(v);] *)
Fixpoint skip_unlayered (n : nat) (v : option ViewId)
  : Walk (option ViewId) :=
  match v with
  | None => Reached None
  | Some x =>
      match layer_of x with
      | Some _ => Reached v
      | None =>
          match n with
          | O => OutOfSteps
          | S m =>
              match NextView fuel s x with
              | Reached v' => skip_unlayered m v'
              | OutOfSteps => OutOfSteps
              | OutOfRange => OutOfRange
              end
          end
      end
  end.

(** The outer loop of ViewAndLayerTreeAreConsistent, from the views [v] and
    [l] it has come to.  The EXPECT_ macros record a test failure and go on;
    the two loops that log the ancestors on a visibility mismatch have to
    end before false is returned. *)
Fixpoint sync_loop (view : ViewId) (layer : Layer) (n : nat)
  (v : option ViewId) (l : option Layer) : Walk bool :=
  match v, l with
  | Some _, Some l0 =>
      match skip_unlayered fuel v with
      | Reached None => Reached false
      | Reached (Some v1) =>
          if decide (layer_of v1 <> Some l0) then Reached false
          else if negb (eqb (IsVisibleInRootView v1) (IsDrawn l0)) then
            if climb (parent s) fuel (Some v1)
               && climb layer_parent fuel (Some l0)
            then Reached false else OutOfSteps
          else if decide (bounds s v1 <> layer_bounds l0) then Reached false
          else if bool_decide (v1 = view) || bool_decide (l0 = layer) then
            Reached (bool_decide (v1 = view) && bool_decide (l0 = layer))
          else
            match n with
            | O => OutOfSteps
            | S m =>
                match NextView fuel s v1 with
                | Reached v' =>
                    match NextLayer layer_parent layer_children fuel l0 with
                    | Reached l' => sync_loop view layer m v' l'
                    | OutOfSteps => OutOfSteps
                    | OutOfRange => OutOfRange
                    end
                | OutOfSteps => OutOfSteps
                | OutOfRange => OutOfRange
                end
            end
      | OutOfSteps => OutOfSteps
      | OutOfRange => OutOfRange
      end
  | _, _ => Reached false
  end.

(** ViewAndLayerTreeAreConsistent *)
Definition ViewAndLayerTreeAreConsistent (view : ViewId) (layer : Layer)
  : Walk bool :=
  match FirstView fuel s view with
  | None => OutOfSteps
  | Some v =>
      match First layer_children fuel layer with
      | None => OutOfSteps
      | Some l => sync_loop view layer fuel (Some v) (Some l)
      end
  end.

(** A view and a layer that the checks of the loop accept as a pair. *)
Definition in_sync (v : ViewId) (l : Layer) : Prop :=
  layer_of v = Some l
  /\ IsVisibleInRootView v = IsDrawn l
  /\ bounds s v = layer_bounds l.

End Sync.

(** A layer tree: layer 0 has the children 1 and 2, and layer 1 the child
    3. *)
Definition small_parent (l : nat) : option nat :=
  match l with
  | 1%nat | 2%nat => Some 0%nat
  | 3%nat => Some 1%nat
  | _ => None
  end.

Definition small_children (l : nat) : list nat :=
  match l with
  | 0%nat => [1%nat; 2%nat]
  | 1%nat => [3%nat]
  | _ => []
  end.

(** Views that each paint to the layer of their own number, drawn and
    visible, with the bounds of the view; and the same with view 2 painting
    to no layer. *)
Definition mirror_layer (v : Views.ViewId) : option nat := Some v.
Definition all_but_2 (v : Views.ViewId) : option nat :=
  if decide (v = 2%nat) then None else Some v.
Definition always (x : nat) : bool := true.
Definition mirror_bounds (l : nat) : Rect :=
  Views.bounds Views.GetIndexOf_tree l.

End TreeWalk.

(** *** ConstructTree and ScrambleTree of views/view_unittest.cc *)

Module TreeBuild.
Import Views TreeWalk.

(** The views, the views that paint to a layer, and how many random numbers
    have been drawn. *)
Record TreeState := mkTreeState {
  store : Store;
  painted : list ViewId;
  drawn : nat
}.

(** Modelled from the spec: View::layer() and View::SetPaintToLayer
    (views/view.cc, not among the sources), as far as the two functions see
    them: whether a view paints to a layer of its own. *)
Definition has_layer (st : TreeState) (v : ViewId) : bool :=
  bool_decide (v ∈ painted st).

Definition SetPaintToLayer (v : ViewId) (b : bool) (st : TreeState)
  : TreeState :=
  mkTreeState (store st)
    (if b then (if has_layer st v then painted st else v :: painted st)
     else filter (fun x => x <> v) (painted st))
    (drawn st).

Definition on_store (f : Store -> Store) (st : TreeState) : TreeState :=
  mkTreeState (f (store st)) (painted st) (drawn st).

Section Random.
(** base::RandInt and base::RandDouble (base/rand_util.h): the value of the
    [k]th draw.  A double is kept abstract, with its order and the three
    constants the functions compare with. *)
Variable double : Type.
Variable double_lt : double -> double -> bool.
Variable d_0_5 d_0_2 d_0_1 : double.
Variable RandInt : nat -> Z -> Z -> Z.
Variable RandDouble : nat -> double.

Definition rand_int (lo hi : Z) (st : TreeState) : Z * TreeState :=
  (RandInt (drawn st) lo hi,
   mkTreeState (store st) (painted st) (S (drawn st))).

Definition rand_double (st : TreeState) : double * TreeState :=
  (RandDouble (drawn st),
   mkTreeState (store st) (painted st) (S (drawn st))).

(** The loop of ConstructTree, with [n] turns to go; [rec] is the recursive
    call. *)
Fixpoint add_children (rec : ViewId -> TreeState -> option TreeState)
  (n : nat) (view : ViewId) (st : TreeState) : option TreeState :=
  match n with
  | O => Some st
  | S m =>
      let created := new_view PlainView (store st) in
      let v := snd created in
      let st := mkTreeState (AddChildView view v (fst created)) (painted st)
                  (drawn st) in
      let r1 := rand_double st in
      let st := if double_lt d_0_5 (fst r1)
                then SetPaintToLayer v true (snd r1) else snd r1 in
      let r2 := rand_double st in
      let st := if double_lt (fst r2) d_0_2
                then on_store (SetVisible v false) (snd r2) else snd r2 in
      match rec v st with
      | Some st' => add_children rec m view st'
      | None => None
      end
  end.

(** ConstructTree, for at most [fuel] levels. *)
Fixpoint ConstructTree (fuel : nat) (view : ViewId) (depth : Z)
  (st : TreeState) : option TreeState :=
  if decide (depth = 0) then Some st
  else
    match fuel with
    | O => None
    | S f =>
        let r := rand_int 1 5 st in
        add_children (fun v => ConstructTree f v (depth - 1))
          (Z.to_nat (fst r)) view (snd r)
    end.

(** The first loop of ScrambleTree, at index [i] with [n] turns to go. *)
Fixpoint scramble_children (rec : ViewId -> TreeState -> Walk TreeState)
  (n : nat) (i : Z) (view : ViewId) (st : TreeState) : Walk TreeState :=
  match n with
  | O => Reached st
  | S m =>
      match child_at (store st) view i with
      | None => OutOfRange
      | Some c =>
          match rec c st with
          | Reached st' => scramble_children rec m (i + 1) view st'
          | OutOfSteps => OutOfSteps
          | OutOfRange => OutOfRange
          end
      end
  end.

(** The two children of [view] drawn at random change places. *)
Definition swap_two (count : Z) (view : ViewId) (st : TreeState)
  : Walk TreeState :=
  if decide (1 < count) then
    let ra := rand_int 0 (count - 1) st in
    let rb := rand_int 0 (count - 1) (snd ra) in
    let a := fst ra in
    let b := fst rb in
    let st := snd rb in
    match child_at (store st) view a with
    | Some view_a =>
        match child_at (store st) view b with
        | Some view_b =>
            Reached
              (on_store
                 (fun s => ReorderChildView view view_b a
                             (ReorderChildView view view_a b s)) st)
        | None => OutOfRange
        end
    | None => OutOfRange
    end
  else Reached st.

(** The end of ScrambleTree: perhaps a layer, perhaps the other
    visibility. *)
Definition toggle (view : ViewId) (st : TreeState) : TreeState :=
  let st :=
    if negb (has_layer st view) then
      let r := rand_double st in
      if double_lt (fst r) d_0_1 then SetPaintToLayer view true (snd r)
      else snd r
    else st in
  let r := rand_double st in
  if double_lt (fst r) d_0_1
  then on_store (SetVisible view (negb (IsVisible (store (snd r)) view)))
         (snd r)
  else snd r.

(** ScrambleTree, for at most [fuel] levels. *)
Fixpoint ScrambleTree (fuel : nat) (view : ViewId) (st : TreeState)
  : Walk TreeState :=
  let count := child_count (store st) view in
  if decide (count = 0) then Reached st
  else
    match fuel with
    | O => OutOfSteps
    | S f =>
        match scramble_children (ScrambleTree f) (Z.to_nat count) 0 view st
        with
        | Reached st =>
            match swap_two count view st with
            | Reached st => Reached (toggle view st)
            | OutOfSteps => OutOfSteps
            | OutOfRange => OutOfRange
            end
        | OutOfSteps => OutOfSteps
        | OutOfRange => OutOfRange
        end
    end.

End Random.

(** The tree under [v] is [d] levels deep everywhere, each view above the
    last level has between one and five children, and all views below [v]
    have numbers from [lo] on. *)
Fixpoint complete (s : Store) (lo : nat) (d : nat) (v : ViewId) : Prop :=
  match d with
  | O => children s v = []
  | S d' =>
      (1 <= length (children s v) <= 5)%nat
      /\ forall c, c ∈ children s v -> (lo <= c)%nat /\ complete s lo d' c
  end.

(** What a construction under [view] leaves of the store [s] it started
    from: the views of [s] keep their parents, and all but [view] their
    children. *)
Definition grown (view : ViewId) (s s' : Store) : Prop :=
  consistent s'
  /\ (length s <= length s')%nat
  /\ (forall u, (u < length s)%nat -> parent s' u = parent s u)
  /\ (forall u, (u < length s)%nat -> u <> view ->
                children s' u = children s u).

(** The same views, each with the same parent and the same children, these
    perhaps in another order. *)
Definition same_tree (s s' : Store) : Prop :=
  length s' = length s
  /\ (forall u, parent s' u = parent s u)
  /\ (forall u, children s' u ≡ₚ children s u).

(** Random numbers for the examples: the draws go round the interval, and
    round the hundredths. *)
Definition round_robin (k : nat) (lo hi : Z) : Z :=
  lo + Z.of_nat k mod (hi - lo + 1).
Definition hundredths (k : nat) : Z := (Z.of_nat k * 37) mod 100.

End TreeBuild.

(* ===================================================================== *)
(** * Properties *)
(* ===================================================================== *)

(** ** GL surface factory *)

Module GLSurfaceProps.
Import GLSurface.

Section Factory.
Context {P : Type} (os : Platform P).

(** A call that returns true leaves the static flag set. *)
Lemma InitializeOneOff_true_sets_flag (s s1 : Process P) :
  InitializeOneOff os s = (true, s1) -> initialized s1 = true.
Proof.
  unfold InitializeOneOff.
  destruct (initialized s) eqn:Hi.
  - intros [= <-]. exact Hi.
  - destruct (InitializeRequestedGLBindings os _ _ _) as [ok p1].
    destruct ok; simpl; [|discriminate].
    destruct (GetGLImplementation os p1);
      try (intros [= <-]; reflexivity).
    destruct (GLSurfaceCGL_InitializeOneOff os p1) as [ok2 p2].
    destruct ok2; simpl; [|discriminate].
    intros [= <-]. reflexivity.
Qed.

(** With the flag set, a call returns true at once: the process, platform
    state included, is untouched. *)
Lemma InitializeOneOff_when_initialized (p : P) :
  InitializeOneOff os (mkProcess true p) = (true, mkProcess true p).
Proof. reflexivity. Qed.

Lemma InitializeOneOff_times_initialized (n : nat) (p : P) :
  InitializeOneOff_times os n (mkProcess true p)
  = (repeat true n, mkProcess true p).
Proof.
  induction n as [|n IH]; simpl; [reflexivity|].
  rewrite IH. reflexivity.
Qed.

(** In any run of calls the results are some failures followed by successes
    only: the initialization completes at most once. *)
Lemma InitializeOneOff_results_shape (n : nat) (s : Process P) :
  exists k, (k <= n)%nat
            /\ fst (InitializeOneOff_times os n s)
               = repeat false k ++ repeat true (n - k).
Proof.
  revert s. induction n as [|n IH]; intros s.
  - exists 0%nat. split; [lia|reflexivity].
  - simpl. destruct (InitializeOneOff os s) as [r s1] eqn:Hcall.
    destruct r.
    + pose proof (InitializeOneOff_true_sets_flag _ _ Hcall) as Hflag.
      destruct s1 as [i p]. simpl in Hflag. subst i.
      rewrite InitializeOneOff_times_initialized.
      exists 0%nat. split; [lia|reflexivity].
    + destruct (IH s1) as (k & Hk & Hshape).
      destruct (InitializeOneOff_times os n s1) as [rs s2].
      simpl in Hshape. subst rs.
      exists (S k). split; [lia|reflexivity].
Qed.

(** C8. InitializeOneOff is idempotent: once a call has returned true, every
    later call returns true and changes nothing, whatever the platform state
    has become in between ([p]) and however many calls follow ([n]): no GL
    binding initialization and no platform surface initialization is
    repeated. *)
Theorem InitializeOneOff_idempotent (s s1 : Process P) :
  InitializeOneOff os s = (true, s1) ->
  forall (p : P) (n : nat),
    InitializeOneOff os (mkProcess (initialized s1) p)
      = (true, mkProcess (initialized s1) p)
    /\ InitializeOneOff_times os n (mkProcess (initialized s1) p)
       = (repeat true n, mkProcess (initialized s1) p).
Proof.
  intros H p n.
  rewrite (InitializeOneOff_true_sets_flag _ _ H).
  split.
  - apply InitializeOneOff_when_initialized.
  - apply InitializeOneOff_times_initialized.
Qed.

(** C9. With [software] set, CreateOffscreenGLSurface returns NULL for every
    size without touching the platform, whatever GL implementation is
    selected and in every build; CreateViewGLSurface is
    CreateOffscreenGLSurface at size 1x1 for every window, so it returns NULL
    under [software] as well. *)
Theorem software_surfaces_are_null (DCHECK_IS_ON : bool) :
  (forall (size : Size) (p : P),
     CreateOffscreenGLSurface os DCHECK_IS_ON true size p = Some (None, p))
  /\ (forall (software : bool) (window : PluginWindowHandle) (p : P),
        CreateViewGLSurface os DCHECK_IS_ON software window p
        = CreateOffscreenGLSurface os DCHECK_IS_ON software (mkSize 1 1) p)
  /\ (forall (window : PluginWindowHandle) (p : P),
        CreateViewGLSurface os DCHECK_IS_ON true window p = Some (None, p)).
Proof. repeat split. Qed.

End Factory.

(** On the counting platform the first call fails (the bindings do not load),
    the second succeeds, and three more calls leave the counters alone. *)
Lemma InitializeOneOff_idempotent_witness :
  let s0 := mkProcess false (mkCounters 0 0 0) in
  let s1 := snd (InitializeOneOff counting s0) in
  let s2 := snd (InitializeOneOff counting s1) in
  fst (InitializeOneOff counting s0) = false
  /\ InitializeOneOff counting s1 = (true, s2)
  /\ InitializeOneOff_times counting 3 s2 = ([true; true; true], s2)
  /\ platform s2 = mkCounters 2 1 0.
Proof.
  cbv zeta.
  split; [reflexivity|]. split; [reflexivity|]. split; [|reflexivity].
  exact (proj2 (InitializeOneOff_idempotent counting
                  (mkProcess false (mkCounters 1 0 0))
                  (mkProcess true (mkCounters 2 1 0))
                  eq_refl (mkCounters 2 1 0) 3%nat)).
Defined.

End GLSurfaceProps.

(** ** Bitmap platform device *)

Module SkiaProps.
Import Skia.

Lemma new_calls_app (w : World) (n : nat) (cs : list Call) :
  new_calls w (mkWorld n (calls w ++ cs)) = cs.
Proof. unfold new_calls. simpl. apply drop_app_length. Qed.

Lemma devices_constructed_app (w : World) (n : nat) (cs : list Call) :
  devices_constructed (mkWorld n (calls w ++ cs))
  = (devices_constructed w
     + length (filter (fun c => is_device c = true) cs))%nat.
Proof. unfold devices_constructed. simpl. rewrite filter_app, length_app. reflexivity. Qed.

Lemma no_device_among (cs : list Call) :
  forallb (fun x => negb (is_device x) && negb (context_creation_failed x)) cs
  = true ->
  length (filter (fun c => is_device c = true) cs) = 0%nat.
Proof.
  induction cs as [|c cs IH]; simpl; [reflexivity|].
  intros [Hc Hcs]%andb_true_iff.
  apply andb_true_iff in Hc as [Hd _].
  rewrite filter_cons. destruct (decide (is_device c = true)) as [E|E].
  - rewrite E in Hd. discriminate.
  - auto.
Qed.

Section Device.
Variable NDEBUG : bool.
Variable SK_DEBUG : bool.
Variable allocPixels : Z -> Z -> option Ptr.
Variable bitmap_context_available : option Ptr -> Z -> Z -> bool.

Local Abbreviation Create' :=
  (Create NDEBUG SK_DEBUG allocPixels bitmap_context_available).
Local Abbreviation CreateWithData' :=
  (CreateWithData NDEBUG SK_DEBUG allocPixels bitmap_context_available).
Local Abbreviation CGContextForData' :=
  (CGContextForData bitmap_context_available).

(** The SkASSERT of the data constructor holds for a context that is there. *)
Lemma SkASSERT_true (w : World) : SkASSERT SK_DEBUG true w = Some (tt, w).
Proof. unfold SkASSERT. rewrite andb_false_r. reflexivity. Qed.

(** CGContextForData always returns; it returns NULL exactly when the
    platform has no context to give, and then its only call is the failed
    CGBitmapContextCreate. *)
Lemma CGContextForData_cases (data : option Ptr) (width height : Z) (w : World) :
  (bitmap_context_available data width height = true /\
   exists c cs,
     CGContextForData' data width height w
       = Some (Some c, mkWorld (S (next_id w)) (calls w ++ cs))
     /\ forallb (fun x => negb (is_device x) && negb (context_creation_failed x)) cs = true)
  \/
  (bitmap_context_available data width height = false /\
   CGContextForData' data width height w
     = Some (None, mkWorld (next_id w)
               (calls w ++ [CGBitmapContextCreate data width height 8
                              (width * 4) None]))).
Proof.
  unfold CGContextForData.
  destruct (bitmap_context_available data width height); [left|right];
    split; try reflexivity.
  eexists _, _. split.
  - cbv [bind call ret calls next_id]. rewrite <- !app_assoc. reflexivity.
  - reflexivity.
Qed.

(** What one call of Create does, by cases: it always returns, and it returns
    NULL exactly when the pixels cannot be allocated or the context it has to
    make itself cannot be made. *)
Lemma Create_outcome (context : option CGContext) (width height : Z)
  (is_opaque : bool) (w : World) :
  exists rv w',
    Create' context width height is_opaque w = Some (rv, w')
    /\ (rv = None <->
        allocPixels width height = None
        \/ (context = None /\
            bitmap_context_available (allocPixels width height) width height
            = false))
    /\ (existsb context_creation_failed (new_calls w w') = true -> rv = None)
    /\ (rv = None -> devices_constructed w' = devices_constructed w)
    /\ (forall d, rv = Some d ->
          devices_constructed w' = S (devices_constructed w)
          /\ In (new_BitmapPlatformDevice d) (new_calls w w')).
Proof.
  unfold Create.
  destruct (allocPixels width height) as [px|] eqn:Halloc.
  2:{ exists None, w. split; [reflexivity|].
      unfold new_calls. rewrite drop_all.
      repeat split; auto; discriminate. }
  destruct context as [c|].
  - (* the caller's context: retained, wrapped, released *)
    eexists (Some _), (mkWorld (next_id w) (calls w ++ _)). split.
    { cbv [bind call ret new_BitmapPlatformDeviceData construct_device
           calls next_id].
      simpl bool_decide. rewrite SkASSERT_true. cbv [calls next_id].
      rewrite <- !app_assoc. reflexivity. }
    rewrite new_calls_app, devices_constructed_app.
    split; [split; [discriminate|intros [?|[? _]]; discriminate]|].
    split; [discriminate|]. split; [discriminate|].
    intros d [= <-]. split; [simpl; lia|]. simpl. tauto.
  - (* no context given: CGContextForData on the bitmap's own pixels *)
    unfold bind at 1. cbv [bm_pixels].
    destruct (CGContextForData_cases (Some px) width height w)
      as [[Hav (c & cs & Hrun & Hcs)]|[Hav Hrun]]; rewrite Hrun.
    + eexists (Some _), (mkWorld (S (next_id w)) (calls w ++ cs ++ _)). split.
      { cbv [bind call ret new_BitmapPlatformDeviceData construct_device
             calls next_id].
        simpl bool_decide. rewrite SkASSERT_true. cbv [calls next_id].
        rewrite <- !app_assoc. reflexivity. }
      rewrite new_calls_app, devices_constructed_app.
      split; [split; [discriminate|intros [?|[_ ?]]; congruence]|].
      split.
      { rewrite existsb_app. intros H. exfalso.
        apply orb_true_iff in H as [H|H]; [|discriminate].
        apply existsb_exists in H as (x & Hx & Hf).
        rewrite forallb_forall in Hcs. specialize (Hcs x Hx).
        rewrite Hf in Hcs. rewrite andb_false_r in Hcs. discriminate. }
      split; [discriminate|].
      intros d [= <-]. split.
      * rewrite filter_app, length_app.
        rewrite (no_device_among cs Hcs). simpl. lia.
      * apply in_or_app. right. simpl. tauto.
    + eexists None, _. split; [reflexivity|].
      rewrite new_calls_app, devices_constructed_app.
      split; [split; [intros _; right; split; [reflexivity|exact Hav]
                     |reflexivity]|].
      split; [reflexivity|]. split; [intros _; simpl; lia|discriminate].
Qed.

(** C2. Create has one failure mode: it returns NULL, constructing no device,
    when pixel allocation fails or when the CGBitmapContextCreate it issues
    returns null; in every other case it returns a device, constructing
    exactly that one.  CreateWithData returns what the Create it calls
    returns, so it is NULL exactly when that Create is.  Both always return:
    there is no other way to fail. *)
Theorem Create_returns_null_exactly_on_platform_failure
  (context : option CGContext) (data : option Ptr) (width height : Z)
  (is_opaque : bool) (w : World) :
  (exists rv w',
     Create' context width height is_opaque w = Some (rv, w')
     /\ (rv = None <->
         allocPixels width height = None
         \/ (context = None /\
             bitmap_context_available (allocPixels width height) width height
             = false))
     /\ (existsb context_creation_failed (new_calls w w') = true -> rv = None)
     /\ (rv = None -> devices_constructed w' = devices_constructed w)
     /\ (forall d, rv = Some d ->
           devices_constructed w' = S (devices_constructed w)
           /\ In (new_BitmapPlatformDevice d) (new_calls w w')))
  /\ (exists context1 w1 rv1 w2 w3,
        match data with
        | Some _ => CGContextForData' data width height w
        | None => Some (None, w)
        end = Some (context1, w1)
        /\ Create' context1 width height is_opaque w1 = Some (rv1, w2)
        /\ CreateWithData' data width height is_opaque w = Some (rv1, w3)).
Proof.
  split; [apply Create_outcome|].
  assert (Hpre : exists context1 w1,
             match data with
             | Some _ => CGContextForData' data width height w
             | None => Some (None, w)
             end = Some (context1, w1)).
  { destruct data as [p|]; [|eauto].
    destruct (CGContextForData_cases (Some p) width height w)
      as [[_ (c & cs & Hrun & _)]|[_ Hrun]]; rewrite Hrun; eauto. }
  destruct Hpre as (context1 & w1 & Hpre).
  destruct (Create_outcome context1 width height is_opaque w1)
    as (rv1 & w2 & Hrun & _).
  assert (Hwith : exists w3,
             CreateWithData' data width height is_opaque w = Some (rv1, w3)).
  { unfold CreateWithData. unfold bind at 1.
    destruct data as [p|].
    - rewrite Hpre. unfold bind at 1. rewrite Hrun.
      destruct context1; eexists; reflexivity.
    - injection Hpre as <- <-. unfold ret at 1. unfold bind at 1.
      rewrite Hrun. eexists. reflexivity. }
  destruct Hwith as (w3 & Hwith).
  exists context1, w1, rv1, w2, w3. auto.
Qed.

Local Abbreviation DrawToNativeContext' := (DrawToNativeContext SK_DEBUG).

(** With a bitmap context present on entry the device is returned as it was:
    the call only draws. *)
Lemma DrawToNativeContext_present (dev : BitmapPlatformDevice) (c : CGContext)
  (context : option CGContext) (x y : Z) (src_rect : option CGRect)
  (w : World) :
  bitmap_context_ (data_ dev) = Some c ->
  DrawToNativeContext' dev context x y src_rect w
  = Some (dev, mkWorld (next_id w)
                 (calls w ++ draw_calls dev context x y src_rect)).
Proof.
  intros Hc. destruct dev as [[bc cd tr cl] bm]. simpl in Hc. subst bc.
  unfold DrawToNativeContext, draw_calls.
  destruct src_rect; cbv [bind call ret calls next_id fst snd negb data_
    bitmap_context_]; simpl; rewrite <- ?app_assoc; reflexivity.
Qed.



End Device.

(** When CGBitmapContextCreate fails on the caller's data, CreateWithData
    goes on with a null context: the Create it calls then allocates pixels of
    its own, and the device it returns does not wrap the caller's data. *)
Example CreateWithData_falls_back_to_own_pixels :
  exists d w,
    CreateWithData true false alloc_at_100 context_over_100_only
      (Some 9%nat) 4 5 false empty_world = Some (Some d, w)
    /\ bm_pixels (bitmap d) = Some 100%nat
    /\ existsb context_creation_failed (calls w) = true.
Proof. eexists _, _. vm_compute. auto. Qed.


End SkiaProps.

(** ** The view tree *)

Module ViewsProps.
Import Views.

(** *** What the member updates change *)

Lemma parent_set_parent (v : ViewId) (p : option ViewId) (s : Store) (u : ViewId) :
  parent (set_parent v p s) u
  = if decide (v = u) then (if decide (v < length s)%nat then p else None)
    else parent s u.
Proof.
  unfold parent, set_parent. rewrite list_lookup_alter.
  destruct (decide (v = u)) as [->|]; [|reflexivity].
  destruct (decide (u < length s)%nat) as [Hlt|Hge].
  - apply lookup_lt_is_Some in Hlt as [n ->]. reflexivity.
  - rewrite (lookup_ge_None_2 s u) by lia. reflexivity.
Qed.

Lemma children_set_parent (v : ViewId) (p : option ViewId) (s : Store) (u : ViewId) :
  children (set_parent v p s) u = children s u.
Proof.
  unfold children, set_parent. rewrite list_lookup_alter.
  destruct (decide (v = u)) as [->|]; [|reflexivity].
  destruct (s !! u); reflexivity.
Qed.

Lemma parent_set_children (v : ViewId) (cs : list ViewId) (s : Store) (u : ViewId) :
  parent (set_children v cs s) u = parent s u.
Proof.
  unfold parent, set_children. rewrite list_lookup_alter.
  destruct (decide (v = u)) as [->|]; [|reflexivity].
  destruct (s !! u); reflexivity.
Qed.

Lemma children_set_children (v : ViewId) (cs : list ViewId) (s : Store) (u : ViewId) :
  children (set_children v cs s) u
  = if decide (v = u) then (if decide (v < length s)%nat then cs else [])
    else children s u.
Proof.
  unfold children, set_children. rewrite list_lookup_alter.
  destruct (decide (v = u)) as [->|]; [|reflexivity].
  destruct (decide (u < length s)%nat) as [Hlt|Hge].
  - apply lookup_lt_is_Some in Hlt as [n ->]. reflexivity.
  - rewrite (lookup_ge_None_2 s u) by lia. reflexivity.
Qed.

Lemma length_set_parent v p s : length (set_parent v p s) = length s.
Proof. apply length_alter. Qed.

Lemma length_set_children v cs s : length (set_children v cs s) = length s.
Proof. apply length_alter. Qed.

Lemma children_out_of_range (s : Store) (v : ViewId) :
  (length s <= v)%nat -> children s v = [].
Proof. intros H. unfold children. rewrite lookup_ge_None_2 by lia. reflexivity. Qed.

Lemma parent_out_of_range (s : Store) (v : ViewId) :
  (length s <= v)%nat -> parent s v = None.
Proof. intros H. unfold parent. rewrite lookup_ge_None_2 by lia. reflexivity. Qed.

Lemma child_list_in_range (s : Store) (p c : ViewId) :
  c ∈ children s p -> (p < length s)%nat.
Proof.
  intros Hin. destruct (decide (p < length s)%nat) as [|Hge]; [assumption|].
  rewrite children_out_of_range in Hin by lia. inversion Hin.
Qed.

(** Updates of the other members leave the tree alone. *)
Lemma tree_after_alter (f : ViewNode -> ViewNode) (v : ViewId) (s : Store) :
  (forall n, parent_ (f n) = parent_ n) ->
  (forall n, children_ (f n) = children_ n) ->
  (forall u, parent (alter f v s) u = parent s u)
  /\ (forall u, children (alter f v s) u = children s u).
Proof.
  intros Hp Hc. split; intros u; unfold parent, children;
    rewrite list_lookup_alter; destruct (decide (v = u)) as [->|];
    try reflexivity; destruct (s !! u); simpl; auto.
Qed.

Lemma tree_after_new_view (cls : ViewClass) (s : Store) :
  (forall u, parent (fst (new_view cls s)) u = parent s u)
  /\ (forall u, children (fst (new_view cls s)) u = children s u).
Proof.
  split; intros u; unfold parent, children, new_view; simpl;
    destruct (decide (u < length s)%nat) as [Hlt|Hge].
  - rewrite lookup_app_l by lia. reflexivity.
  - rewrite lookup_app_r by lia. rewrite (lookup_ge_None_2 s u) by lia.
    destruct (u - length s)%nat; reflexivity.
  - rewrite lookup_app_l by lia. reflexivity.
  - rewrite lookup_app_r by lia. rewrite (lookup_ge_None_2 s u) by lia.
    destruct (u - length s)%nat; reflexivity.
Qed.

(** *** Structure of a consistent store *)

Lemma Rooted_ext (s s' : Store) :
  (forall u, parent s' u = parent s u) ->
  forall v n, Rooted s v n -> Rooted s' v n.
Proof.
  intros Hp v n H. induction H as [v H|v q n H _ IH].
  - apply Rooted_root. rewrite Hp. exact H.
  - apply Rooted_step with q; [rewrite Hp; exact H|exact IH].
Qed.

Lemma consistent_ext (s s' : Store) :
  (forall u, parent s' u = parent s u) ->
  (forall u, children s' u = children s u) ->
  consistent s -> consistent s'.
Proof.
  intros Hp Hc [Hl Hn Hr]. split.
  - intros p c. rewrite Hp, Hc. apply Hl.
  - intros p. rewrite Hc. apply Hn.
  - intros v. destruct (Hr v) as [n Hn']. exists n.
    eapply Rooted_ext; eauto.
Qed.

Lemma Rooted_functional (s : Store) (v : ViewId) (n m : nat) :
  Rooted s v n -> Rooted s v m -> n = m.
Proof.
  intros H. revert m. induction H as [v H|v q n H _ IH]; intros m Hm;
    inversion Hm; subst; try congruence.
  f_equal. apply IH. congruence.
Qed.

Lemma bounded_nodup_length (l : list nat) (m : nat) :
  NoDup l -> (forall x, x ∈ l -> (x < m)%nat) -> (length l <= m)%nat.
Proof.
  intros Hnd Hlt.
  assert (H : (length l <= length (seq 0%nat m))%nat).
  { apply NoDup_incl_length; [apply NoDup_ListNoDup; exact Hnd|].
    intros x Hx. apply in_seq. apply list_elem_of_In, Hlt in Hx. lia. }
  rewrite List.length_seq in H. exact H.
Qed.

(** The proper ancestors of a view are distinct views of the store, so a
    view has at most as many as the store has views. *)
Lemma depth_bounded (s : Store) (v : ViewId) (n : nat) :
  consistent s -> Rooted s v n -> (n <= length s)%nat.
Proof.
  intros Hwf H.
  assert (Hchain : exists l : list nat,
             length l = n /\ NoDup l
             /\ forall x, x ∈ l ->
                  (x < length s)%nat /\ exists k, (k < n)%nat /\ Rooted s x k).
  { induction H as [v H|v q n H Hq IH].
    - exists []. split; [reflexivity|]. split; [constructor|].
      intros x Hx. inversion Hx.
    - destruct IH as (l & Hlen & Hnd & Hall).
      exists (q :: l). split; [simpl; lia|]. split.
      + apply NoDup_cons. split; [|exact Hnd].
        intros Hin. destruct (Hall q Hin) as (_ & k & Hk & HR).
        pose proof (Rooted_functional _ _ _ _ Hq HR). lia.
      + intros x Hx. apply elem_of_cons in Hx as [->|Hx].
        * split; [|exists n; split; [lia|exact Hq]].
          apply (child_list_in_range s q v).
          apply (consistent_link s Hwf). exact H.
        * destruct (Hall x Hx) as (Hlt & k & Hk & HR).
          split; [exact Hlt|]. exists k. split; [lia|exact HR]. }
  destruct Hchain as (l & Hlen & Hnd & Hall). subst n.
  apply bounded_nodup_length; [exact Hnd|]. intros x Hx. apply (Hall x Hx).
Qed.

Lemma ancestor_or_self_inv (s : Store) (a v : ViewId) :
  ancestor_or_self s a v <->
  v = a \/ exists q, parent s v = Some q /\ ancestor_or_self s a q.
Proof.
  split.
  - intros H. inversion H; subst; eauto.
  - intros [->|(q & Hq & H)]; [constructor|econstructor; eauto].
Qed.

(** With enough steps the loop of Contains decides ancestry. *)
Lemma Contains_from_spec (s : Store) (this : ViewId) (fuel : nat) :
  forall (w : ViewId) (n : nat),
    Rooted s w n -> (n <= fuel)%nat ->
    (Contains_from fuel s this (Some w) = true <-> ancestor_or_self s this w).
Proof.
  induction fuel as [|f IH]; intros w n HR Hle; simpl;
    destruct (decide (w = this)) as [->|Hne];
    try (split; [constructor|reflexivity]).
  - assert (n = 0)%nat as -> by lia. inversion HR; subst.
    split; [discriminate|].
    intros [?|(q & Hq & _)]%ancestor_or_self_inv; congruence.
  - destruct (parent s w) as [q|] eqn:Hp.
    + assert (HRq : exists k, n = S k /\ Rooted s q k).
      { inversion HR; subst; [congruence|].
        eexists; split; [reflexivity|]. congruence. }
      destruct HRq as (k & -> & HRq).
      rewrite (IH q k HRq) by lia.
      rewrite (ancestor_or_self_inv s this w). rewrite Hp. split.
      * intros H. right. eauto.
      * intros [?|(q' & [= <-] & H)]; [contradiction|exact H].
    + destruct f; simpl; (split; [discriminate|]);
        intros [?|(q & Hq & _)]%ancestor_or_self_inv; congruence.
Qed.

Lemma Contains_spec (s : Store) (this w : ViewId) :
  consistent s ->
  (Contains s this (Some w) = true <-> ancestor_or_self s this w).
Proof.
  intros Hwf. destruct (consistent_rooted s Hwf w) as [n HR].
  apply (Contains_from_spec s this (length s) w n HR).
  eapply depth_bounded; eauto.
Qed.

Lemma ancestor_iff_descendant (s : Store) (v w : ViewId) :
  consistent s -> (ancestor_or_self s v w <-> descendant_or_self s v w).
Proof.
  intros Hwf. split; intros H.
  - induction H as [|w q Hp _ IH]; [constructor|].
    apply desc_child with q; [exact IH|].
    apply (consistent_link s Hwf). exact Hp.
  - induction H as [|u w _ IH Hin]; [constructor|].
    apply anc_up with u; [|exact IH].
    apply (consistent_link s Hwf). exact Hin.
Qed.

(** No view is its own parent, nor its own grandparent. *)
Lemma not_own_parent (s : Store) (v : ViewId) :
  consistent s -> parent s v <> Some v.
Proof.
  intros Hwf H. destruct (consistent_rooted s Hwf v) as [n HR].
  assert (HS : Rooted s v (S n)) by (eapply Rooted_step; eauto).
  pose proof (Rooted_functional _ _ _ _ HR HS). lia.
Qed.

(** *** The tree operations keep the store consistent *)

(** Taking [c] from its parent [p]. *)
Lemma consistent_detach (s s' : Store) (p c : ViewId) :
  consistent s -> parent s c = Some p ->
  (forall u, parent s' u = if decide (c = u) then None else parent s u) ->
  (forall u, children s' u
             = if decide (p = u) then filter (fun x => x <> c) (children s p)
               else children s u) ->
  consistent s'.
Proof.
  intros [Hl Hn Hr] Hcp Hp Hc. split.
  - intros q x. rewrite Hp, Hc.
    destruct (decide (p = q)) as [<-|Hpq], (decide (c = x)) as [<-|Hcx].
    + rewrite list_elem_of_filter. split; [intros [? _]; congruence|discriminate].
    + rewrite list_elem_of_filter, Hl. split; [tauto|]. intros H. split; congruence.
    + rewrite Hl. split; [congruence|discriminate].
    + apply Hl.
  - intros q. rewrite Hc. destruct (decide (p = q)); [|apply Hn].
    apply NoDup_filter, Hn.
  - intros v. destruct (Hr v) as [n HR].
    induction HR as [v H|v q n H _ [m IH]].
    + exists 0%nat. apply Rooted_root. rewrite Hp.
      destruct (decide (c = v)); [reflexivity|exact H].
    + destruct (decide (c = v)) as [<-|Hne].
      * exists 0%nat. apply Rooted_root. rewrite Hp.
        destruct (decide (c = c)); [reflexivity|contradiction].
      * exists (S m). apply Rooted_step with q; [|exact IH].
        rewrite Hp. destruct (decide (c = v)); [contradiction|exact H].
Qed.

(** Appending the parentless [c] below [p], which is not under [c]. *)
Lemma consistent_attach (s s' : Store) (p c : ViewId) :
  consistent s -> parent s c = None -> ~ ancestor_or_self s c p ->
  (forall u, parent s' u = if decide (c = u) then Some p else parent s u) ->
  (forall u, children s' u
             = if decide (p = u) then children s p ++ [c] else children s u) ->
  consistent s'.
Proof.
  intros [Hl Hn Hr] Hcp Hnot Hp Hc.
  assert (Hfresh : forall q, c ∉ children s q).
  { intros q Hin. apply Hl in Hin. congruence. }
  split.
  - intros q x. rewrite Hp, Hc.
    destruct (decide (p = q)) as [<-|Hpq], (decide (c = x)) as [<-|Hcx].
    + rewrite elem_of_app, list_elem_of_singleton. tauto.
    + rewrite elem_of_app, list_elem_of_singleton, Hl.
      split; [intros [?|?]; congruence|tauto].
    + split; [intros Hin; exfalso; exact (Hfresh _ Hin)|congruence].
    + apply Hl.
  - intros q. rewrite Hc. destruct (decide (p = q)); [|apply Hn].
    apply NoDup_app. split; [apply Hn|]. split; [|apply NoDup_singleton].
    intros x Hx Hx'. apply list_elem_of_singleton in Hx'. subst x.
    exact (Hfresh _ Hx).
  - (* views that are not under [c] keep their way to the root *)
    assert (Hkeep : forall v n, Rooted s v n -> ~ ancestor_or_self s c v ->
                      Rooted s' v n).
    { intros v n HR. induction HR as [v H|v q n H _ IH]; intros Hv.
      - apply Rooted_root. rewrite Hp.
        destruct (decide (c = v)) as [<-|]; [|exact H].
        exfalso. apply Hv. constructor.
      - apply Rooted_step with q.
        + rewrite Hp. destruct (decide (c = v)) as [<-|]; [|exact H].
          exfalso. apply Hv. constructor.
        + apply IH. intros Hq. apply Hv. econstructor; eauto. }
    destruct (Hr p) as [np HRp]. pose proof (Hkeep p np HRp Hnot) as HRp'.
    intros v. destruct (Hr v) as [n HR].
    induction HR as [v H|v q n H _ [m IH]].
    + destruct (decide (c = v)) as [<-|Hne].
      * exists (S np). apply Rooted_step with p; [|exact HRp'].
        rewrite Hp. destruct (decide (c = c)); [reflexivity|contradiction].
      * exists 0%nat. apply Rooted_root. rewrite Hp.
        destruct (decide (c = v)); [contradiction|exact H].
    + destruct (decide (c = v)) as [<-|Hne]; [congruence|].
      exists (S m). apply Rooted_step with q; [|exact IH].
      rewrite Hp. destruct (decide (c = v)); [contradiction|exact H].
Qed.

(** Rearranging child lists. *)
Lemma consistent_permute (s s' : Store) :
  consistent s ->
  (forall u, parent s' u = parent s u) ->
  (forall u, children s' u ≡ₚ children s u) ->
  consistent s'.
Proof.
  intros [Hl Hn Hr] Hp Hc. split.
  - intros q x. rewrite Hp, <- Hl. rewrite (Hc q). reflexivity.
  - intros q. rewrite (Hc q). apply Hn.
  - intros v. destruct (Hr v) as [n HR]. exists n.
    eapply Rooted_ext; eauto.
Qed.

(** Orphaning every child of [p]. *)
Lemma consistent_orphan_all (s s' : Store) (p : ViewId) :
  consistent s ->
  (forall u, parent s' u
             = if decide (parent s u = Some p) then None else parent s u) ->
  (forall u, children s' u = if decide (p = u) then [] else children s u) ->
  consistent s'.
Proof.
  intros [Hl Hn Hr] Hp Hc. split.
  - intros q x. rewrite Hp, Hc.
    destruct (decide (p = q)) as [<-|Hpq],
             (decide (parent s x = Some p)) as [Hx|Hx].
    + split; [intros H; inversion H|discriminate].
    + split; [intros H; inversion H|contradiction].
    + rewrite Hl. split; [congruence|discriminate].
    + apply Hl.
  - intros q. rewrite Hc. destruct (decide (p = q)); [constructor|apply Hn].
  - intros v. destruct (Hr v) as [n HR].
    induction HR as [v H|v q n H _ [m IH]].
    + exists 0%nat. apply Rooted_root. rewrite Hp, H.
      destruct (decide (None = Some p)); reflexivity.
    + destruct (decide (parent s v = Some p)) as [Hv|Hv].
      * exists 0%nat. apply Rooted_root. rewrite Hp.
        destruct (decide (parent s v = Some p)); [reflexivity|contradiction].
      * exists (S m). apply Rooted_step with q; [|exact IH].
        rewrite Hp.
        destruct (decide (parent s v = Some p)); [contradiction|exact H].
Qed.

Lemma consistent_empty : consistent [].
Proof.
  split.
  - intros p c. unfold children, parent. rewrite !lookup_nil.
    split; [intros H; inversion H|discriminate].
  - intros p. unfold children. rewrite lookup_nil. constructor.
  - intros v. exists 0%nat. apply Rooted_root. unfold parent.
    rewrite lookup_nil. reflexivity.
Qed.

Lemma consistent_alter (f : ViewNode -> ViewNode) (v : ViewId) (s : Store) :
  (forall n, parent_ (f n) = parent_ n) ->
  (forall n, children_ (f n) = children_ n) ->
  consistent s -> consistent (alter f v s).
Proof.
  intros Hp Hc. destruct (tree_after_alter f v s Hp Hc) as [H1 H2].
  apply consistent_ext; assumption.
Qed.

Lemma RemoveChildView_tree (p c : ViewId) (s : Store) :
  parent s c = Some p ->
  (forall u, parent (RemoveChildView p c s) u
             = if decide (c = u) then None else parent s u)
  /\ (forall u, children (RemoveChildView p c s) u
                = if decide (p = u)
                  then filter (fun x => x <> c) (children s p)
                  else children s u)
  /\ length (RemoveChildView p c s) = length s.
Proof.
  intros Hcp. unfold RemoveChildView.
  destruct (decide (parent s c = Some p)); [|contradiction].
  split; [|split].
  - intros u. rewrite parent_set_parent, parent_set_children.
    destruct (decide (c = u)); [|reflexivity].
    destruct (decide _); reflexivity.
  - intros u. rewrite children_set_parent, children_set_children.
    destruct (decide (p = u)) as [<-|]; [|reflexivity].
    destruct (decide (p < length s)%nat); [reflexivity|].
    rewrite children_out_of_range by lia. reflexivity.
  - rewrite length_set_parent, length_set_children. reflexivity.
Qed.

Lemma consistent_RemoveChildView (p c : ViewId) (s : Store) :
  consistent s -> consistent (RemoveChildView p c s).
Proof.
  intros Hwf. destruct (decide (parent s c = Some p)) as [Hcp|Hcp].
  - destruct (RemoveChildView_tree p c s Hcp) as (Hp & Hc & _).
    eapply consistent_detach; eauto.
  - unfold RemoveChildView.
    destruct (decide (parent s c = Some p)); [contradiction|exact Hwf].
Qed.

Lemma ancestor_or_self_mono (s s' : Store) (a v : ViewId) :
  (forall u q, parent s' u = Some q -> parent s u = Some q) ->
  ancestor_or_self s' a v -> ancestor_or_self s a v.
Proof.
  intros Hsub H. induction H as [|v q Hp _ IH]; [constructor|].
  econstructor; eauto.
Qed.

Lemma consistent_AddChildView (p c : ViewId) (s : Store) :
  consistent s -> (p < length s)%nat -> (c < length s)%nat ->
  Contains s c (Some p) = false ->
  consistent (AddChildView p c s).
Proof.
  intros Hwf Hpl Hcl Hnot.
  assert (Hanc : ~ ancestor_or_self s c p).
  { intros H. apply (Contains_spec s c p Hwf) in H. congruence. }
  unfold AddChildView.
  set (s1 := match parent s c with
             | Some q => RemoveChildView q c s
             | None => s
             end).
  assert (H1 : consistent s1 /\ parent s1 c = None /\ length s1 = length s
               /\ forall u q, parent s1 u = Some q -> parent s u = Some q).
  { subst s1. destruct (parent s c) as [q|] eqn:Hq.
    - destruct (RemoveChildView_tree q c s Hq) as (Hp & Hc & Hlen).
      split; [apply consistent_RemoveChildView; exact Hwf|].
      split; [rewrite Hp; destruct (decide (c = c)); [reflexivity|contradiction]|].
      split; [exact Hlen|].
      intros u q'. rewrite Hp. destruct (decide (c = u)); [discriminate|auto].
    - auto. }
  destruct H1 as (Hwf1 & Hc1 & Hlen1 & Hsub).
  apply (consistent_attach s1 _ p c Hwf1 Hc1).
  - intros H. apply Hanc. eapply ancestor_or_self_mono; eauto.
  - intros u. rewrite parent_set_parent, parent_set_children.
    rewrite length_set_children, Hlen1.
    destruct (decide (c = u)); [|reflexivity].
    destruct (decide (c < length s)%nat); [reflexivity|contradiction].
  - intros u. rewrite children_set_parent, children_set_children, Hlen1.
    destruct (decide (p = u)); [|reflexivity].
    destruct (decide (p < length s)%nat); [reflexivity|contradiction].
Qed.

Lemma move_child_permutation (c : ViewId) (l : list ViewId) (i : nat) :
  NoDup l -> c ∈ l ->
  let rest := filter (fun x => x <> c) l in
  take i rest ++ c :: drop i rest ≡ₚ l.
Proof.
  intros Hnd Hin rest.
  rewrite <- Permutation_middle, take_drop.
  apply NoDup_Permutation; [|exact Hnd|].
  - apply NoDup_cons. split; [|apply NoDup_filter, Hnd].
    subst rest. rewrite list_elem_of_filter. tauto.
  - intros x. subst rest. rewrite elem_of_cons, list_elem_of_filter.
    destruct (decide (x = c)) as [->|]; tauto.
Qed.

Lemma consistent_ReorderChildView (p c : ViewId) (index : Z) (s : Store) :
  consistent s -> consistent (ReorderChildView p c index s).
Proof.
  intros Hwf. unfold ReorderChildView.
  destruct (decide (parent s c = Some p)) as [Hcp|]; [|exact Hwf].
  destruct (child_count s p <=? _); [exact Hwf|].
  assert (Hin : c ∈ children s p) by (apply (consistent_link s Hwf); exact Hcp).
  apply (consistent_permute s); [exact Hwf| |].
  - intros u. apply parent_set_children.
  - intros u. rewrite children_set_children.
    destruct (decide (p = u)) as [<-|]; [|reflexivity].
    destruct (decide (p < length s)%nat) as [|Hge].
    + apply move_child_permutation; [apply (consistent_nodup s Hwf)|exact Hin].
    + exfalso. apply Hge. eapply child_list_in_range; eauto.
Qed.

Lemma orphan_all_tree (l : list ViewId) (s : Store) :
  (forall u, parent (foldr (fun c acc => set_parent c None acc) s l) u
             = if decide (u ∈ l) then None else parent s u)
  /\ (forall u, children (foldr (fun c acc => set_parent c None acc) s l) u
                = children s u)
  /\ length (foldr (fun c acc => set_parent c None acc) s l) = length s.
Proof.
  induction l as [|c l (IHp & IHc & IHl)]; simpl.
  - split; [|split; reflexivity]. intros u.
    destruct (decide (u ∈ [])) as [H|]; [inversion H|reflexivity].
  - split; [|split].
    + intros u. rewrite parent_set_parent, IHp.
      destruct (decide (c = u)) as [->|Hne].
      * destruct (decide (u ∈ u :: l)) as [|Hn];
          [|exfalso; apply Hn; apply list_elem_of_here].
        destruct (decide _); reflexivity.
      * destruct (decide (u ∈ l)) as [Hin|Hin],
                 (decide (u ∈ c :: l)) as [Hin'|Hin']; try reflexivity.
        -- exfalso. apply Hin'. apply list_elem_of_further. exact Hin.
        -- apply elem_of_cons in Hin' as [->|]; [contradiction|].
           contradiction.
    + intros u. rewrite children_set_parent. apply IHc.
    + rewrite length_set_parent. exact IHl.
Qed.

Lemma consistent_RemoveAllChildViews (p : ViewId) (s : Store) :
  consistent s -> consistent (RemoveAllChildViews p s).
Proof.
  intros Hwf. unfold RemoveAllChildViews.
  destruct (orphan_all_tree (children s p) s) as (Hp & Hc & Hlen).
  apply (consistent_orphan_all s _ p Hwf).
  - intros u. rewrite parent_set_children, Hp.
    destruct (decide (u ∈ children s p)) as [Hin|Hin],
             (decide (parent s u = Some p)) as [Hu|Hu]; try reflexivity.
    + exfalso. apply Hu. apply (consistent_link s Hwf). exact Hin.
    + exfalso. apply Hin. apply (consistent_link s Hwf). exact Hu.
  - intros u. rewrite children_set_children, Hc.
    destruct (decide (p = u)); [|reflexivity].
    destruct (decide _); reflexivity.
Qed.

Lemma consistent_SetBoundsRect (v : ViewId) (r : Rect) (s : Store) :
  consistent s -> consistent (SetBoundsRect v r s).
Proof.
  intros Hwf. unfold SetBoundsRect.
  destruct (decide (r = bounds s v)); [exact Hwf|].
  unfold OnBoundsChanged.
  assert (H1 : consistent (set_bounds v r s))
    by (apply consistent_alter; auto).
  destruct (class_of (set_bounds v r s) v); try exact H1.
  apply consistent_alter; auto.
Qed.

Lemma consistent_Reset (v : ViewId) (s : Store) :
  consistent s -> consistent (Reset v s).
Proof.
  intros Hwf. unfold Reset. destruct (class_of s v); try exact Hwf.
  apply consistent_alter; auto.
Qed.

(** Every store a program builds is consistent. *)
Lemma built_consistent (s : Store) : built s -> consistent s.
Proof.
  induction 1 as [|cls s _ IH|p c s _ IH Hp Hc Hnot|p c s _ IH|p c i s _ IH
                  |p s _ IH|v r s _ IH|v s _ IH|v b s _ IH|v sx sy s _ IH].
  - apply consistent_empty.
  - destruct (tree_after_new_view cls s) as [H1 H2].
    eapply consistent_ext; eauto.
  - apply consistent_AddChildView; assumption.
  - apply consistent_RemoveChildView; assumption.
  - apply consistent_ReorderChildView; assumption.
  - apply consistent_RemoveAllChildViews; assumption.
  - apply consistent_SetBoundsRect; assumption.
  - apply consistent_Reset; assumption.
  - apply consistent_alter; auto.
  - apply consistent_alter; auto.
Qed.

(** *** GetIndexOf and Contains *)

Lemma index_of_lookup (c : ViewId) (l : list ViewId) (i : nat) :
  index_of c l = Some i -> l !! i = Some c.
Proof.
  revert i. induction l as [|x l IH]; intros i; simpl; [discriminate|].
  destruct (decide (x = c)) as [->|Hne].
  - intros [= <-]. reflexivity.
  - destruct (index_of c l) as [j|]; [|discriminate].
    intros [= <-]. simpl. apply IH. reflexivity.
Qed.

Lemma index_of_None (c : ViewId) (l : list ViewId) :
  index_of c l = None <-> c ∉ l.
Proof.
  induction l as [|x l IH]; simpl.
  - split; [intros _ H; inversion H|reflexivity].
  - rewrite elem_of_cons. destruct (decide (x = c)) as [->|Hne].
    + split; [discriminate|]. intros H. exfalso. apply H. left. reflexivity.
    + destruct (index_of c l) as [j|].
      * split; [discriminate|]. intros H. exfalso.
        destruct IH as [_ IH']. 
        assert (Hn : c ∉ l) by (intros Hin; apply H; right; exact Hin).
        specialize (IH' Hn). discriminate.
      * split; [|reflexivity]. intros _ [->|Hin]; [contradiction|].
        destruct IH as [IH' _]. exact (IH' eq_refl Hin).
Qed.

Lemma index_of_NoDup (c : ViewId) (l : list ViewId) (i : nat) :
  NoDup l -> l !! i = Some c -> index_of c l = Some i.
Proof.
  intros Hnd Hi.
  destruct (index_of c l) as [j|] eqn:Hj.
  - apply index_of_lookup in Hj. f_equal.
    eapply NoDup_lookup; eauto.
  - apply index_of_None in Hj. exfalso. apply Hj.
    eapply list_elem_of_lookup_2; eauto.
Qed.

(** C6. In every store a program builds with the tree operations, child lists
    and parent pointers agree, and so: GetIndexOf gives position [i] exactly
    for the direct child at position [i]; it gives -1 exactly for what is
    not a direct child, in particular for NULL, for the view itself and for
    a grandchild; Contains holds exactly for the view itself and the views
    below it, and not for NULL. *)
Theorem parent_child_consistency (s : Store) (v : ViewId) :
  built s ->
  consistent s
  /\ (forall c i, GetIndexOf s v (Some c) = Z.of_nat i
                  <-> children s v !! i = Some c)
  /\ (forall c, GetIndexOf s v (Some c) = -1 <-> c ∉ children s v)
  /\ GetIndexOf s v None = -1
  /\ GetIndexOf s v (Some v) = -1
  /\ (forall c g, c ∈ children s v -> g ∈ children s c ->
                  GetIndexOf s v (Some g) = -1)
  /\ Contains s v None = false
  /\ (forall w, Contains s v (Some w) = true <-> descendant_or_self s v w).
Proof.
  intros Hb. pose proof (built_consistent s Hb) as Hwf.
  assert (Hminus : forall c, GetIndexOf s v (Some c) = -1 <-> c ∉ children s v).
  { intros c. unfold GetIndexOf. rewrite <- index_of_None.
    destruct (index_of c (children s v)); split; try reflexivity;
      try discriminate; lia. }
  split; [exact Hwf|]. split; [|split; [exact Hminus|]].
  - intros c i. unfold GetIndexOf. split.
    + destruct (index_of c (children s v)) as [j|] eqn:Hj; [|lia].
      intros H. apply Nat2Z.inj in H. subst j. apply index_of_lookup, Hj.
    + intros Hi.
      rewrite (index_of_NoDup c _ i (consistent_nodup s Hwf v) Hi).
      reflexivity.
  - split; [reflexivity|]. split; [|split; [|split; [destruct s; reflexivity|]]].
    + apply Hminus. intros Hin. apply (consistent_link s Hwf) in Hin.
      exact (not_own_parent s v Hwf Hin).
    + intros c g Hc Hg. apply Hminus. intros Hin.
      apply (consistent_link s Hwf) in Hin, Hg.
      assert (c = v) by congruence. subst c.
      apply (consistent_link s Hwf) in Hc.
      exact (not_own_parent s v Hwf Hc).
    + intros w. rewrite (Contains_spec s v w Hwf).
      apply ancestor_iff_descendant, Hwf.
Qed.

(** Builds a hierarchy of the tests step by step. *)
Ltac build_store :=
  repeat first
    [ apply built_empty
    | apply built_new
    | apply built_add;
      [|vm_compute; lia|vm_compute; lia|vm_compute; reflexivity]
    | apply built_bounds
    | apply built_reset
    | apply built_transform
    | apply built_visible ].

(** The hierarchy of ViewTest.GetIndexOf is one a program builds, and the
    root there has the stated properties. *)
Lemma parent_child_consistency_witness :
  built GetIndexOf_tree
  /\ (consistent GetIndexOf_tree
      /\ (forall c i, GetIndexOf GetIndexOf_tree 0 (Some c) = Z.of_nat i
                      <-> children GetIndexOf_tree 0 !! i = Some c)
      /\ (forall c, GetIndexOf GetIndexOf_tree 0 (Some c) = -1
                    <-> c ∉ children GetIndexOf_tree 0)
      /\ GetIndexOf GetIndexOf_tree 0 None = -1
      /\ GetIndexOf GetIndexOf_tree 0 (Some 0%nat) = -1
      /\ (forall c g, c ∈ children GetIndexOf_tree 0 ->
                      g ∈ children GetIndexOf_tree c ->
                      GetIndexOf GetIndexOf_tree 0 (Some g) = -1)
      /\ Contains GetIndexOf_tree 0 None = false
      /\ (forall w, Contains GetIndexOf_tree 0 (Some w) = true
                    <-> descendant_or_self GetIndexOf_tree 0 w)).
Proof.
  assert (Hb : built GetIndexOf_tree) by (unfold GetIndexOf_tree; build_store).
  split; [exact Hb|].
  exact (parent_child_consistency GetIndexOf_tree 0 Hb).
Defined.

(** The expectations of ViewTest.GetIndexOf. *)
Example GetIndexOf_test :
  let s := GetIndexOf_tree in
  let root := 0%nat in let child1 := 1%nat in
  let child2 := 2%nat in let foo1 := 3%nat in
  map (GetIndexOf s root) [None; Some root; Some child1; Some child2; Some foo1]
    = [-1; -1; 0; 1; -1]
  /\ map (GetIndexOf s child1)
        [None; Some root; Some child1; Some child2; Some foo1]
      = [-1; -1; -1; -1; 0]
  /\ map (GetIndexOf s child2)
        [None; Some root; Some child2; Some child1; Some foo1]
      = [-1; -1; -1; -1; -1].
Proof. vm_compute. auto. Qed.

(** The expectations of ViewTest.Contains. *)
Example Contains_test :
  let s := Contains_tree in
  let v1 := 0%nat in let v2 := 1%nat in let v3 := 2%nat in
  map (Contains s v1) [None; Some v1; Some v2; Some v3]
    = [false; true; true; true]
  /\ map (Contains s v2) [None; Some v2; Some v1; Some v3]
      = [false; true; false; true]
  /\ map (Contains s v3) [None; Some v3; Some v1; Some v2]
      = [false; true; false; false].
Proof. vm_compute. auto. Qed.

(** The index expectations of ViewTest.ReorderChildren. *)
Example ReorderChildren_test :
  let child := 1%nat in
  let foo1 := 2%nat in let foo2 := 3%nat in let foo3 := 4%nat in
  let s0 := ReorderChildren_tree in
  let s1 := ReorderChildView child foo2 (-1) s0 in
  let s2 := ReorderChildView child foo1 (-1) s1 in
  let s3 := ReorderChildView child foo2 0 s2 in
  map (GetIndexOf s0 child) [Some foo1; Some foo2; Some foo3] = [0; 1; 2]
  /\ map (GetIndexOf s1 child) [Some foo1; Some foo3; Some foo2] = [0; 1; 2]
  /\ map (GetIndexOf s2 child) [Some foo3; Some foo2; Some foo1] = [0; 1; 2]
  /\ map (GetIndexOf s3 child) [Some foo2; Some foo3; Some foo1] = [0; 1; 2].
Proof. vm_compute. auto. Qed.

(** *** Bounds *)

Lemma bounds_set_bounds (v : ViewId) (r : Rect) (s : Store) :
  (v < length s)%nat -> bounds (set_bounds v r s) v = r.
Proof.
  intros Hlt. unfold bounds, set_bounds. rewrite list_lookup_alter_eq.
  apply lookup_lt_is_Some in Hlt as [n ->]. reflexivity.
Qed.

Lemma bounds_set_class (v : ViewId) (c : ViewClass) (s : Store) (u : ViewId) :
  bounds (set_class v c s) u = bounds s u.
Proof.
  unfold bounds, set_class. rewrite list_lookup_alter.
  destruct (decide (v = u)) as [->|]; [|reflexivity].
  destruct (s !! u); reflexivity.
Qed.

Lemma class_of_set_class (v : ViewId) (c : ViewClass) (s : Store) :
  (v < length s)%nat -> class_of (set_class v c s) v = c.
Proof.
  intros Hlt. unfold class_of, set_class. rewrite list_lookup_alter_eq.
  apply lookup_lt_is_Some in Hlt as [n ->]. reflexivity.
Qed.

Lemma class_of_set_bounds (v : ViewId) (r : Rect) (s : Store) (u : ViewId) :
  class_of (set_bounds v r s) u = class_of s u.
Proof.
  unfold class_of, set_bounds. rewrite list_lookup_alter.
  destruct (decide (v = u)) as [->|]; [|reflexivity].
  destruct (s !! u); reflexivity.
Qed.

(** Setting the bounds a view already has notifies nobody. *)
Lemma SetBoundsRect_same_bounds (s : Store) (v : ViewId)
  (log : list BoundsChange) :
  SetBoundsRect_with logged_OnBoundsChanged v (bounds s v) s log = (s, log)
  /\ SetBoundsRect v (bounds s v) s = s.
Proof.
  unfold SetBoundsRect_with, SetBoundsRect.
  split; destruct (decide (bounds s v = bounds s v)); congruence.
Qed.

(** C7. SetBoundsRect with a rectangle other than the current bounds stores
    it and then runs the OnBoundsChanged notification exactly once: the call
    is given the previous bounds as its argument and is made on a view whose
    bounds are already the new ones, whatever the override is.  With the
    overrides of view_unittest.cc the bounds are the new ones afterwards as
    well, and a TestView has recorded that its bounds changed, and the new
    bounds. *)
Theorem SetBoundsRect_notifies (s : Store) (v : ViewId) (new_rect : Rect)
  (log : list BoundsChange) :
  (v < length s)%nat ->
  new_rect <> bounds s v ->
  let run := SetBoundsRect_with logged_OnBoundsChanged v new_rect s log in
  snd run = log ++ [mkBoundsChange v (bounds s v) new_rect]
  /\ fst run = SetBoundsRect v new_rect s
  /\ bounds (fst run) v = new_rect
  /\ (forall d nb, class_of s v = TestView d nb ->
        class_of (fst run) v = TestView true new_rect)
  /\ (forall (L : Type) (f : ViewId -> Rect -> Store -> L -> Store * L)
             (l : L),
        exists s1,
          SetBoundsRect_with f v new_rect s l = f v (bounds s v) s1 l
          /\ bounds s1 v = new_rect
          /\ (forall u, u <> v -> bounds s1 u = bounds s u)).
Proof.
  intros Hlt Hne run.
  assert (Hnew : bounds (set_bounds v new_rect s) v = new_rect)
    by (apply bounds_set_bounds; exact Hlt).
  assert (Hrun : run = logged_OnBoundsChanged v (bounds s v)
                         (set_bounds v new_rect s) log).
  { subst run. unfold SetBoundsRect_with.
    destruct (decide (new_rect = bounds s v)); [contradiction|reflexivity]. }
  assert (Hplain : SetBoundsRect v new_rect s
                   = OnBoundsChanged v (bounds s v) (set_bounds v new_rect s)).
  { unfold SetBoundsRect.
    destruct (decide (new_rect = bounds s v)); [contradiction|reflexivity]. }
  rewrite Hrun. unfold logged_OnBoundsChanged. cbn [fst snd].
  split; [rewrite Hnew; reflexivity|].
  split; [symmetry; exact Hplain|].
  split; [|split].
  - unfold OnBoundsChanged.
    destruct (class_of (set_bounds v new_rect s) v); try exact Hnew.
    rewrite bounds_set_class. exact Hnew.
  - intros d nb Hcls. unfold OnBoundsChanged.
    rewrite class_of_set_bounds, Hcls, Hnew.
    apply class_of_set_class. unfold set_bounds. rewrite length_alter.
    exact Hlt.
  - intros L f l. exists (set_bounds v new_rect s).
    split; [|split; [exact Hnew|]].
    + unfold SetBoundsRect_with.
      destruct (decide (new_rect = bounds s v)); [contradiction|reflexivity].
    + intros u Hu. unfold bounds, set_bounds.
      rewrite list_lookup_alter_ne by (intros E; apply Hu; symmetry; exact E).
      reflexivity.
Qed.

(** ViewTest.OnBoundsChanged: from (0, 0, 200, 200) to (100, 100, 250, 250). *)
Lemma SetBoundsRect_notifies_witness :
  let s := OnBoundsChanged_view in
  let new_rect := mkRect 100 100 250 250 in
  let run := SetBoundsRect_with logged_OnBoundsChanged 0 new_rect s [] in
  class_of s 0 = TestView false (mkRect 0 0 200 200)
  /\ snd run = [mkBoundsChange 0 (mkRect 0 0 200 200) new_rect]
  /\ bounds (fst run) 0 = new_rect
  /\ class_of (fst run) 0 = TestView true new_rect.
Proof.
  cbv zeta.
  assert (Hlt : (0 < length OnBoundsChanged_view)%nat) by (vm_compute; lia).
  assert (Hne : mkRect 100 100 250 250 <> bounds OnBoundsChanged_view 0)
    by (vm_compute; discriminate).
  destruct (SetBoundsRect_notifies OnBoundsChanged_view 0
              (mkRect 100 100 250 250) [] Hlt Hne) as (Hlog & _ & Hb & Hc & _).
  split; [reflexivity|]. split; [exact Hlog|]. split; [exact Hb|].
  exact (Hc false (mkRect 0 0 200 200) eq_refl).
Defined.

(** *** Hit testing *)







(** The expectations of ViewTest.HitTestMasks. *)
Example HitTestMasks_test :
  let s := HitTestMasks_tree in
  let root_view := 0%nat in let v1 := 1%nat in let v2 := 2%nat in
  let v1_centerpoint := Rect_CenterPoint (mkRect 0 0 100 100) in
  let v2_centerpoint := Rect_CenterPoint (mkRect 105 0 100 100) in
  let v1_origin := Rect_origin (mkRect 0 0 100 100) in
  let v2_origin := Rect_origin (mkRect 105 0 100 100) in
  HitTest s v1 (ConvertPointToView s root_view v1 v1_centerpoint) = true
  /\ HitTest s v2 (ConvertPointToView s root_view v2 v2_centerpoint) = true
  /\ HitTest s v1 (ConvertPointToView s root_view v1 v1_origin) = true
  /\ HitTest s v2 (ConvertPointToView s root_view v2 v2_origin) = false
  /\ GetEventHandlerForPoint (length s) s root_view v1_centerpoint = v1
  /\ GetEventHandlerForPoint (length s) s root_view v2_centerpoint = v2
  /\ GetEventHandlerForPoint (length s) s root_view v1_origin = v1
  /\ GetEventHandlerForPoint (length s) s root_view v2_origin = root_view.
Proof. vm_compute. auto 10. Qed.

End ViewsProps.

(** ** Located events *)

Module EventsProps.
Import Events.







(** The expectations of ViewTest.ConvertPointToViewWithTransform. *)
Example ConvertPointToViewWithTransform_test :
  let s := Views.transformed_tree in
  let top_view := 0%nat in let child := 1%nat in let child_child := 2%nat in
  Views.ConvertPointToView s child top_view (mkPoint 5 5) = mkPoint 22 39
  /\ Views.ConvertPointToView s top_view child (mkPoint 22 39) = mkPoint 5 5
  /\ Views.ConvertPointToView s child_child top_view (mkPoint 5 5)
     = mkPoint 133 211
  /\ Views.ConvertPointToView s top_view child_child (mkPoint 133 211)
     = mkPoint 5 5
  /\ Views.ConvertPointToView s child_child child (mkPoint 5 5) = mkPoint 42 48
  /\ Views.ConvertPointToView s child child_child (mkPoint 42 48) = mkPoint 5 5
  /\ Views.ConvertPointToView s top_view child (mkPoint 6 18)
     = mkPoint (-1) (-1).
Proof. vm_compute. auto 10. Qed.

(** A mouse event at (5, 5) of child_child, rebuilt for top_view. *)
Example MouseEvent_convert_in_transformed_tree :
  let s := Views.transformed_tree in
  let e := mkMouseEvent (LocatedEvent_new 1 (mkPoint 5 5) 16) in
  mouse_base (MouseEvent_convert nat (Views.ConvertPointToView s) e 2%nat 0%nat)
  = LocatedEvent_new 1 (mkPoint 133 211) 16.
Proof. vm_compute. reflexivity. Qed.

End EventsProps.

(** ** The ICU common-data entry point *)

Module ICUProps.
Import ICU.

(** The patch touches three files, and the header only gains lines. *)
Lemma patch_shape :
  map (fun f => (path f, lines_removed f, lines_added f)) patch
  = [ ("source/common/udata.cpp"%string, 3%nat, 3%nat);
      ("source/common/ucmndata.h"%string, 0%nat, 14%nat);
      ("source/stubdata/stubdata.c"%string, 31%nat, 20%nat) ].
Proof. reflexivity. Qed.

(** Every hunk header agrees with the lines counted under it. *)
Lemma patch_hunks_balance :
  Forall (fun f => Forall (fun h =>
            (old_length h + added h = new_length h + removed h)%nat)
            (hunks f)) patch.
Proof. repeat constructor. Qed.

(** C1, as stated: the change is not one renamed line in one header. *)
Lemma patch_is_not_one_line_in_one_header :
  ~ one_line_renaming_in_one_header patch.
Proof. intros (f & H & _). discriminate H. Qed.

(** C1, amended.  The patch changes three files: three lines of udata.cpp are
    replaced, ucmndata.h gains the fourteen lines of ICU_Data_Header, and the
    initializer in stubdata.c is re-bracketed.  The entry point holds the
    same values before and after, in the same order: header size 32, magic
    bytes 0xda and 0x27, format "ToCP", format version {1, 0, 0, 0}; and the
    DataHeader that udata.cpp reads at the address of the entry point before
    the patch is the [hdr] member it takes the address of after it, [hdr]
    being the leading member. *)
Theorem entry_point_unchanged_by_patch
  (sizeof_UDataInfo : Z) (U_IS_BIG_ENDIAN : bool)
  (U_CHARSET_FAMILY sizeof_UChar reserved_init : Z)
  (fakeNameAndData_init : list Z) :
  let before :=
    U_ICUDATA_ENTRY_POINT_before sizeof_UDataInfo U_IS_BIG_ENDIAN
      U_CHARSET_FAMILY sizeof_UChar reserved_init fakeNameAndData_init in
  let after :=
    U_ICUDATA_ENTRY_POINT_after sizeof_UDataInfo U_IS_BIG_ENDIAN
      U_CHARSET_FAMILY sizeof_UChar reserved_init fakeNameAndData_init in
  map (fun f => (path f, lines_removed f, lines_added f)) patch
    = [ ("source/common/udata.cpp"%string, 3%nat, 3%nat);
        ("source/common/ucmndata.h"%string, 0%nat, 14%nat);
        ("source/stubdata/stubdata.c"%string, 31%nat, 20%nat) ]
  /\ as_DataHeader before = hdr_of after
  /\ scalars_before before = scalars_after after
  /\ take (length (scalars_of_DataHeader (hdr_of after))) (scalars_after after)
     = scalars_of_DataHeader (hdr_of after)
  /\ (Before.headerSize before, Before.magic1 before, Before.magic2 before)
     = (32, 0xda, 0x27)
  /\ (headerSize (dataHeader (hdr_of after)), magic1 (dataHeader (hdr_of after)),
      magic2 (dataHeader (hdr_of after))) = (32, 0xda, 0x27)
  /\ format_name (info_dataFormat (info (hdr_of after))) = "ToCP"%string
  /\ info_formatVersion (info (hdr_of after)) = [1; 0; 0; 0]
  /\ Before.info before = info (hdr_of after).
Proof.
  cbv zeta. split; [exact patch_shape|].
  split; [reflexivity|]. split; [reflexivity|].
  split; [|repeat split].
  unfold scalars_after. apply take_app_length.
Qed.

End ICUProps.

(** ** Layer holes *)

Module LayersProps.
Import Layers.

Section Hole.
Variable ch : Chooser.

Lemma RecomputeHole_none (cs : list Layer) :
  (forall l, l ∈ cs -> cuts_hole l = false) ->
  RecomputeHole ch cs = Rect_empty.
Proof.
  intros Hnone. unfold RecomputeHole.
  destruct (choose ch _) as [l|] eqn:E; [|reflexivity].
  apply choose_member, list_elem_of_filter in E as [Hcut Hin].
  rewrite (Hnone l Hin) in Hcut. discriminate.
Qed.

Lemma RecomputeHole_some (cs : list Layer) :
  (exists l, l ∈ cs /\ cuts_hole l = true) ->
  exists l, l ∈ cs /\ cuts_hole l = true
            /\ RecomputeHole ch cs = layer_bounds l.
Proof.
  intros (l0 & Hin0 & Hcut0). unfold RecomputeHole.
  destruct (choose ch _) as [l|] eqn:E.
  - pose proof E as E'.
    apply choose_member, list_elem_of_filter in E' as [Hcut Hin]. eauto.
  - exfalso.
    assert (Hne : filter (fun l => cuts_hole l = true) cs <> []).
    { intros Hnil.
      assert (Hin : l0 ∈ filter (fun l => cuts_hole l = true) cs)
        by (apply list_elem_of_filter; auto).
      rewrite Hnil in Hin. inversion Hin. }
    destruct (choose_nonempty ch _ Hne) as [l Hl]. congruence.
Qed.

Lemma RecomputeHole_only (cs : list Layer) (l : Layer) :
  filter (fun l => cuts_hole l = true) cs = [l] ->
  RecomputeHole ch cs = layer_bounds l.
Proof.
  intros Hf. unfold RecomputeHole. rewrite Hf.
  destruct (choose_nonempty ch [l]) as [x Hx]; [discriminate|].
  rewrite Hx. apply choose_member, list_elem_of_singleton in Hx. congruence.
Qed.

Lemma no_candidates (cs : list Layer) :
  (forall l, l ∈ cs -> cuts_hole l = false) ->
  filter (fun l => cuts_hole l = true) cs = [].
Proof.
  induction cs as [|x cs IH]; intros Hnone; [reflexivity|].
  rewrite filter_cons, (Hnone x) by apply list_elem_of_here.
  destruct (decide (false = true)); [discriminate|].
  apply IH. intros l Hl. apply Hnone, list_elem_of_further, Hl.
Qed.

(** With [l] at position [i] the only child that may cut a hole, the
    candidates after a change of [l] are the changed [l] or none. *)
Lemma candidates_after_alter (f : Layer -> Layer) (cs : list Layer) :
  forall (i : nat) (l : Layer),
    cs !! i = Some l ->
    (forall j l', j <> i -> cs !! j = Some l' -> cuts_hole l' = false) ->
    filter (fun l => cuts_hole l = true) (alter f i cs)
    = if cuts_hole (f l) then [f l] else [].
Proof.
  induction cs as [|x cs IH]; intros i l Hi Hothers; [discriminate|].
  destruct i as [|i]; simpl in Hi.
  - injection Hi as ->. simpl.
    assert (Hrest : filter (fun l => cuts_hole l = true) cs = []).
    { apply no_candidates. intros l' Hin.
      apply list_elem_of_lookup in Hin as [j Hj].
      apply (Hothers (S j) l'); [discriminate|exact Hj]. }
    rewrite filter_cons, Hrest.
    destruct (cuts_hole (f l)); destruct (decide _); congruence.
  - simpl. rewrite filter_cons.
    rewrite (Hothers 0%nat x) by (reflexivity || discriminate).
    destruct (decide (false = true)); [discriminate|].
    apply (IH i l Hi). intros j l' Hj Hl'.
    apply (Hothers (S j) l'); [lia|exact Hl'].
Qed.

Lemma reachable_hole (p : ParentLayer) :
  reachable ch p -> hole_rect p = RecomputeHole ch (child_layers p).
Proof. intros H. destruct H; reflexivity. Qed.

(** C3. The hole of a layer is recomputed from its children whenever they
    change: it is empty when no child is visible and opaque, and otherwise it
    is the bounds of a visible opaque child.  Where one child alone can cut a
    hole: making it opaque gives its bounds, making it non-opaque or hiding
    it gives the empty rectangle, and showing it again gives its bounds
    back. *)
Theorem hole_rect_follows_opaque_children (p : ParentLayer) :
  reachable ch p ->
  hole_rect p = RecomputeHole ch (child_layers p)
  /\ ((forall l, l ∈ child_layers p -> cuts_hole l = false) ->
      hole_rect p = Rect_empty)
  /\ ((exists l, l ∈ child_layers p /\ cuts_hole l = true) ->
      exists l, l ∈ child_layers p /\ layer_visible l = true
                /\ fills_bounds_opaquely l = true
                /\ hole_rect p = layer_bounds l)
  /\ (forall (i : nat) (l : Layer),
        child_layers p !! i = Some l ->
        (forall j l', j <> i -> child_layers p !! j = Some l' ->
                      cuts_hole l' = false) ->
        (layer_visible l = true ->
           hole_rect (SetFillsBoundsOpaquely ch i true p) = layer_bounds l)
        /\ hole_rect (SetFillsBoundsOpaquely ch i false p) = Rect_empty
        /\ hole_rect (SetVisible ch i false p) = Rect_empty
        /\ (fills_bounds_opaquely l = true ->
              hole_rect (SetVisible ch i true (SetVisible ch i false p))
              = layer_bounds l)).
Proof.
  intros Hr. pose proof (reachable_hole p Hr) as Hhole.
  split; [exact Hhole|]. split; [|split].
  - intros Hnone. rewrite Hhole. apply RecomputeHole_none, Hnone.
  - intros Hsome. rewrite Hhole.
    destruct (RecomputeHole_some _ Hsome) as (l & Hin & Hcut & Heq).
    apply andb_true_iff in Hcut as [Ho Hv]. eauto 10.
  - intros i l Hi Hothers.
    assert (Hempty : forall f, cuts_hole (f l) = false ->
              RecomputeHole ch (alter f i (child_layers p)) = Rect_empty).
    { intros f Hf. apply RecomputeHole_none. intros x Hx.
      destruct (cuts_hole x) eqn:Hcx; [|reflexivity].
      assert (Hin : x ∈ filter (fun l => cuts_hole l = true)
                        (alter f i (child_layers p)))
        by (apply list_elem_of_filter; auto).
      rewrite (candidates_after_alter f _ i l Hi Hothers), Hf in Hin.
      inversion Hin. }
    split; [|split; [|split]].
    + intros Hv. unfold SetFillsBoundsOpaquely, with_children. simpl.
      rewrite (RecomputeHole_only _
                 (mkLayer (layer_bounds l) true (layer_visible l)));
        [reflexivity|].
      rewrite (candidates_after_alter _ _ i l Hi Hothers).
      unfold cuts_hole. simpl. rewrite Hv. reflexivity.
    + unfold SetFillsBoundsOpaquely, with_children. simpl.
      apply Hempty. reflexivity.
    + unfold SetVisible, with_children. simpl.
      apply Hempty. unfold cuts_hole. simpl. apply andb_false_r.
    + intros Ho. unfold SetVisible, with_children. simpl.
      rewrite list_alter_alter_eq.
      rewrite (RecomputeHole_only _
                 (mkLayer (layer_bounds l) (fills_bounds_opaquely l) true));
        [reflexivity|].
      rewrite (candidates_after_alter _ _ i l Hi Hothers).
      unfold cuts_hole. simpl. rewrite Ho. reflexivity.
Qed.

End Hole.

(** ViewLayerTest.ToggleOpacityWithLayer and
    ViewLayerTest.ToggleVisibilityWithOpaqueLayer, whichever candidate rule
    is used. *)
Lemma hole_rect_follows_opaque_children_witness :
  let p := ToggleOpacity_parent first_candidate in
  let r := mkRect 50 50 100 100 in
  reachable first_candidate p
  /\ hole_rect p = Rect_empty
  /\ hole_rect (SetFillsBoundsOpaquely first_candidate 0 true p) = r
  /\ hole_rect (SetFillsBoundsOpaquely first_candidate 0 false p) = Rect_empty
  /\ hole_rect (SetVisible first_candidate 0 false p) = Rect_empty.
Proof.
  cbv zeta.
  assert (Hr : reachable first_candidate (ToggleOpacity_parent first_candidate))
    by (unfold ToggleOpacity_parent; repeat constructor).
  destruct (hole_rect_follows_opaque_children first_candidate _ Hr)
    as (_ & Hnone & _ & Hone).
  destruct (Hone 0%nat (mkLayer (mkRect 50 50 100 100) false true) eq_refl)
    as (Hon & Hoff & Hhide & _).
  { intros [|j] l' Hj Hl'; [contradiction|discriminate]. }
  split; [exact Hr|]. split; [reflexivity|].
  split; [exact (Hon eq_refl)|]. split; [exact Hoff|exact Hhide].
Defined.

(** The expectations of the three layer tests, under either candidate
    rule. *)
Example layer_tests (ch : Chooser) :
  ch = first_candidate \/ ch = last_candidate ->
  let r1 := mkRect 50 50 100 100 in
  let r2 := mkRect 150 150 200 200 in
  (* ToggleOpacityWithLayer *)
  hole_rect (SetFillsBoundsOpaquely ch 0 true (ToggleOpacity_parent ch)) = r1
  /\ Rect_IsEmpty
       (hole_rect (SetFillsBoundsOpaquely ch 0 false
                     (SetFillsBoundsOpaquely ch 0 true
                        (ToggleOpacity_parent ch)))) = true
  (* MultipleOpaqueLayers *)
  /\ hole_rect (MultipleOpaque_parent ch) = r1
  /\ (let both := SetFillsBoundsOpaquely ch 1 true (MultipleOpaque_parent ch) in
      (hole_rect both = r1 \/ hole_rect both = r2)
      /\ hole_rect (RemoveChildLayer ch 0 both) = r2)
  (* ToggleVisibilityWithOpaqueLayer *)
  /\ (let shown := SetFillsBoundsOpaquely ch 0 true (ToggleOpacity_parent ch) in
      Rect_IsEmpty (hole_rect (SetVisible ch 0 false shown)) = true
      /\ hole_rect (SetVisible ch 0 true (SetVisible ch 0 false shown)) = r1).
Proof.
  intros [-> | ->]; vm_compute; auto 10.
Qed.

End LayersProps.

(* ===================================================================== *)
(** * Further properties *)
(* ===================================================================== *)

(** ** GL surface factory, the other paths *)

Module GLSurfaceMore.
Import GLSurface.

Section Factory.
Context {P : Type} (os : Platform P).

(** X1. The value InitializeOneOff returns is the value it leaves in its
    static flag: a failed call leaves the process uninitialized, so that the
    next call tries again.  From an uninitialized process it fails exactly
    when the bindings do not load, or when the desktop GL implementation is
    selected and GLSurfaceCGL::InitializeOneOff fails. *)
Theorem InitializeOneOff_result_is_flag (s : Process P) :
  initialized (snd (InitializeOneOff os s)) = fst (InitializeOneOff os s)
  /\ (initialized s = false ->
      let bound :=
        InitializeRequestedGLBindings os kAllowedGLImplementations
          kGLImplementationDesktopGL (platform s) in
      (fst (InitializeOneOff os s) = false <->
       fst bound = false
       \/ (GetGLImplementation os (snd bound) = kGLImplementationDesktopGL
           /\ fst (GLSurfaceCGL_InitializeOneOff os (snd bound)) = false))).
Proof.
  unfold InitializeOneOff. destruct (initialized s) eqn:Hi.
  - split; [exact Hi|discriminate].
  - destruct (InitializeRequestedGLBindings os _ _ _) as [ok p1]. simpl.
    destruct ok; simpl.
    + destruct (GetGLImplementation os p1) eqn:Himpl;
        try (split; [reflexivity|]; intros _;
             split; [discriminate|intros [?|[? _]]; discriminate]).
      destruct (GLSurfaceCGL_InitializeOneOff os p1) as [ok2 p2].
      destruct ok2; simpl; (split; [reflexivity|]); intros _.
      * split; [discriminate|intros [?|[_ ?]]; discriminate].
      * split; auto.
    + split; [reflexivity|]. intros _. split; auto.
Qed.

(** X2. However many times InitializeOneOff is called in a row, and from
    whatever state, the calls that fail all come before the calls that
    succeed, and the process is left as the first successful call left it:
    the calls after it change nothing. *)
Theorem InitializeOneOff_failures_then_successes (n : nat) (s : Process P) :
  exists k, (k <= n)%nat
            /\ fst (InitializeOneOff_times os n s)
               = repeat false k ++ repeat true (n - k)
            /\ snd (InitializeOneOff_times os n s)
               = snd (InitializeOneOff_times os (Nat.min n (S k)) s).
Proof.
  revert s. induction n as [|n IH]; intros s.
  - exists 0%nat. split; [lia|]. split; reflexivity.
  - destruct (InitializeOneOff os s) as [r s1] eqn:Hcall.
    destruct r.
    + pose proof (GLSurfaceProps.InitializeOneOff_true_sets_flag os _ _ Hcall)
        as Hflag.
      destruct s1 as [i p]. simpl in Hflag. subst i.
      exists 0%nat. split; [lia|].
      replace (Nat.min (S n) 1) with 1%nat by lia.
      simpl. rewrite Hcall.
      rewrite GLSurfaceProps.InitializeOneOff_times_initialized.
      split; reflexivity.
    + destruct (IH s1) as (k & Hk & Hshape & Hstate).
      exists (S k). split; [lia|].
      replace (Nat.min (S n) (S (S k))) with (S (Nat.min n (S k))) by lia.
      simpl. rewrite Hcall.
      destruct (InitializeOneOff_times os n s1) as [rs s2].
      destruct (InitializeOneOff_times os (Nat.min n (S k)) s1) as [rs' s2'].
      simpl in *. subst rs. split; [reflexivity|exact Hstate].
Qed.

(** X3. Without [software], CreateOffscreenGLSurface does not return exactly
    when the implementation is none of the three and DCHECKs are compiled in:
    NOTREACHED() ends the process.  It returns a surface only if it is the
    stub of the mock implementation, made without any platform call, or a
    surface of the requested size whose Initialize has just returned true: an
    OSMesa surface under OSMesa, a pbuffer under desktop GL.  It returns NULL
    exactly when that Initialize fails, or when the implementation is none of
    the three in a build without DCHECKs, the platform then untouched. *)
Theorem CreateOffscreenGLSurface_returns_initialized (DCHECK_IS_ON : bool)
  (size : Size) (p : P) :
  let r := CreateOffscreenGLSurface os DCHECK_IS_ON false size p in
  let impl := GetGLImplementation os p in
  (r = None <-> DCHECK_IS_ON = true /\ impl = kGLImplementationOther)
  /\ (forall sfc p1, r = Some (Some sfc, p1) ->
       (sfc = GLSurfaceStub /\ impl = kGLImplementationMockGL /\ p1 = p)
       \/ (Surface_Initialize os sfc p = (true, p1)
           /\ surface_size sfc = Some size
           /\ (impl = kGLImplementationOSMesaGL
                 /\ sfc = GLSurfaceOSMesa OSMESA_RGBA size
               \/ impl = kGLImplementationDesktopGL
                 /\ sfc = PbufferGLSurfaceCGL size)))
  /\ (forall p1, r = Some (None, p1) <->
       (impl = kGLImplementationOther /\ DCHECK_IS_ON = false /\ p1 = p)
       \/ (impl = kGLImplementationOSMesaGL
           /\ Surface_Initialize os (GLSurfaceOSMesa OSMESA_RGBA size) p
              = (false, p1))
       \/ (impl = kGLImplementationDesktopGL
           /\ Surface_Initialize os (PbufferGLSurfaceCGL size) p
              = (false, p1))).
Proof.
  cbv zeta. unfold CreateOffscreenGLSurface, NOTREACHED.
  destruct (GetGLImplementation os p) eqn:Himpl.
  - destruct (Surface_Initialize os (PbufferGLSurfaceCGL size) p)
      as [ok p1] eqn:Hinit.
    destruct ok; simpl; (split; [|split]).
    + split; [discriminate|intros [_ ?]; discriminate].
    + intros sfc p' [= <- <-]. right. auto 10.
    + intros p'. split; [discriminate|].
      intros [[? _]|[[? _]|[_ ?]]]; discriminate.
    + split; [discriminate|intros [_ ?]; discriminate].
    + discriminate.
    + intros p'. split.
      * intros [= <-]. auto.
      * intros [[? _]|[[? _]|[_ [= <-]]]]; try discriminate. reflexivity.
  - destruct (Surface_Initialize os (GLSurfaceOSMesa OSMESA_RGBA size) p)
      as [ok p1] eqn:Hinit.
    destruct ok; simpl; (split; [|split]).
    + split; [discriminate|intros [_ ?]; discriminate].
    + intros sfc p' [= <- <-]. right. auto 10.
    + intros p'. split; [discriminate|].
      intros [[? _]|[[_ ?]|[? _]]]; discriminate.
    + split; [discriminate|intros [_ ?]; discriminate].
    + discriminate.
    + intros p'. split.
      * intros [= <-]. auto.
      * intros [[? _]|[[_ [= <-]]|[? _]]]; try discriminate. reflexivity.
  - simpl. split; [|split].
    + split; [discriminate|intros [_ ?]; discriminate].
    + intros sfc p' [= <- <-]. left. auto.
    + intros p'. split; [discriminate|].
      intros [[? _]|[[? _]|[? _]]]; discriminate.
  - destruct DCHECK_IS_ON; simpl; (split; [|split]).
    + split; auto.
    + discriminate.
    + intros p'. split; [discriminate|].
      intros [(_ & ? & _)|[[? _]|[? _]]]; discriminate.
    + split; [discriminate|intros [? _]; discriminate].
    + discriminate.
    + intros p'. split.
      * intros [= <-]. auto.
      * intros [(_ & _ & ->)|[[? _]|[? _]]]; try discriminate. reflexivity.
Qed.

(** X4. A surface CreateViewGLSurface returns is never a software surface and
    never one of the window: it is the stub or an initialized offscreen
    surface one pixel wide and one pixel high, the same for every window and
    in every build. *)
Theorem CreateViewGLSurface_is_one_by_one (DCHECK_IS_ON software : bool)
  (window window' : PluginWindowHandle) (p : P) :
  CreateViewGLSurface os DCHECK_IS_ON software window p
  = CreateViewGLSurface os DCHECK_IS_ON software window' p
  /\ match CreateViewGLSurface os DCHECK_IS_ON software window p with
     | Some (Some sfc, _) =>
         software = false
         /\ (sfc = GLSurfaceStub
             \/ (surface_size sfc = Some (mkSize 1 1)
                 /\ fst (Surface_Initialize os sfc p) = true))
     | _ => True
     end.
Proof.
  split; [reflexivity|].
  unfold CreateViewGLSurface, CreateOffscreenGLSurface, NOTREACHED.
  destruct software; [exact I|].
  destruct (GetGLImplementation os p); simpl; auto.
  - destruct (Surface_Initialize os (PbufferGLSurfaceCGL _) p)
      as [ok p1] eqn:Hinit.
    destruct ok; simpl; [|exact I]. rewrite Hinit. auto.
  - destruct (Surface_Initialize os (GLSurfaceOSMesa _ _) p)
      as [ok p1] eqn:Hinit.
    destruct ok; simpl; [|exact I]. rewrite Hinit. auto.
  - destruct DCHECK_IS_ON; exact I.
Qed.

End Factory.
End GLSurfaceMore.

(** ** Bitmap platform device: ownership, lazy configuration, drawing *)

Module SkiaMore.
Import Skia SkiaOwnership.

Lemma references_gained_app (c : CGContext) (l k : list Call) :
  references_gained c (l ++ k)
  = references_gained c l + references_gained c k.
Proof.
  unfold references_gained. induction l as [|x l IH]; simpl; [lia|].
  rewrite IH. lia.
Qed.

Section Device.
Variable NDEBUG : bool.
Variable SK_DEBUG : bool.
Variable allocPixels : Z -> Z -> option Ptr.
Variable bitmap_context_available : option Ptr -> Z -> Z -> bool.

Local Abbreviation Create' :=
  (Create NDEBUG SK_DEBUG allocPixels bitmap_context_available).
Local Abbreviation CreateWithData' :=
  (CreateWithData NDEBUG SK_DEBUG allocPixels bitmap_context_available).
Local Abbreviation CGContextForData' :=
  (CGContextForData bitmap_context_available).

(** *** The four ways through Create *)

Lemma Create_alloc_fails (context : option CGContext) (width height : Z)
  (is_opaque : bool) (w : World) :
  allocPixels width height = None ->
  Create' context width height is_opaque w = Some (None, w).
Proof. intros H. unfold Create. rewrite H. reflexivity. Qed.

Lemma Create_with_context (c : CGContext) (width height : Z)
  (is_opaque : bool) (px : Ptr) (w : World) :
  allocPixels width height = Some px ->
  let dev :=
    mkDevice (mkData (Some c) true SkMatrix_identity
                (SkRegion_of_rect 0 0 (cg_width c) (cg_height c)))
             (mkSkBitmap width height (cg_data c) None is_opaque) in
  Create' (Some c) width height is_opaque w
  = Some (Some dev,
          mkWorld (next_id w)
            (calls w ++ [CGContextRetain (Some c); CGContextRetain (Some c);
                         CGContextSaveGState (Some c);
                         new_BitmapPlatformDevice dev;
                         CGContextRelease (Some c)])).
Proof.
  intros H dev. unfold Create. rewrite H.
  cbv [bind call ret new_BitmapPlatformDeviceData construct_device
       calls next_id].
  simpl bool_decide. rewrite (SkiaProps.SkASSERT_true SK_DEBUG).
  cbv [calls next_id]. rewrite <- !app_assoc. simpl.
  rewrite andb_false_r. reflexivity.
Qed.

Lemma Create_makes_context (width height : Z) (is_opaque : bool) (px : Ptr)
  (w : World) :
  allocPixels width height = Some px ->
  bitmap_context_available (Some px) width height = true ->
  let c := mkCGContext (next_id w) (Some px) width height in
  let dev :=
    mkDevice (mkData (Some c) true SkMatrix_identity
                (SkRegion_of_rect 0 0 width height))
             (mkSkBitmap width height (Some px)
                (Some (if negb NDEBUG && is_opaque then (255, 0, 255, 128)
                       else (0, 0, 0, 0)))
                is_opaque) in
  Create' None width height is_opaque w
  = Some (Some dev,
          mkWorld (S (next_id w))
            (calls w ++ [CGBitmapContextCreate (Some px) width height 8
                           (width * 4) (Some c);
                         CGContextTranslateCTM c 0 height;
                         CGContextScaleCTM c 1 (-1);
                         CGContextRetain (Some c);
                         CGContextSaveGState (Some c);
                         new_BitmapPlatformDevice dev;
                         CGContextRelease (Some c)])).
Proof.
  intros H Hav c dev. unfold Create, CGContextForData. rewrite H.
  cbv [bm_pixels eraseARGB setIsOpaque]. unfold bind at 1. rewrite Hav.
  cbv [bind call ret new_BitmapPlatformDeviceData construct_device
       calls next_id].
  simpl bool_decide. rewrite (SkiaProps.SkASSERT_true SK_DEBUG).
  cbv [calls next_id]. rewrite <- !app_assoc. simpl.
  subst dev c. rewrite andb_true_r.
  destruct (negb NDEBUG), is_opaque; reflexivity.
Qed.

Lemma Create_cannot_make_context (width height : Z) (is_opaque : bool)
  (px : Ptr) (w : World) :
  allocPixels width height = Some px ->
  bitmap_context_available (Some px) width height = false ->
  Create' None width height is_opaque w
  = Some (None,
          mkWorld (next_id w)
            (calls w ++ [CGBitmapContextCreate (Some px) width height 8
                           (width * 4) None])).
Proof.
  intros H Hav. unfold Create, CGContextForData. rewrite H.
  cbv [bm_pixels eraseARGB setIsOpaque]. unfold bind at 1. rewrite Hav.
  reflexivity.
Qed.

(** Counts the references a list of calls leaves on a context. *)
Ltac count_references :=
  cbv [references_gained foldr reference_change context_of data_
       bitmap_context_];
  repeat case_decide; simplify_eq; try lia; try congruence.

(** Brings the world a computation ends in to the form [calls w ++ _]. *)
Ltac normalise_world :=
  cbv [bind call ret calls next_id]; rewrite <- ?app_assoc; simpl.

(** X5. Ownership of the graphics context.  Create and CreateWithData always
    return, and over the whole call they leave exactly one reference on the
    context of the device they return - the device's own - and none on any
    other context; when they return NULL they leave no reference at all, so
    a context CreateWithData made before the failure is released again. *)
Theorem Create_leaves_one_reference_to_the_device
  (context : option CGContext) (data : option Ptr) (width height : Z)
  (is_opaque : bool) (w : World) :
  (exists rv w',
     Create' context width height is_opaque w = Some (rv, w')
     /\ forall c, references_gained c (new_calls w w')
                  = match rv with
                    | Some d => if decide (context_of d = Some c) then 1 else 0
                    | None => 0
                    end)
  /\ (exists rv w',
        CreateWithData' data width height is_opaque w = Some (rv, w')
        /\ forall c, references_gained c (new_calls w w')
                     = match rv with
                       | Some d =>
                           if decide (context_of d = Some c) then 1 else 0
                       | None => 0
                       end).
Proof.
  assert (Hnone : new_calls w w = []).
  { unfold new_calls. apply drop_all. }
  destruct (allocPixels width height) as [px|] eqn:Halloc.
  2:{ (* no pixels *)
    split.
    - exists None, w. rewrite Create_alloc_fails by exact Halloc.
      split; [reflexivity|]. intros c. rewrite Hnone. reflexivity.
    - unfold CreateWithData. destruct data as [p|].
      + unfold bind at 1, CGContextForData.
        destruct (bitmap_context_available (Some p) width height).
        * eexists None, (mkWorld _ (calls w ++ _)). split.
          { normalise_world.
            rewrite Create_alloc_fails by exact Halloc.
            normalise_world. reflexivity. }
          intros c. rewrite SkiaProps.new_calls_app. count_references.
        * eexists None, (mkWorld _ (calls w ++ _)). split.
          { normalise_world.
            rewrite Create_alloc_fails by exact Halloc.
            normalise_world. reflexivity. }
          intros c. rewrite SkiaProps.new_calls_app. count_references.
      + exists None, w. unfold bind at 1, ret at 1. unfold bind at 1.
        rewrite Create_alloc_fails by exact Halloc.
        split; [reflexivity|]. intros c. rewrite Hnone. reflexivity. }
  assert (Hown : exists rv w',
             Create' None width height is_opaque w = Some (rv, w')
             /\ forall c, references_gained c (new_calls w w')
                  = match rv with
                    | Some d => if decide (context_of d = Some c) then 1 else 0
                    | None => 0
                    end).
  { destruct (bitmap_context_available (Some px) width height) eqn:Hav.
    - eexists (Some _), (mkWorld _ (calls w ++ _)). split.
      { exact (Create_makes_context width height is_opaque px w Halloc Hav). }
      intros c. rewrite SkiaProps.new_calls_app. count_references.
    - eexists None, (mkWorld _ (calls w ++ _)). split.
      { exact (Create_cannot_make_context width height is_opaque px w Halloc Hav). }
      intros c. rewrite SkiaProps.new_calls_app. count_references. }
  split.
  - destruct context as [c0|]; [|exact Hown].
    eexists (Some _), (mkWorld _ (calls w ++ _)). split.
    { exact (Create_with_context c0 width height is_opaque px w Halloc). }
    intros c. rewrite SkiaProps.new_calls_app. count_references.
  - unfold CreateWithData. destruct data as [p|].
    + unfold bind at 1, CGContextForData.
      destruct (bitmap_context_available (Some p) width height) eqn:Hdata.
      * (* a context over the caller's data *)
        eexists (Some _), (mkWorld _ (calls w ++ _)). split.
        { normalise_world.
          rewrite (Create_with_context _ _ _ _ px) by exact Halloc.
          normalise_world. reflexivity. }
        intros c. rewrite SkiaProps.new_calls_app. count_references.
      * (* none: Create works on pixels of its own *)
        destruct (bitmap_context_available (Some px) width height) eqn:Hav.
        -- eexists (Some _), (mkWorld _ (calls w ++ _)). split.
           { normalise_world.
             rewrite (Create_makes_context _ _ _ px) by assumption.
             normalise_world. reflexivity. }
           intros c. rewrite SkiaProps.new_calls_app. count_references.
        -- eexists None, (mkWorld _ (calls w ++ _)). split.
           { normalise_world.
             rewrite (Create_cannot_make_context _ _ _ px) by assumption.
             normalise_world. reflexivity. }
           intros c. rewrite SkiaProps.new_calls_app. count_references.
    + destruct Hown as (rv & w' & Hrun & Hrefs).
      exists rv, w'. unfold bind at 1, ret at 1. unfold bind at 1.
      rewrite Hrun. split; [reflexivity|exact Hrefs].
Qed.

(** X7. The configuration is loaded lazily and once.  LoadConfig always
    returns; it never changes the context, the transform or the clip region
    of the device data, and it neither retains nor releases anything; after
    it the configuration is clean unless there is no context, in which case
    nothing is loaded and the pending configuration is kept; and a second
    LoadConfig right after the first does nothing at all. *)
Theorem LoadConfig_loads_once (d : BitmapPlatformDeviceData) (w : World) :
  exists d1 w1,
    LoadConfig d w = Some (d1, w1)
    /\ bitmap_context_ d1 = bitmap_context_ d
    /\ transform_ d1 = transform_ d
    /\ clip_region_ d1 = clip_region_ d
    /\ config_dirty_ d1
       = config_dirty_ d && negb (bool_decide (is_Some (bitmap_context_ d)))
    /\ (bitmap_context_ d = None -> d1 = d /\ w1 = w)
    /\ (config_dirty_ d = false -> d1 = d /\ w1 = w)
    /\ forallb (fun x => negb (touches_references x)) (new_calls w w1) = true
    /\ LoadConfig d1 w1 = Some (d1, w1).
Proof.
  assert (Hsame : forall d0 : BitmapPlatformDeviceData,
             LoadConfig d0 w = Some (d0, w) ->
             config_dirty_ d0
             = config_dirty_ d0
               && negb (bool_decide (is_Some (bitmap_context_ d0))) ->
             exists d1 w1,
               LoadConfig d0 w = Some (d1, w1)
               /\ bitmap_context_ d1 = bitmap_context_ d0
               /\ transform_ d1 = transform_ d0
               /\ clip_region_ d1 = clip_region_ d0
               /\ config_dirty_ d1
                  = config_dirty_ d0
                    && negb (bool_decide (is_Some (bitmap_context_ d0)))
               /\ (bitmap_context_ d0 = None -> d1 = d0 /\ w1 = w)
               /\ (config_dirty_ d0 = false -> d1 = d0 /\ w1 = w)
               /\ forallb (fun x => negb (touches_references x))
                    (new_calls w w1) = true
               /\ LoadConfig d1 w1 = Some (d1, w1)).
  { intros d0 Hrun Hdirty. exists d0, w.
    unfold new_calls. rewrite drop_all. repeat split; auto. }
  destruct d as [[c|] [|] t r].
  - eexists (mkData (Some c) false t r), (mkWorld _ (calls w ++ _)).
    split.
    { unfold LoadConfig. simpl. normalise_world. reflexivity. }
    rewrite SkiaProps.new_calls_app.
    repeat split; auto; discriminate.
  - apply Hsame; reflexivity.
  - apply Hsame; reflexivity.
  - apply Hsame; reflexivity.
Qed.

End Device.
End SkiaMore.

(** ** The life of a device *)

Module SkiaLifeProps.
Import Skia SkiaOwnership SkiaLifetime.

Lemma images_created_app (l k : list Call) :
  images_created (l ++ k) = images_created l ++ images_created k.
Proof. apply flat_map_app. Qed.

Lemma images_released_app (l k : list Call) :
  images_released (l ++ k) = images_released l ++ images_released k.
Proof. apply flat_map_app. Qed.

Lemma balanced_nil : balanced [].
Proof. split; [reflexivity|constructor]. Qed.

Lemma balanced_app (l k : list Call) :
  balanced l -> balanced k -> balanced (l ++ k).
Proof.
  intros [Hl1 Hl2] [Hk1 Hk2]. split.
  - intros c. rewrite SkiaMore.references_gained_app, Hl1, Hk1. reflexivity.
  - rewrite images_created_app, images_released_app, Hl2, Hk2. reflexivity.
Qed.

Lemma world_eta (w : World) : mkWorld (next_id w) (calls w ++ []) = w.
Proof. destruct w. cbn. rewrite app_nil_r. reflexivity. Qed.

Ltac count_references :=
  cbv [references_gained foldr reference_change context_of data_
       bitmap_context_];
  repeat case_decide; simplify_eq; try lia; try congruence.

Section Device.
Variable NDEBUG : bool.
Variable SK_DEBUG : bool.
Variable allocPixels : Z -> Z -> option Ptr.
Variable bitmap_context_available : option Ptr -> Z -> Z -> bool.

Local Abbreviation Create' :=
  (Create NDEBUG SK_DEBUG allocPixels bitmap_context_available).
Local Abbreviation CreateWithData' :=
  (CreateWithData NDEBUG SK_DEBUG allocPixels bitmap_context_available).
Local Abbreviation use' := (use SK_DEBUG).
Local Abbreviation life' := (life SK_DEBUG).

(** Each operation returns, keeps the device's context, and is balanced. *)
Lemma apply_op_keeps_context (op : DeviceOp) (dev : BitmapPlatformDevice)
  (c : CGContext) (w : World) :
  context_of dev = Some c ->
  exists dev' added,
    apply_op SK_DEBUG op dev w
    = Some (dev', mkWorld (next_id w) (calls w ++ added))
    /\ context_of dev' = Some c
    /\ balanced added.
Proof.
  intros Hc. destruct op as [|transform region|context x y src_rect].
  - destruct dev as [[bc cd tr cl] bm]. cbv [context_of data_ bitmap_context_]
      in Hc. subst bc.
    unfold apply_op, GetBitmapContext, LoadConfig.
    cbv [data_ config_dirty_ bitmap_context_ transform_ clip_region_ bitmap].
    simpl bool_decide. destruct cd; cbn [negb orb].
    + eexists _, _. split; [|split].
      * cbv [bind call ret calls next_id fst]. rewrite <- !app_assoc.
        cbn [app]. reflexivity.
      * reflexivity.
      * split; [intros c'; count_references|reflexivity].
    + exists (mkDevice (mkData (Some c) false tr cl) bm), [].
      rewrite world_eta. split; [reflexivity|].
      split; [reflexivity|apply balanced_nil].
  - exists (setMatrixClip dev transform region), [].
    rewrite world_eta. split; [reflexivity|].
    split; [exact Hc|apply balanced_nil].
  - exists dev, (draw_calls dev context x y src_rect).
    split; [apply (SkiaProps.DrawToNativeContext_present SK_DEBUG dev c);
            exact Hc|].
    split; [exact Hc|].
    unfold draw_calls. cbv [context_of] in Hc. rewrite Hc.
    destruct src_rect as [r|]; cbn [app CGBitmapContextCreateImage_of
      CGImageCreateWithImageInRect_of];
      (split; [intros c'; count_references|]);
      cbn; [apply perm_swap|reflexivity].
Qed.

Lemma use_keeps_context (ops : list DeviceOp) (dev : BitmapPlatformDevice)
  (c : CGContext) (w : World) :
  context_of dev = Some c ->
  exists dev' added,
    use' ops dev w = Some (dev', mkWorld (next_id w) (calls w ++ added))
    /\ context_of dev' = Some c
    /\ balanced added.
Proof.
  revert dev w. induction ops as [|op ops IH]; intros dev w Hc.
  - exists dev, []. rewrite world_eta.
    split; [reflexivity|]. split; [exact Hc|apply balanced_nil].
  - destruct (apply_op_keeps_context op dev c w Hc)
      as (dev1 & a1 & Hop & Hc1 & Hb1).
    destruct (IH dev1 (mkWorld (next_id w) (calls w ++ a1)) Hc1)
      as (dev2 & a2 & Huse & Hc2 & Hb2).
    exists dev2, (a1 ++ a2). split; [|split].
    + cbn [use]. unfold bind at 1. rewrite Hop, Huse.
      cbn [next_id calls]. rewrite <- app_assoc. reflexivity.
    + exact Hc2.
    + apply balanced_app; assumption.
Qed.

Lemma delete_releases (dev : BitmapPlatformDevice) (c : CGContext)
  (w : World) :
  context_of dev = Some c ->
  delete_BitmapPlatformDevice dev w
  = Some (tt, mkWorld (next_id w) (calls w ++ [CGContextRelease (Some c)])).
Proof.
  intros Hc. unfold delete_BitmapPlatformDevice,
    delete_BitmapPlatformDeviceData.
  cbv [context_of] in Hc. rewrite Hc. reflexivity.
Qed.

(** Whatever makes the device, its life is balanced. *)
Lemma life_balanced (make : M (option BitmapPlatformDevice))
  (ops : list DeviceOp) (w : World) :
  (exists rv n added,
     make w = Some (rv, mkWorld n (calls w ++ added)) /\ made rv added) ->
  exists w',
    life' make ops w = Some (tt, w') /\ balanced (new_calls w w').
Proof.
  intros (rv & n & added & Hmake & Hnoimg1 & Hnoimg2 & Hrefs).
  unfold life, bind at 1. rewrite Hmake.
  destruct rv as [dev|].
  - destruct Hrefs as (c & Hc & Hrefs).
    destruct (use_keeps_context ops dev c (mkWorld n (calls w ++ added)) Hc)
      as (dev1 & a1 & Huse & Hc1 & Hb1 & Hb2).
    unfold bind. rewrite Huse, (delete_releases dev1 c _ Hc1).
    cbn [next_id calls]. eexists. split; [reflexivity|].
    rewrite <- !app_assoc, SkiaProps.new_calls_app. split.
    + intros c'. rewrite !SkiaMore.references_gained_app, Hrefs, Hb1.
      count_references.
    + rewrite !images_created_app, !images_released_app, Hnoimg1, Hnoimg2,
        Hb2.
      cbn. rewrite app_nil_r. reflexivity.
  - eexists. split; [reflexivity|].
    rewrite SkiaProps.new_calls_app. split; [exact Hrefs|].
    rewrite Hnoimg1, Hnoimg2. reflexivity.
Qed.

Lemma Create_made (context : option CGContext) (width height : Z)
  (is_opaque : bool) (w : World) :
  exists rv n added,
    Create' context width height is_opaque w
    = Some (rv, mkWorld n (calls w ++ added))
    /\ made rv added.
Proof.
  destruct (allocPixels width height) as [px|] eqn:Halloc.
  - destruct context as [c|].
    + eexists _, _, _. split.
      * exact (SkiaMore.Create_with_context NDEBUG SK_DEBUG allocPixels
                 bitmap_context_available c width height is_opaque px w
                 Halloc).
      * split; [reflexivity|]. split; [reflexivity|].
        exists c. split; [reflexivity|]. intros c'. count_references.
    + destruct (bitmap_context_available (Some px) width height) eqn:Hav.
      * eexists _, _, _. split.
        -- exact (SkiaMore.Create_makes_context NDEBUG SK_DEBUG allocPixels
                    bitmap_context_available width height is_opaque px w
                    Halloc Hav).
        -- split; [reflexivity|]. split; [reflexivity|].
           eexists. split; [reflexivity|]. intros c'. count_references.
      * eexists _, _, _. split.
        -- exact (SkiaMore.Create_cannot_make_context NDEBUG SK_DEBUG
                    allocPixels bitmap_context_available width height
                    is_opaque px w Halloc Hav).
        -- split; [reflexivity|]. split; [reflexivity|].
           intros c'. count_references.
  - exists None, (next_id w), []. rewrite world_eta. split.
    + apply SkiaMore.Create_alloc_fails. exact Halloc.
    + split; [reflexivity|]. split; [reflexivity|]. reflexivity.
Qed.

Lemma CreateWithData_made (data : option Ptr) (width height : Z)
  (is_opaque : bool) (w : World) :
  exists rv n added,
    CreateWithData' data width height is_opaque w
    = Some (rv, mkWorld n (calls w ++ added))
    /\ made rv added.
Proof.
  unfold CreateWithData. destruct data as [p|].
  - destruct (bitmap_context_available (Some p) width height) eqn:Hav.
    + set (c := mkCGContext (next_id w) (Some p) width height).
      assert (Hctx :
        CGContextForData bitmap_context_available (Some p) width height w
        = Some (Some c,
                mkWorld (S (next_id w))
                  (calls w ++ [CGBitmapContextCreate (Some p) width height 8
                                 (width * 4) (Some c);
                               CGContextTranslateCTM c 0 height;
                               CGContextScaleCTM c 1 (-1)]))).
      { unfold CGContextForData. rewrite Hav.
        cbv [bind call ret calls next_id]. rewrite <- !app_assoc.
        reflexivity. }
      unfold bind at 1. rewrite Hctx.
      destruct (allocPixels width height) as [px|] eqn:Halloc.
      * unfold bind at 1.
        rewrite (SkiaMore.Create_with_context NDEBUG SK_DEBUG allocPixels
                   bitmap_context_available c width height is_opaque px _
                   Halloc).
        cbv [bind call ret calls next_id]. rewrite <- !app_assoc.
        cbn [app].
        eexists _, _, _. split; [reflexivity|].
        split; [reflexivity|]. split; [reflexivity|].
        exists c. split; [reflexivity|]. intros c'. count_references.
      * unfold bind at 1.
        rewrite (SkiaMore.Create_alloc_fails NDEBUG SK_DEBUG allocPixels
                   bitmap_context_available (Some c) width height is_opaque
                   _ Halloc).
        cbv [bind call ret calls next_id]. rewrite <- !app_assoc.
        cbn [app].
        eexists _, _, _. split; [reflexivity|].
        split; [reflexivity|]. split; [reflexivity|].
        intros c'. count_references.
    + assert (Hctx :
        CGContextForData bitmap_context_available (Some p) width height w
        = Some (None,
                mkWorld (next_id w)
                  (calls w ++ [CGBitmapContextCreate (Some p) width height 8
                                 (width * 4) None]))).
      { unfold CGContextForData. rewrite Hav. reflexivity. }
      unfold bind at 1. rewrite Hctx.
      match goal with
      | |- context [Create' None width height is_opaque] =>
          destruct (Create_made None width height is_opaque
                      (mkWorld (next_id w)
                         (calls w ++ [CGBitmapContextCreate (Some p) width
                                        height 8 (width * 4) None])))
            as (rv & n & added & Hc & Hi1 & Hi2 & Hrefs)
      end.
      unfold bind at 1. rewrite Hc. cbv [bind ret]. cbn [calls].
      rewrite <- app_assoc.
      eexists rv, n, _. split; [reflexivity|].
      split; [exact Hi1|]. split; [exact Hi2|].
      destruct rv as [d|].
      * destruct Hrefs as (c & Hd & Hrefs). exists c. split; [exact Hd|].
        intros c'. rewrite SkiaMore.references_gained_app, Hrefs. reflexivity.
      * intros c'. rewrite SkiaMore.references_gained_app, Hrefs. reflexivity.
  - destruct (Create_made None width height is_opaque w)
      as (rv & n & added & Hc & Hm).
    cbv [bind ret]. rewrite Hc. exists rv, n, added. split; [reflexivity|].
    exact Hm.
Qed.


(** X10. The life of a device is balanced.  From its creation by Create or
    by CreateWithData, through any sequence of GetBitmapContext, setMatrixClip
    and DrawToNativeContext calls, to its destruction, the run always comes
    to its end - no SkASSERT fails in any build, since a device that was
    created never loses its context - and over the whole life every retain
    or creation of a context is matched by a release and every image created
    is released: the device leaks nothing and releases nothing twice.  When
    no device is made there is nothing to undo either. *)
Theorem device_life_is_balanced (context : option CGContext)
  (data : option Ptr) (width height : Z) (is_opaque : bool)
  (ops : list DeviceOp) (w : World) :
  (exists w',
     life' (Create' context width height is_opaque) ops w = Some (tt, w')
     /\ balanced (new_calls w w'))
  /\ (exists w',
        life' (CreateWithData' data width height is_opaque) ops w
        = Some (tt, w')
        /\ balanced (new_calls w w')).
Proof.
  split; apply life_balanced; [apply Create_made|apply CreateWithData_made].
Qed.

End Device.

(** A device over the caller's context is drawn twice, with a new clip in
    between: during its life the context is retained twice and released
    twice, three images are made and two draws done. *)
Example device_life_test :
  exists w',
    life false (Create true false alloc_at_100 every_context
                  (Some some_context) 30 20 false)
      [OpDrawToNativeContext (Some target_context) 0 0 None;
       OpSetMatrixClip SkMatrix_identity (SkRegion_of_rect 0 0 5 5);
       OpGetBitmapContext;
       OpDrawToNativeContext (Some target_context) 1 1
         (Some (mkCGRect 0 0 5 5))]
      empty_world = Some (tt, w')
    /\ length (filter (fun x => touches_references x = true) (calls w')) = 4%nat
    /\ length (images_created (calls w')) = 3%nat
    /\ length (draws (calls w')) = 2%nat.
Proof. eexists. vm_compute. auto. Qed.

End SkiaLifeProps.

(** ** Event modifiers *)

Module EventModifiersProps.
Import Events EventModifiers.

Section Modifiers.
Variable IsShiftDown IsControlDown IsAltDown IsCapsLockDown : Event -> bool.
Variable VKEY_SHIFT VKEY_CONTROL VKEY_MENU VKEY_CAPITAL : Z.

Local Abbreviation GetModifiers' :=
  (GetModifiers IsShiftDown IsControlDown IsAltDown IsCapsLockDown
     VKEY_SHIFT VKEY_CONTROL VKEY_MENU VKEY_CAPITAL).

(** Bit by bit, the result is the union of the codes of the modifiers that
    are down. *)
Lemma GetModifiers_testbit (e : Event) (n : Z) :
  Z.testbit (GetModifiers' e) n
  = (IsShiftDown e && Z.testbit VKEY_SHIFT n)
    || (IsControlDown e && Z.testbit VKEY_CONTROL n)
    || (IsAltDown e && Z.testbit VKEY_MENU n)
    || (IsCapsLockDown e && Z.testbit VKEY_CAPITAL n).
Proof.
  unfold GetModifiers.
  destruct (IsShiftDown e), (IsControlDown e), (IsAltDown e),
    (IsCapsLockDown e); cbn [andb orb];
    rewrite ?Z.lor_spec, ?Z.testbit_0_l, ?orb_false_r; reflexivity.
Qed.

(** X11. GetModifiers combines the key codes of the modifiers that are down
    with bitwise or, so a modifier all of whose code bits are bits of the
    code of another modifier that is down leaves no trace in the result: when
    every bit of VKEY_SHIFT is a bit of VKEY_CONTROL, two events in which
    Control is down and which agree on Alt and Caps Lock give the same
    result, whether Shift is down in them or not. *)
Theorem GetModifiers_hides_covered_modifier (e e' : Event) :
  (forall n, Z.testbit VKEY_SHIFT n = true ->
             Z.testbit VKEY_CONTROL n = true) ->
  IsControlDown e = true -> IsControlDown e' = true ->
  IsAltDown e = IsAltDown e' ->
  IsCapsLockDown e = IsCapsLockDown e' ->
  GetModifiers' e = GetModifiers' e'.
Proof.
  intros Hsub Hc Hc' Ha Hl. apply Z.bits_inj'. intros n _.
  rewrite !GetModifiers_testbit, Hc, Hc', <- Ha, <- Hl. cbn [andb].
  destruct (Z.testbit VKEY_CONTROL n) eqn:Hbit.
  - rewrite !orb_true_r. reflexivity.
  - assert (Hs : Z.testbit VKEY_SHIFT n = false).
    { destruct (Z.testbit VKEY_SHIFT n) eqn:E; [|reflexivity].
      rewrite (Hsub n E) in Hbit. discriminate. }
    rewrite Hs, !andb_false_r. reflexivity.
Qed.

End Modifiers.

(** With the codes 0x10 for Shift and 0x11 for Control, Control alone and
    Shift with Control give the same modifiers. *)
Lemma GetModifiers_hides_covered_modifier_witness :
  (forall n, Z.testbit 0x10 n = true -> Z.testbit 0x11 n = true)
  /\ flag_bit 2 (mkEvent 0 4) = true
  /\ flag_bit 2 (mkEvent 0 6) = true
  /\ modifiers_of_bits (mkEvent 0 4) = modifiers_of_bits (mkEvent 0 6).
Proof.
  assert (Hsub : forall n, Z.testbit 0x10 n = true -> Z.testbit 0x11 n = true).
  { intros n Hn. change 0x11 with (Z.lor 0x10 1).
    rewrite Z.lor_spec, Hn. reflexivity. }
  split; [exact Hsub|]. split; [reflexivity|]. split; [reflexivity|].
  apply (GetModifiers_hides_covered_modifier
           (flag_bit 1) (flag_bit 2) (flag_bit 3) (flag_bit 0)
           0x10 0x11 0x12 0x14 (mkEvent 0 4) (mkEvent 0 6) Hsub);
    reflexivity.
Defined.

(** The values: 0x11 with Control, with or without Shift; 0x10 with Shift
    alone; 0 with none. *)
Example GetModifiers_values :
  modifiers_of_bits (mkEvent 0 4) = 0x11
  /\ modifiers_of_bits (mkEvent 0 6) = 0x11
  /\ modifiers_of_bits (mkEvent 0 2) = 0x10
  /\ modifiers_of_bits (mkEvent 0 0) = 0.
Proof. repeat split. Qed.

End EventModifiersProps.

(** ** Touch handling of the test views *)

Module TouchTestProps.
Import TouchTest.

Section Handlers.
Variable ET_TOUCH_PRESSED ET_TOUCH_RELEASED : Z.

Local Abbreviation OnTouchEvent' :=
  (OnTouchEvent ET_TOUCH_PRESSED ET_TOUCH_RELEASED).
Local Abbreviation run' := (run ET_TOUCH_PRESSED ET_TOUCH_RELEASED).

(** One event: the status agrees with the sequence state before and after. *)
Lemma OnTouchEvent_step (event : TouchEvent) (v : TestView) :
  let status := fst (OnTouchEvent' event v) in
  let v1 := snd (OnTouchEvent' event v) in
  well_bracketed (in_touch_sequence_ v) [status] = true
  /\ in_touch_sequence_ v1 = in_sequence_after (in_touch_sequence_ v) [status]
  /\ (status = TOUCH_STATUS_START <->
      in_touch_sequence_ v = false /\ touch_type event = ET_TOUCH_PRESSED)
  /\ (status = TOUCH_STATUS_END <->
      in_touch_sequence_ v = true /\ touch_type event = ET_TOUCH_RELEASED)
  /\ last_touch_event_type_ v1 = touch_type event
  /\ location_ v1 = mkPoint (touch_x event) (touch_y event)
  /\ last_touch_event_was_handled_ v1 = last_touch_event_was_handled_ v.
Proof.
  cbv zeta. unfold OnTouchEvent. destruct v as [cb mt loc tt handled seq].
  cbn [in_touch_sequence_ last_touch_event_was_handled_ did_change_bounds_
       last_mouse_event_type_ location_ last_touch_event_type_].
  destruct seq; cbn [negb].
  - destruct (decide (touch_type event = ET_TOUCH_RELEASED)) as [E|E];
      cbn; repeat split; try discriminate; try tauto; intros [? ?];
      try discriminate; contradiction.
  - destruct (decide (touch_type event = ET_TOUCH_PRESSED)) as [E|E].
    + cbn. repeat split; try discriminate; try tauto.
      intros [? ?]; discriminate.
    + destruct handled; cbn; repeat split; try discriminate; try tauto;
        intros [? ?]; try discriminate; contradiction.
Qed.

Lemma well_bracketed_cons (b : bool) (x : TouchStatus) (l : list TouchStatus) :
  well_bracketed b (x :: l)
  = well_bracketed b [x] && well_bracketed (in_sequence_after b [x]) l.
Proof.
  destruct x, b; cbn; rewrite ?andb_true_r; reflexivity.
Qed.

(** X12. TestView's touch sequences are well bracketed, whatever touch and
    mouse events arrive and however often the test calls Reset or rewrites
    [last_touch_event_was_handled_] in between (neither Reset nor a mouse
    event ends a sequence): TOUCH_STATUS_START is returned only outside a sequence and
    TOUCH_STATUS_END only inside one, so the two alternate; inside a sequence
    no event is answered TOUCH_STATUS_UNKNOWN; and the view ends in a
    sequence exactly when the last of the two it returned was a start. *)
Theorem touch_sequences_are_well_bracketed (steps : list Step) (v : TestView) :
  well_bracketed (in_touch_sequence_ v) (fst (run' steps v)) = true
  /\ in_touch_sequence_ (snd (run' steps v))
     = in_sequence_after (in_touch_sequence_ v) (fst (run' steps v)).
Proof.
  revert v. induction steps as [|step steps IH]; intros v.
  - split; reflexivity.
  - destruct step as [event|h event| |b]; cbn [run].
    + pose proof (OnTouchEvent_step event v) as (Hwb & Hseq & _).
      destruct (OnTouchEvent' event v) as [status v1]. cbn [fst snd] in *.
      specialize (IH v1). destruct (run' steps v1) as [statuses v2].
      cbn [fst snd] in *. destruct IH as [IHwb IHseq].
      split.
      * rewrite well_bracketed_cons, Hwb, <- Hseq. exact IHwb.
      * rewrite IHseq, Hseq. destruct status; reflexivity.
    + destruct h; apply (IH (record_mouse_event event v)).
    + apply (IH (Reset v)).
    + match goal with
      | |- context [run' steps ?v1] => apply (IH v1)
      end.
Qed.

End Handlers.

Lemma default_last_cons {A} (d r : A) (rs : list A) :
  default d (last (r :: rs)) = default r (last rs).
Proof.
  destruct rs as [|x l]; [reflexivity|].
  rewrite last_cons. destruct (last (x :: l)); reflexivity.
Qed.

(** X13. MockGestureManager::ProcessTouchEventForGesture returns true exactly
    for the status TOUCH_STATUS_UNKNOWN, and it never sets
    [previously_handled_flag_]: after any run of calls the flag is set only
    if it was set before and no call returned true.  After the run
    [dispatched_synthetic_event_] is what the last call returned. *)
Theorem gesture_manager_never_sets_handled_flag
  (calls : list (TouchEvent * option nat * TouchStatus))
  (gm : MockGestureManager) :
  fst (process_all calls gm)
  = map (fun c => bool_decide (snd c = TOUCH_STATUS_UNKNOWN)) calls
  /\ previously_handled_flag_ (snd (process_all calls gm))
     = previously_handled_flag_ gm
       && forallb negb (fst (process_all calls gm))
  /\ dispatched_synthetic_event_ (snd (process_all calls gm))
     = default (dispatched_synthetic_event_ gm)
         (last (fst (process_all calls gm))).
Proof.
  revert gm. induction calls as [|[[event source] status] calls IH]; intros gm.
  - cbn. rewrite andb_true_r. auto.
  - cbn [process_all]. unfold ProcessTouchEventForGesture.
    destruct (bool_decide (status = TOUCH_STATUS_UNKNOWN)) eqn:Hs;
      cbn [negb];
      match goal with
      | |- context [process_all calls ?g] =>
          destruct (IH g) as (IHr & IHf & IHd);
          destruct (process_all calls g) as [rs gm2]
      end;
      cbn [fst snd map previously_handled_flag_ dispatched_synthetic_event_]
        in *;
      rewrite Hs, IHf, IHd, IHr, default_last_cons; cbn [forallb negb andb];
      rewrite ?andb_false_r; auto.
Qed.

End TouchTestProps.

(** ** Accelerators *)

Module AcceleratorProps.
Import Accelerators.

Lemma wrap_int_small (z : Z) :
  INT_MIN <= z <= INT_MAX -> wrap_int z = z.
Proof.
  unfold INT_MIN, INT_MAX, wrap_int. intros H.
  rewrite Z.mod_small by lia. lia.
Qed.

Lemma wrap_int_add (x y : Z) : wrap_int (wrap_int x + y) = wrap_int (x + y).
Proof.
  unfold wrap_int. f_equal.
  replace ((x + 2 ^ 31) mod 2 ^ 32 - 2 ^ 31 + y + 2 ^ 31)
    with ((x + 2 ^ 31) mod 2 ^ 32 + y) by lia.
  rewrite Zplus_mod_idemp_l. f_equal. lia.
Qed.

Lemma presses_of_pos (a : Accelerator) (l : list Accelerator) :
  0 < presses_of a l <-> a ∈ l.
Proof.
  unfold presses_of. induction l as [|x l IH].
  - cbn. split; [lia|]. intros H. inversion H.
  - rewrite elem_of_cons. destruct (decide (x = a)) as [->|Hne].
    + rewrite filter_cons_True by reflexivity. cbn [length]. split; [auto|lia].
    + rewrite filter_cons_False by exact Hne. rewrite IH. split; [auto|].
      intros [H|H]; [congruence|exact H].
Qed.

(** X15. TestView::AcceleratorPressed counts in an [int]: after any run of
    presses the count of an accelerator that was pressed is its count before
    plus the number of its presses, wrapped around to an [int]; the count of
    an accelerator that was not pressed is as before.  As long as the sum
    stays within the range of [int] the count is the sum itself; one press at
    INT_MAX gives INT_MIN.  From the empty map that Reset leaves the map holds
    exactly the accelerators pressed, and every press is reported handled. *)
Theorem AcceleratorPressed_counts (l : list Accelerator) (m : CountMap)
  (a : Accelerator) :
  (a ∈ l ->
   count_of (snd (press_all l m)) a
   = wrap_int (count_of m a + presses_of a l))
  /\ (a ∉ l -> count_of (snd (press_all l m)) a = count_of m a)
  /\ (INT_MIN <= count_of m a ->
      count_of m a + presses_of a l <= INT_MAX ->
      count_of (snd (press_all l m)) a = count_of m a + presses_of a l)
  /\ (count_of m a = INT_MAX ->
      count_of (snd (AcceleratorPressed a m)) a = INT_MIN)
  /\ fst (press_all l m) = repeat true (length l)
  /\ (is_Some (snd (press_all l ∅) !! a) <-> a ∈ l).
Proof.
  assert (Hcount : forall l m,
             count_of (snd (press_all l m)) a
             = if decide (a ∈ l)
               then wrap_int (count_of m a + presses_of a l)
               else count_of m a).
  { clear. intros l. induction l as [|x l IH]; intros m.
    - rewrite decide_False by (intros H; inversion H). reflexivity.
    - cbn [press_all snd fst AcceleratorPressed]. rewrite IH.
      unfold presses_of. destruct (decide (x = a)) as [->|Hne].
      + rewrite filter_cons_True by reflexivity.
        rewrite (decide_True (P := a ∈ a :: l)) by (left).
        unfold count_of at 1 2. rewrite lookup_insert_eq.
        cbn [from_option id length].
        fold (count_of m a). fold (presses_of a l).
        destruct (decide (a ∈ l)) as [Hin|Hout].
        * rewrite wrap_int_add. f_equal. unfold presses_of. lia.
        * assert (presses_of a l = 0) as Hz.
          { pose proof (presses_of_pos a l) as Hp.
            assert (0 <= presses_of a l) by (unfold presses_of; lia).
            destruct (decide (presses_of a l = 0)) as [E|E]; [exact E|].
            exfalso. apply Hout, Hp. lia. }
          unfold count_of at 1. rewrite lookup_insert_eq.
          cbn [from_option id]. f_equal. unfold presses_of in *. lia.
      + rewrite filter_cons_False by exact Hne.
        assert (count_of (<[x:=wrap_int (count_of m x + 1)]> m) a
                = count_of m a) as ->.
        { unfold count_of at 1 3. rewrite lookup_insert_ne by exact Hne.
          reflexivity. }
        destruct (decide (a ∈ l)) as [Hin|Hout].
        * rewrite decide_True by (right; exact Hin). reflexivity.
        * rewrite decide_False; [reflexivity|].
          intros H. apply elem_of_cons in H. destruct H; congruence. }
  assert (Hkeys : forall l m,
             is_Some (snd (press_all l m) !! a) <-> is_Some (m !! a) \/ a ∈ l).
  { clear. intros l. induction l as [|x l IH]; intros m.
    - cbn. split; [auto|]. intros [H|H]; [exact H|inversion H].
    - cbn [press_all snd fst AcceleratorPressed]. rewrite IH, elem_of_cons.
      destruct (decide (x = a)) as [->|Hne].
      + rewrite lookup_insert_eq. split; [auto|]. intros _. left. eauto.
      + rewrite lookup_insert_ne by exact Hne. split.
        * intros [H|H]; auto.
        * intros [H|[H|H]]; auto. congruence. }
  split; [|split; [|split; [|split; [|split]]]].
  - intros Hin. rewrite Hcount, decide_True by exact Hin. reflexivity.
  - intros Hout. rewrite Hcount, decide_False by exact Hout. reflexivity.
  - intros Hlo Hhi. rewrite Hcount.
    assert (0 <= presses_of a l) by (unfold presses_of; lia).
    destruct (decide (a ∈ l)) as [Hin|Hout].
    + apply wrap_int_small. lia.
    + pose proof (presses_of_pos a l) as Hp.
      destruct (decide (presses_of a l = 0)) as [E|E]; [lia|].
      exfalso. apply Hout, Hp. lia.
  - intros Hmax. cbn [AcceleratorPressed snd]. unfold count_of at 1.
    rewrite lookup_insert_eq. cbn [from_option id]. rewrite Hmax.
    reflexivity.
  - clear. revert m. induction l as [|x l IH]; intros m; [reflexivity|].
    cbn [press_all fst snd AcceleratorPressed length repeat]. rewrite IH.
    reflexivity.
  - rewrite Hkeys, lookup_empty. split.
    + intros [[? H]|H]; [discriminate|exact H].
    + auto.
Qed.

(** Return pressed twice and Escape once. *)
Example AcceleratorPressed_test :
  let return_accelerator : Accelerator := (0x0D, false, false, false) in
  let escape_accelerator : Accelerator := (0x1B, false, false, false) in
  let m := snd (press_all [return_accelerator; escape_accelerator;
                           return_accelerator] ∅) in
  count_of m return_accelerator = 2
  /\ count_of m escape_accelerator = 1
  /\ count_of m (0x0D, true, false, false) = 0.
Proof. repeat split. Qed.

End AcceleratorProps.

(** ** LayerIsAncestor *)

Module LayerWalkProps.
Import LayerWalk.

Section Layers.
Context {Layer : Type} `{EqDecision Layer}.
Variable parent : Layer -> option Layer.

Lemma on_the_way_up_inv (a l : Layer) :
  on_the_way_up parent a l <->
  l = a \/ exists q, parent l = Some q /\ on_the_way_up parent a q.
Proof.
  split.
  - intros Hup. inversion Hup; subst; eauto.
  - intros [->|(q & Hq & Hup)]; [constructor|econstructor; eauto].
Qed.

(** X17. LayerIsAncestor, given as many steps as [layer] has layers above it,
    returns; it returns true exactly when [ancestor] is NULL, or is [layer]
    itself, or is one of the layers above [layer].  So every layer has the
    null layer for ancestor, and is its own ancestor. *)
Theorem LayerIsAncestor_decides_the_way_up
  (fuel n : nat) (ancestor layer : option Layer) :
  layers_above parent layer n -> (n <= fuel)%nat ->
  exists b,
    LayerIsAncestor parent fuel ancestor layer = Some b
    /\ (b = true <->
        ancestor = None
        \/ exists a l, ancestor = Some a /\ layer = Some l
                       /\ on_the_way_up parent a l).
Proof.
  intros Habove. revert fuel.
  induction Habove as [|l n Habove IH]; intros fuel Hle.
  - eexists. split.
    + destruct fuel; reflexivity.
    + rewrite bool_decide_eq_true. split.
      * intros <-. left. reflexivity.
      * intros [->|(a & l & _ & Hl & _)]; [reflexivity|discriminate].
  - destruct fuel as [|f]; [lia|]. cbn [LayerIsAncestor].
    destruct (decide (Some l = ancestor)) as [<-|Hne].
    + exists true. split.
      * rewrite bool_decide_eq_true_2 by reflexivity. reflexivity.
      * split; [|reflexivity]. intros _. right.
        exists l, l. repeat split. constructor.
    + destruct (IH f) as (b & Hrun & Hb); [lia|].
      exists b. split; [exact Hrun|]. rewrite Hb. split.
      * intros [->|(a & q & -> & Hq & Hup)]; [left; reflexivity|].
        right. exists a, l. repeat split. econstructor; eauto.
      * intros [->|(a & l' & -> & [= <-] & Hup)]; [left; reflexivity|].
        right. apply on_the_way_up_inv in Hup as [->|(q & Hq & Hup)].
        -- contradiction.
        -- exists a, q. auto.
Qed.

End Layers.

(** In a stack of layers, layer 3 has four layers at or above it, and among
    them layer 1. *)
Lemma LayerIsAncestor_decides_the_way_up_witness :
  layers_above stack_parent (Some 3%nat) 4
  /\ (4 <= 4)%nat
  /\ exists b,
       LayerIsAncestor stack_parent 4 (Some 1%nat) (Some 3%nat) = Some b
       /\ (b = true <->
           Some 1%nat = None
           \/ exists a l, Some 1%nat = Some a /\ Some 3%nat = Some l
                          /\ on_the_way_up stack_parent a l).
Proof.
  split; [repeat constructor|]. split; [lia|].
  apply (LayerIsAncestor_decides_the_way_up stack_parent 4 4);
    [repeat constructor|lia].
Defined.

End LayerWalkProps.

(** ** The tree walks *)

Module TreeWalkProps.
Import TreeWalk.

Lemma NoDup_flat_map {A B : Type} (g : A -> list B) (l : list A) :
  NoDup l ->
  (forall x, x ∈ l -> NoDup (g x)) ->
  (forall x y z, x ∈ l -> y ∈ l -> z ∈ g x -> z ∈ g y -> x = y) ->
  NoDup (flat_map g l).
Proof.
  induction l as [|a l IH]; intros Hnd Hg Hdisj; cbn [flat_map].
  - constructor.
  - apply NoDup_cons in Hnd as [Ha Hnd]. apply NoDup_app. split; [|split].
    + apply Hg. left.
    + intros z Hz Hz'. apply list_elem_of_In, in_flat_map in Hz'.
      destruct Hz' as (y & Hy & Hzy). apply list_elem_of_In in Hy, Hzy.
      assert (a = y) by (apply (Hdisj a y z); [left|right| |]; assumption).
      subst y. contradiction.
    + apply IH; [assumption| |].
      * intros x Hx. apply Hg. right. exact Hx.
      * intros x y z Hx Hy. apply Hdisj; right; assumption.
Qed.

Lemma elem_of_flat_map {A B : Type} (g : A -> list B) (l : list A) (z : B) :
  z ∈ flat_map g l <-> exists x, x ∈ l /\ z ∈ g x.
Proof.
  rewrite list_elem_of_In, in_flat_map. split; intros (x & Hx & Hz);
    exists x; [rewrite !list_elem_of_In|rewrite <- !list_elem_of_In]; auto.
Qed.

Section Walk.
Context {Node : Type} `{EqDecision Node}.
Variable parent : Node -> option Node.
Variable children : Node -> list Node.

Local Abbreviation First' := (First children).
Local Abbreviation postorder' := (postorder children).
Local Abbreviation fits' := (fits children).
Local Abbreviation below' := (below children).
Local Abbreviation up' := (up parent).

Lemma First_more_steps (f F : nat) (v x : Node) :
  First' f v = Some x -> (f <= F)%nat -> First' F v = Some x.
Proof.
  revert F v. induction f as [|f IH]; intros F v Hrun Hle.
  - destruct F as [|F]; cbn [First] in *; destruct (children v);
      try discriminate; exact Hrun.
  - destruct F as [|F]; [lia|]. cbn [First] in *.
    destruct (children v) as [|c cs]; [exact Hrun|].
    apply IH; [exact Hrun|lia].
Qed.

Lemma postorder_last (f : nat) (v : Node) : last (postorder' f v) = Some v.
Proof. destruct f; cbn [postorder]; [reflexivity|apply last_snoc]. Qed.

Lemma postorder_self (f : nat) (v : Node) : v ∈ postorder' f v.
Proof.
  destruct f; cbn [postorder]; [left|].
  apply elem_of_app. right. left.
Qed.

Lemma fits_more (f : nat) (v : Node) : fits' f v -> fits' (S f) v.
Proof.
  revert v. induction f as [|f IH]; intros v Hf.
  - cbn [fits] in *. intros c Hc. rewrite Hf in Hc. inversion Hc.
  - intros c Hc. apply IH. apply Hf. exact Hc.
Qed.

(** The loop of First ends at the first node of the post-order. *)
Lemma First_postorder (f : nat) (v : Node) :
  fits' f v -> First' f v = head (postorder' f v).
Proof.
  revert v. induction f as [|f IH]; intros v Hf.
  - cbn [fits] in Hf. cbn [First postorder]. rewrite Hf. reflexivity.
  - cbn [First postorder]. destruct (children v) as [|c cs] eqn:Hcs.
    + reflexivity.
    + cbn [flat_map]. rewrite IH by (apply Hf; rewrite Hcs; left).
      pose proof (postorder_last f c) as Hlast.
      destruct (postorder' f c) as [|x l]; [discriminate|]. reflexivity.
Qed.

Lemma follows_app (next : Node -> Walk (option Node)) (l1 l2 : list Node)
  (a : Node) :
  follows next (l1 ++ [a]) -> follows next (a :: l2) ->
  follows next (l1 ++ a :: l2).
Proof.
  induction l1 as [|x l1 IH]; intros H1 H2; [exact H2|].
  destruct l1 as [|y l1]; cbn [app follows] in *.
  - destruct H1 as [Hx _]. split; [exact Hx|exact H2].
  - destruct H1 as [Hx H1]. split; [exact Hx|]. apply IH; assumption.
Qed.

Section Next.
(** What NextView and NextLayer have in common: at a root, null; at a child
    with siblings after it, the first node under the next sibling; at a last
    child, the parent. *)
Variable F : nat.
Variable next : Node -> Walk (option Node).
Hypothesis next_sibling : forall v p pre post,
  parent v = Some p -> children p = pre ++ v :: post -> v ∉ pre ->
  next v = match post with
           | [] => Reached (Some p)
           | c :: _ =>
               match First' F c with
               | Some x => Reached (Some x)
               | None => OutOfSteps
               end
           end.
Hypothesis link : forall p c, c ∈ children p <-> parent c = Some p.
Hypothesis nodup : forall p, NoDup (children p).

Lemma siblings_follow (f : nat) (v : Node) (post pre : list Node) :
  (f <= F)%nat ->
  children v = pre ++ post ->
  (forall c, c ∈ post -> fits' f c /\ follows next (postorder' f c)) ->
  follows next (flat_map (postorder' f) post ++ [v])
  /\ head (flat_map (postorder' f) post ++ [v])
     = match post with
       | [] => Some v
       | c :: _ => First' f c
       end.
Proof.
  intros HfF. revert pre. induction post as [|c post IH]; intros pre Hcs Hsub.
  - split; [exact I|reflexivity].
  - cbn [flat_map].
    destruct (Hsub c) as [Hfit Hfol]; [left|].
    destruct (IH (pre ++ [c])) as [IHfol IHhead].
    { rewrite <- app_assoc. exact Hcs. }
    { intros c' Hc'. apply Hsub. right. exact Hc'. }
    pose proof (postorder_last f c) as Hlast.
    apply last_Some in Hlast as [l0 Hl0].
    split.
    + rewrite Hl0, <- !app_assoc. cbn [app].
      apply follows_app; [rewrite <- Hl0; exact Hfol|].
      assert (Hnext : next c
                      = match post with
                        | [] => Reached (Some v)
                        | c' :: _ =>
                            match First' F c' with
                            | Some x => Reached (Some x)
                            | None => OutOfSteps
                            end
                        end).
      { apply (next_sibling c v pre post).
        - apply link. rewrite Hcs. apply elem_of_app. right. left.
        - exact Hcs.
        - pose proof (nodup v) as Hnd. rewrite Hcs in Hnd.
          apply NoDup_app in Hnd as (_ & Hnd & _).
          intros Hin. apply (Hnd c Hin). left. }
      destruct post as [|c' post'].
      * cbn [flat_map app follows]. split; [exact Hnext|exact I].
      * destruct (Hsub c') as [Hfit' _]; [right; left|].
        pose proof (First_postorder f c' Hfit') as Hfirst.
        pose proof (postorder_last f c') as Hl.
        cbn [flat_map] in IHfol |- *.
        destruct (postorder' f c') as [|x l]; [discriminate|].
        cbn [app head follows] in Hfirst, IHfol |- *.
        split; [|exact IHfol].
        rewrite Hnext, (First_more_steps f F c' x Hfirst HfF). reflexivity.
    + rewrite (First_postorder f c Hfit), Hl0.
      destruct l0; reflexivity.
Qed.

(** Following [next] from the first node under [v] goes through the
    post-order of the tree under [v]. *)
Lemma postorder_follows (f : nat) (v : Node) :
  (f <= F)%nat -> fits' f v -> follows next (postorder' f v).
Proof.
  revert v. induction f as [|f IH]; intros v HfF Hfit.
  - exact I.
  - cbn [postorder].
    apply (siblings_follow f v (children v) []); [lia|reflexivity|].
    intros c Hc. split; [apply Hfit; exact Hc|].
    apply IH; [lia|apply Hfit; exact Hc].
Qed.

Lemma up_further (k : nat) (w u q : Node) :
  up' k w = Some u -> parent u = Some q -> up' (S k) w = Some q.
Proof.
  revert w. induction k as [|k IH]; intros w Hup Hq.
  - injection Hup as ->. cbn [up]. rewrite Hq. reflexivity.
  - cbn [up] in Hup. destruct (parent w) as [x|] eqn:Hw; [|discriminate].
    specialize (IH x Hup Hq). change (up' (S (S k)) w)
      with (match parent w with Some q0 => up' (S k) q0 | None => None end).
    rewrite Hw. exact IH.
Qed.

Lemma up_last (k : nat) (w q : Node) :
  up' (S k) w = Some q -> exists u, up' k w = Some u /\ parent u = Some q.
Proof.
  revert w. induction k as [|k IH]; intros w Hup.
  - cbn [up] in Hup. destruct (parent w) as [x|] eqn:Hw; [|discriminate].
    injection Hup as ->. exists w. split; [reflexivity|exact Hw].
  - change (up' (S (S k)) w)
      with (match parent w with Some q0 => up' (S k) q0 | None => None end)
      in Hup.
    destruct (parent w) as [x|] eqn:Hw; [|discriminate].
    destruct (IH x Hup) as (u & Hu & Hq). exists u. split; [|exact Hq].
    cbn [up]. rewrite Hw. exact Hu.
Qed.

Lemma up_add (a b : nat) (w u : Node) :
  up' a w = Some u -> up' (a + b) w = up' b u.
Proof.
  revert w. induction a as [|a IH]; intros w Hup.
  - injection Hup as ->. reflexivity.
  - cbn [up Nat.add] in *. destruct (parent w) as [x|]; [|discriminate].
    apply IH. exact Hup.
Qed.

(** A tree of bounded depth has no view above itself. *)
Lemma no_cycle (f : nat) (v : Node) (j : nat) :
  fits' f v -> up' (S j) v = Some v -> False.
Proof.
  revert v. induction f as [|f IH]; intros v Hfit Hup;
    destruct (up_last j v v Hup) as (u & Hu & Hpar);
    assert (Hin : u ∈ children v) by (apply link; exact Hpar).
  - cbn [fits] in Hfit. rewrite Hfit in Hin. inversion Hin.
  - apply (IH u); [apply Hfit; exact Hin|].
    cbn [up]. rewrite Hpar. exact Hu.
Qed.

Lemma postorder_up (f : nat) (v w : Node) :
  w ∈ postorder' f v -> exists k, up' k w = Some v.
Proof.
  revert v. induction f as [|f IH]; intros v Hin.
  - cbn [postorder] in Hin. apply list_elem_of_singleton in Hin as ->.
    exists 0%nat. reflexivity.
  - cbn [postorder] in Hin. apply elem_of_app in Hin as [Hin|Hin].
    + apply elem_of_flat_map in Hin as (c & Hc & Hw).
      destruct (IH c Hw) as [k Hk]. exists (S k).
      apply (up_further k w c v Hk). apply link. exact Hc.
    + apply list_elem_of_singleton in Hin as ->. exists 0%nat. reflexivity.
Qed.

Lemma siblings_apart_le (f : nat) (v c1 c2 w : Node) (k1 k2 : nat) :
  fits' f v -> c1 ∈ children v -> c2 ∈ children v ->
  up' k1 w = Some c1 -> up' k2 w = Some c2 -> (k1 <= k2)%nat -> c1 = c2.
Proof.
  intros Hfit H1 H2 Hk1 Hk2 Hle.
  replace k2 with (k1 + (k2 - k1))%nat in Hk2 by lia.
  rewrite (up_add k1 (k2 - k1) w c1 Hk1) in Hk2.
  destruct (k2 - k1)%nat as [|d]; [injection Hk2 as ->; reflexivity|].
  exfalso. apply (no_cycle f v d Hfit).
  apply link in H1, H2.
  cbn [up] in Hk2. rewrite H1 in Hk2.
  apply (up_further d v c2 v Hk2 H2).
Qed.

Lemma siblings_apart (f : nat) (v c1 c2 w : Node) (k1 k2 : nat) :
  fits' f v -> c1 ∈ children v -> c2 ∈ children v ->
  up' k1 w = Some c1 -> up' k2 w = Some c2 -> c1 = c2.
Proof.
  intros Hfit H1 H2 Hk1 Hk2. destruct (decide (k1 <= k2)%nat).
  - eapply siblings_apart_le; eauto.
  - symmetry. eapply (siblings_apart_le f v c2 c1); eauto. lia.
Qed.

(** No node is met twice. *)
Lemma postorder_NoDup (f : nat) (v : Node) :
  fits' f v -> NoDup (postorder' f v).
Proof.
  revert v. induction f as [|f IH]; intros v Hfit.
  - cbn [postorder]. apply NoDup_singleton.
  - cbn [postorder]. apply NoDup_app. split; [|split].
    + apply NoDup_flat_map.
      * apply nodup.
      * intros c Hc. apply IH, Hfit, Hc.
      * intros c1 c2 w H1 H2 Hw1 Hw2.
        destruct (postorder_up f c1 w Hw1) as [k1 Hk1].
        destruct (postorder_up f c2 w Hw2) as [k2 Hk2].
        apply (siblings_apart (S f) v c1 c2 w k1 k2); assumption.
    + intros w Hw Hv. apply list_elem_of_singleton in Hv as ->.
      apply elem_of_flat_map in Hw as (c & Hc & Hw).
      destruct (postorder_up f c v Hw) as [k Hk].
      apply (no_cycle (S f) v k Hfit).
      apply (up_further k v c v Hk). apply link. exact Hc.
    + apply NoDup_singleton.
Qed.

End Next.

Lemma below_under_child (v c w : Node) :
  c ∈ children v -> below' c w -> below' v w.
Proof.
  intros Hc Hb. induction Hb as [|u w _ IH Hw].
  - apply below_child with v; [constructor|exact Hc].
  - apply below_child with u; assumption.
Qed.

Lemma postorder_closed (f : nat) (v u w : Node) :
  fits' f v -> u ∈ postorder' f v -> w ∈ children u -> w ∈ postorder' f v.
Proof.
  revert v. induction f as [|f IH]; intros v Hfit Hu Hw.
  - cbn [postorder fits] in *. apply list_elem_of_singleton in Hu as ->.
    rewrite Hfit in Hw. inversion Hw.
  - cbn [postorder] in *. apply elem_of_app. left.
    apply elem_of_flat_map.
    apply elem_of_app in Hu as [Hu|Hu].
    + apply elem_of_flat_map in Hu as (c & Hc & Hu).
      exists c. split; [exact Hc|]. apply IH; [apply Hfit| |]; assumption.
    + apply list_elem_of_singleton in Hu as ->.
      exists w. split; [exact Hw|apply postorder_self].
Qed.

(** The post-order holds the nodes at and below [v], and no other. *)
Lemma postorder_below (f : nat) (v w : Node) :
  fits' f v -> (w ∈ postorder' f v <-> below' v w).
Proof.
  intros Hfit. split.
  - clear Hfit. revert v. induction f as [|f IH]; intros v Hin.
    + cbn [postorder] in Hin. apply list_elem_of_singleton in Hin as ->.
      constructor.
    + cbn [postorder] in Hin. apply elem_of_app in Hin as [Hin|Hin].
      * apply elem_of_flat_map in Hin as (c & Hc & Hw).
        apply (below_under_child v c w Hc). apply IH. exact Hw.
      * apply list_elem_of_singleton in Hin as ->. constructor.
  - intros Hb. induction Hb as [|u w _ IH Hw].
    + apply postorder_self.
    + apply (postorder_closed f v u w); assumption.
Qed.

End Walk.

(** *** The walk over views *)

Section Views.
Import Views ViewsProps.

Lemma below_descendant (s : Store) (v w : ViewId) :
  below (children s) v w <-> descendant_or_self s v w.
Proof.
  split; intros Hb; induction Hb as [|u w _ IH Hw];
    try constructor; econstructor; eauto.
Qed.

Lemma consistent_fits (s : Store) :
  consistent s ->
  forall (k n : nat) (v : ViewId),
    Rooted s v n -> (length s <= n + k)%nat -> fits (children s) k v.
Proof.
  intros Hwf.
  assert (Hchild : forall v c n,
             Rooted s v n -> c ∈ children s v -> Rooted s c (S n)).
  { intros v c n HR Hc. apply Rooted_step with v; [|exact HR].
    apply (consistent_link s Hwf). exact Hc. }
  induction k as [|k IH]; intros n v HR Hle.
  - cbn [fits]. destruct (children s v) as [|c cs] eqn:Hcs; [reflexivity|].
    assert (HS : Rooted s c (S n)).
    { apply (Hchild v c n HR). rewrite Hcs. left. }
    pose proof (depth_bounded s c (S n) Hwf HS). lia.
  - intros c Hc. apply (IH (S n)); [apply (Hchild v c n HR Hc)|lia].
Qed.

Lemma consistent_fits_store (s : Store) (v : ViewId) :
  consistent s -> fits (children s) (length s) v.
Proof.
  intros Hwf. destruct (consistent_rooted s Hwf v) as [n HR].
  apply (consistent_fits s Hwf (length s) n v HR). lia.
Qed.

Lemma index_of_middle (v : ViewId) (pre post : list ViewId) :
  v ∉ pre -> index_of v (pre ++ v :: post) = Some (length pre).
Proof.
  induction pre as [|x pre IH]; intros Hnot; cbn [app index_of length].
  - rewrite decide_True by reflexivity. reflexivity.
  - rewrite decide_False.
    + rewrite IH; [reflexivity|]. intros Hin. apply Hnot. right. exact Hin.
    + intros ->. apply Hnot. left.
Qed.

Lemma NextView_sibling (F : nat) (s : Store) (v p : ViewId)
  (pre post : list ViewId) :
  parent s v = Some p -> children s p = pre ++ v :: post -> v ∉ pre ->
  NextView F s v
  = match post with
    | [] => Reached (Some p)
    | c :: _ =>
        match First (children s) F c with
        | Some x => Reached (Some x)
        | None => OutOfSteps
        end
    end.
Proof.
  intros Hp Hcs Hnot. unfold NextView, GetIndexOf, child_count, child_at.
  rewrite Hp, Hcs, (index_of_middle v pre post Hnot).
  rewrite length_app. cbn [length].
  destruct post as [|c post].
  - rewrite decide_False by (cbn [length]; lia). reflexivity.
  - rewrite decide_True by (cbn [length]; lia).
    replace (Z.of_nat (length pre) + 1 <? 0) with false
      by (symmetry; apply Z.ltb_ge; lia).
    replace (Z.to_nat (Z.of_nat (length pre) + 1)) with (S (length pre))
      by lia.
    replace (pre ++ v :: c :: post) with ((pre ++ [v]) ++ c :: post)
      by (rewrite <- app_assoc; reflexivity).
    rewrite (list_lookup_middle (pre ++ [v]) post c (S (length pre)))
      by (rewrite length_app; cbn [length]; lia).
    reflexivity.
Qed.

(** X18. In a store whose parent pointers and child lists are consistent,
    the walk of FirstView and NextView is the post-order walk of the tree
    under a view: FirstView returns its first view; from each view NextView
    returns the one after it, down to the view itself, which comes last; no
    view is met twice, the views met are the view and those below it, and
    NextView returns for every view of the store - as many steps as the
    store has views are enough for its loop, and it never indexes a child
    vector outside its range.  (GetIndexOf is the position in the child
    vector.) *)
Theorem NextView_walks_in_post_order (s : Store) (view : ViewId) :
  consistent s ->
  let F := length s in
  let l := postorder (children s) F view in
  FirstView F s view = head l
  /\ last l = Some view
  /\ follows (NextView F s) l
  /\ NoDup l
  /\ (forall w, w ∈ l <-> descendant_or_self s view w)
  /\ (forall v, exists r, NextView F s v = Reached r).
Proof.
  intros Hwf F l.
  pose proof (consistent_fits_store s view Hwf) as Hfit.
  pose proof (consistent_link s Hwf) as Hlink.
  pose proof (consistent_nodup s Hwf) as Hnd.
  split; [apply First_postorder; exact Hfit|].
  split; [apply postorder_last|].
  split.
  { apply (postorder_follows (parent s) (children s) F (NextView F s));
      [apply NextView_sibling|exact Hlink|exact Hnd|lia|exact Hfit]. }
  split.
  { apply (postorder_NoDup (parent s) (children s)) with (f := F);
      assumption. }
  split.
  { intros w. rewrite <- below_descendant. apply postorder_below. exact Hfit. }
  intros v. destruct (parent s v) as [p|] eqn:Hp.
  - assert (Hin : v ∈ children s p) by (apply Hlink; exact Hp).
    apply list_elem_of_split_l in Hin as (pre & post & Hcs & Hnot).
    rewrite (NextView_sibling F s v p pre post Hp Hcs Hnot).
    destruct post as [|c post]; [eauto|].
    rewrite (First_postorder (children s) F c)
      by (apply consistent_fits_store; exact Hwf).
    pose proof (postorder_last (children s) F c) as Hlast.
    destruct (postorder (children s) F c); [discriminate|]. cbn [head]. eauto.
  - unfold NextView. rewrite Hp. eauto.
Qed.

End Views.

(** In the tree of ViewTest.GetIndexOf the walk from the root goes foo1,
    child1, child2, root. *)
Lemma NextView_walks_in_post_order_witness :
  Views.consistent Views.GetIndexOf_tree
  /\ postorder (Views.children Views.GetIndexOf_tree) 4 0%nat
     = [3%nat; 1%nat; 2%nat; 0%nat]
  /\ FirstView 4 Views.GetIndexOf_tree 0%nat = Some 3%nat
  /\ follows (NextView 4 Views.GetIndexOf_tree)
       [3%nat; 1%nat; 2%nat; 0%nat].
Proof.
  assert (Hwf : Views.consistent Views.GetIndexOf_tree).
  { apply ViewsProps.built_consistent. unfold Views.GetIndexOf_tree.
    ViewsProps.build_store. }
  split; [exact Hwf|]. split; [reflexivity|].
  destruct (NextView_walks_in_post_order Views.GetIndexOf_tree 0%nat Hwf)
    as (Hfirst & _ & Hfollows & _).
  split; [exact Hfirst|exact Hfollows].
Defined.

(** *** The walk over layers *)

Section Layers.
Context {Layer : Type} `{EqDecision Layer}.
Variable parent : Layer -> option Layer.
Variable children : Layer -> list Layer.

Lemma position_middle (l : Layer) (pre post : list Layer) :
  l ∉ pre -> position l (pre ++ l :: post) = length pre.
Proof.
  induction pre as [|x pre IH]; intros Hnot; cbn [app position length].
  - rewrite decide_True by reflexivity. reflexivity.
  - rewrite decide_False.
    + rewrite IH; [reflexivity|]. intros Hin. apply Hnot. right. exact Hin.
    + intros ->. apply Hnot. left.
Qed.

Lemma position_le (l : Layer) (cs : list Layer) :
  (position l cs <= length cs)%nat.
Proof.
  induction cs as [|c cs IH]; cbn [position length]; [lia|].
  destruct (decide (c = l)); lia.
Qed.

Lemma NextLayer_sibling (F : nat) (l p : Layer) (pre post : list Layer) :
  parent l = Some p -> children p = pre ++ l :: post -> l ∉ pre ->
  NextLayer parent children F l
  = match post with
    | [] => Reached (Some p)
    | c :: _ =>
        match First children F c with
        | Some x => Reached (Some x)
        | None => OutOfSteps
        end
    end.
Proof.
  intros Hp Hcs Hnot. unfold NextLayer.
  rewrite Hp, Hcs, (position_middle l pre post Hnot).
  rewrite length_app. cbn [length].
  destruct post as [|c post].
  - rewrite decide_False by (cbn [length]; lia). reflexivity.
  - rewrite decide_True by (cbn [length]; lia).
    replace (pre ++ l :: c :: post) with ((pre ++ [l]) ++ c :: post)
      by (rewrite <- app_assoc; reflexivity).
    rewrite (list_lookup_middle (pre ++ [l]) post c (length pre + 1))
      by (rewrite length_app; cbn [length]; lia).
    reflexivity.
Qed.

(** X19. In a layer tree whose parent pointers and child vectors agree, with
    no layer twice in a vector, and which is at most [F] levels deep under
    [layer], the walk of FirstLayer and NextLayer is the post-order walk of
    the tree under [layer]: FirstLayer returns its first layer, from each
    layer NextLayer returns the one after it, [layer] comes last, no layer
    is met twice, and the layers met are [layer] and those below it. *)
Theorem NextLayer_walks_in_post_order (F : nat) (layer : Layer) :
  (forall p c, c ∈ children p <-> parent c = Some p) ->
  (forall p, NoDup (children p)) ->
  fits children F layer ->
  let l := postorder children F layer in
  First children F layer = head l
  /\ last l = Some layer
  /\ follows (NextLayer parent children F) l
  /\ NoDup l
  /\ (forall w, w ∈ l <-> below children layer w).
Proof.
  intros Hlink Hnd Hfit l.
  split; [apply First_postorder; exact Hfit|].
  split; [apply postorder_last|].
  split.
  { apply (postorder_follows parent children F (NextLayer parent children F));
      [apply NextLayer_sibling|exact Hlink|exact Hnd|lia|exact Hfit]. }
  split.
  { apply (postorder_NoDup parent children) with (f := F); assumption. }
  intros w. apply postorder_below. exact Hfit.
Qed.

End Layers.

Lemma small_tree_link (p c : nat) :
  c ∈ small_children p <-> small_parent c = Some p.
Proof.
  split.
  - destruct p as [|[|p]]; cbn; intros Hin;
      repeat (apply elem_of_cons in Hin as [->|Hin]; [reflexivity|]);
      inversion Hin.
  - destruct c as [|[|[|[|c]]]]; cbn; intros [= <-]; cbn;
      repeat constructor.
Qed.

Lemma small_tree_nodup (p : nat) : NoDup (small_children p).
Proof.
  destruct p as [|[|p]]; cbn; repeat constructor;
    rewrite ?elem_of_cons; intros H;
    repeat (destruct H as [H|H]; [discriminate|]); inversion H.
Qed.

Lemma small_tree_fits : fits small_children 2 0%nat.
Proof.
  cbn. intros c Hc.
  repeat (apply elem_of_cons in Hc as [->|Hc]);
    [| |inversion Hc]; cbn; intros d Hd;
    repeat (apply elem_of_cons in Hd as [->|Hd]);
    try reflexivity; inversion Hd.
Qed.

(** In the small layer tree the walk from the root goes 3, 1, 2, 0. *)
Lemma NextLayer_walks_in_post_order_witness :
  postorder small_children 2 0%nat = [3%nat; 1%nat; 2%nat; 0%nat]
  /\ First small_children 2 0%nat = Some 3%nat
  /\ follows (NextLayer small_parent small_children 2)
       [3%nat; 1%nat; 2%nat; 0%nat].
Proof.
  split; [reflexivity|].
  destruct (NextLayer_walks_in_post_order small_parent small_children 2 0%nat
              small_tree_link small_tree_nodup small_tree_fits)
    as (Hfirst & _ & Hfollows & _).
  split; [exact Hfirst|exact Hfollows].
Defined.

(** X20. NextView and NextLayer never index a child vector outside its
    range, whatever the tree: NextView's [next] lies between 0 and the
    child count even when the view is not among its parent's children
    (GetIndexOf then gives -1 and the walk restarts at the first child),
    and NextLayer's is checked against the size. *)
Theorem Next_stays_in_range (fuel : nat) :
  (forall (s : Views.Store) (view : Views.ViewId),
     NextView fuel s view <> OutOfRange)
  /\ (forall (Layer : Type) (dec : EqDecision Layer)
        (parent : Layer -> option Layer) (children : Layer -> list Layer)
        (layer : Layer),
       NextLayer parent children fuel layer <> OutOfRange).
Proof.
  split.
  - intros s view. unfold NextView, Views.GetIndexOf, Views.child_count,
      child_at.
    destruct (Views.parent s view) as [p|]; [|discriminate].
    assert (Hlookup : forall i : nat,
               (i < length (Views.children s p))%nat ->
               exists c, Views.children s p !! i = Some c).
    { intros i Hi. apply lookup_lt_is_Some in Hi as [c Hc]. eauto. }
    destruct (Views.index_of view (Views.children s p)) as [i|] eqn:Hi.
    + apply ViewsProps.index_of_lookup, lookup_lt_Some in Hi.
      destruct (decide _) as [Hne|]; [|discriminate].
      replace (Z.of_nat i + 1 <? 0) with false
        by (symmetry; apply Z.ltb_ge; lia).
      destruct (Hlookup (Z.to_nat (Z.of_nat i + 1))) as [c ->]; [lia|].
      destruct (FirstView fuel s c); discriminate.
    + destruct (decide _) as [Hne|]; [|discriminate].
      change (-1 + 1 <? 0) with false.
      change (Z.to_nat (-1 + 1)) with 0%nat. cbv iota.
      destruct (Hlookup 0%nat) as [c ->]; [lia|].
      destruct (FirstView fuel s c); discriminate.
  - intros Layer dec parent children layer. unfold NextLayer.
    destruct (parent layer) as [p|]; [|discriminate].
    destruct (decide _) as [Hlt|]; [|discriminate].
    apply lookup_lt_is_Some in Hlt as [c ->].
    destruct (First children fuel c); discriminate.
Qed.

(** *** The view tree against the layer tree *)

Section Bounds.
Context {Node : Type} `{EqDecision Node}.
Variable parent : Node -> option Node.
Variable children : Node -> list Node.

Lemma fits_mono (f F : nat) (v : Node) :
  (f <= F)%nat -> fits children f v -> fits children F v.
Proof.
  intros Hle Hf. induction Hle as [|F _ IH]; [exact Hf|].
  apply fits_more. exact IH.
Qed.

Lemma follows_suffix (next : Node -> Walk (option Node)) (U l : list Node) :
  follows next (U ++ l) -> follows next l.
Proof.
  induction U as [|x U IH]; intros Hf; [exact Hf|].
  apply IH. cbn [app] in Hf. destruct (U ++ l) as [|y R]; [exact I|].
  cbn [follows] in Hf. apply Hf.
Qed.

Lemma up_none_more (a b : nat) (w : Node) :
  up parent a w = None -> up parent (a + b) w = None.
Proof.
  revert w. induction a as [|a IH]; intros w Hup; [discriminate|].
  cbn [up Nat.add] in *. destruct (parent w) as [q|]; [|reflexivity].
  apply IH. exact Hup.
Qed.

(** A tree in which no node has [N] nodes above it is at most [N] levels
    deep under every node. *)
Lemma bounded_above_fits (N : nat) :
  (forall p c, c ∈ children p <-> parent c = Some p) ->
  (forall l, up parent N l = None) ->
  forall v, fits children N v.
Proof.
  intros link Hfin.
  assert (Hclaim : forall k j v,
             is_Some (up parent j v) -> (N <= S (j + k))%nat ->
             fits children k v).
  { induction k as [|k IH]; intros j v Hup Hle.
    - cbn [fits]. destruct (children v) as [|c cs] eqn:Hcs; [reflexivity|].
      assert (Hc : parent c = Some v) by (apply link; rewrite Hcs; left).
      assert (HS : is_Some (up parent (S j) c)).
      { cbn [up]. rewrite Hc. exact Hup. }
      pose proof (up_none_more N (S j - N) c (Hfin c)) as Hnone.
      replace (N + (S j - N))%nat with (S j) in Hnone by lia.
      rewrite Hnone in HS. destruct HS as [? HS]. discriminate.
    - intros c Hc. apply (IH (S j)); [|lia].
      apply link in Hc. cbn [up]. rewrite Hc. exact Hup. }
  intros v. destruct N as [|N].
  - specialize (Hfin v). discriminate.
  - apply fits_more. apply (Hclaim N 0%nat v); [eexists; reflexivity|lia].
Qed.

Lemma climb_up (n : nat) (l : Node) :
  up parent n l = None -> climb parent n (Some l) = true.
Proof.
  revert l. induction n as [|n IH]; intros l Hup; [discriminate|].
  cbn [up climb] in *. destruct (parent l) as [q|].
  - apply IH. exact Hup.
  - destruct n; reflexivity.
Qed.

Lemma last_view_only (V : list Node) (v view : Node) :
  NoDup (v :: V) -> last (v :: V) = Some view -> (v = view <-> V = []).
Proof.
  intros Hnd Hlast. split.
  - intros ->. destruct V as [|x V]; [reflexivity|]. exfalso.
    apply NoDup_cons in Hnd as [Hnot _]. apply Hnot.
    rewrite last_cons in Hlast.
    destruct (last (x :: V)) as [y|] eqn:E.
    + injection Hlast as ->. apply last_Some in E as [l' ->].
      apply elem_of_app. right. left.
    + apply last_None in E. discriminate.
  - intros ->. cbn in Hlast. congruence.
Qed.

End Bounds.

Section Sync.
Import Views ViewsProps.
Context {Layer : Type} `{EqDecision Layer}.
Variable s : Store.
Variable layer_parent : Layer -> option Layer.
Variable layer_children : Layer -> list Layer.
Variable layer_of : ViewId -> option Layer.
Variable IsVisibleInRootView : ViewId -> bool.
Variable IsDrawn : Layer -> bool.
Variable layer_bounds : Layer -> Rect.
Variable fuel : nat.

Local Abbreviation skip_unlayered' := (skip_unlayered s layer_of fuel).
Local Abbreviation sync_loop' :=
  (sync_loop s layer_parent layer_children layer_of IsVisibleInRootView
     IsDrawn layer_bounds fuel).
Local Abbreviation in_sync' :=
  (in_sync s layer_of IsVisibleInRootView IsDrawn layer_bounds).
Local Abbreviation layered :=
  (filter (fun v : ViewId => is_Some (layer_of v))).

Lemma climb_Rooted (v : ViewId) (n k : nat) :
  Rooted s v n -> (n < k)%nat -> climb (parent s) k (Some v) = true.
Proof.
  intros HR. revert k. induction HR as [v Hv|v q n Hv _ IH]; intros k Hlt;
    (destruct k as [|k]; [lia|]); cbn [climb]; rewrite Hv.
  - destruct k; reflexivity.
  - apply IH. lia.
Qed.

(** The inner loop stops at the next view with a layer. *)
Lemma skip_unlayered_stops (view : ViewId) (V' : list ViewId) :
  is_Some (layer_of view) ->
  forall (n : nat) (v : ViewId),
    follows (NextView fuel s) (v :: V') ->
    last (v :: V') = Some view ->
    (length (v :: V') <= n)%nat ->
    exists U v1 V3,
      v :: V' = U ++ v1 :: V3
      /\ layered U = []
      /\ is_Some (layer_of v1)
      /\ skip_unlayered' n (Some v) = Reached (Some v1).
Proof.
  intros Hroot. induction V' as [|v' V' IH]; intros n v Hfol Hlast Hlen.
  - injection Hlast as ->. exists [], view, [].
    split; [reflexivity|]. split; [reflexivity|]. split; [exact Hroot|].
    destruct Hroot as [l Hl]. destruct n; cbn [skip_unlayered]; rewrite Hl;
      reflexivity.
  - destruct (layer_of v) as [l|] eqn:Hl.
    + exists [], v, (v' :: V'). split; [reflexivity|].
      split; [reflexivity|]. split; [eauto|].
      destruct n; cbn [skip_unlayered]; rewrite Hl; reflexivity.
    + cbn [follows] in Hfol. destruct Hfol as [Hnext Hfol].
      destruct n as [|n]; [cbn [length] in Hlen; lia|].
      destruct (IH n v' Hfol) as (U & v1 & V3 & Hsplit & HU & Hv1 & Hrun).
      { rewrite last_cons in Hlast.
        destruct (last (v' :: V')) eqn:E; [exact Hlast|].
        apply last_None in E. discriminate. }
      { cbn [length] in *. lia. }
      exists (v :: U), v1, V3. split; [rewrite Hsplit; reflexivity|].
      split.
      { rewrite filter_cons_False; [exact HU|].
        rewrite Hl. intros [? ?]. discriminate. }
      split; [exact Hv1|].
      cbn [skip_unlayered]. rewrite Hl, Hnext. exact Hrun.
Qed.

(** One turn of the outer loop: it returns, or goes on one view and one
    layer further. *)
Lemma sync_loop_turn (view : ViewId) (layer : Layer) :
  is_Some (layer_of view) ->
  (forall v, climb (parent s) fuel (Some v) = true) ->
  (forall l, climb layer_parent fuel (Some l) = true) ->
  forall (v : ViewId) (V' : list ViewId) (l : Layer) (L' : list Layer),
    follows (NextView fuel s) (v :: V') ->
    follows (NextLayer layer_parent layer_children fuel) (l :: L') ->
    last (v :: V') = Some view -> last (l :: L') = Some layer ->
    NoDup (v :: V') -> NoDup (l :: L') ->
    (length (v :: V') <= fuel)%nat ->
    (exists b,
       (forall n, sync_loop' view layer n (Some v) (Some l) = Reached b)
       /\ (b = true <-> Forall2 in_sync' (layered (v :: V')) (l :: L')))
    \/ (exists v1 v3 V3 l3 L3,
          L' = l3 :: L3
          /\ (length (v3 :: V3) < length (v :: V'))%nat
          /\ follows (NextView fuel s) (v3 :: V3)
          /\ last (v3 :: V3) = Some view
          /\ NoDup (v3 :: V3)
          /\ in_sync' v1 l
          /\ layered (v :: V') = v1 :: layered (v3 :: V3)
          /\ sync_loop' view layer 0 (Some v) (Some l) = OutOfSteps
          /\ forall n, sync_loop' view layer (S n) (Some v) (Some l)
                       = sync_loop' view layer n (Some v3) (Some l3)).
Proof.
  intros Hroot Hclimb_v Hclimb_l v V' l L' HfV HfL HlV HlL HnV HnL HFu.
  destruct (skip_unlayered_stops view V' Hroot fuel v HfV HlV HFu)
    as (U & v1 & V3 & Hsplit & HU & Hv1 & Hskip).
  assert (Hlayered : layered (v :: V') = v1 :: layered V3).
  { rewrite Hsplit, filter_app, HU, filter_cons_True by exact Hv1.
    reflexivity. }
  assert (HfV3 : follows (NextView fuel s) (v1 :: V3)).
  { apply (follows_suffix _ U). rewrite <- Hsplit. exact HfV. }
  assert (HlV3 : last (v1 :: V3) = Some view).
  { rewrite Hsplit, last_app in HlV.
    destruct (last (v1 :: V3)) eqn:E; [exact HlV|].
    apply last_None in E. discriminate. }
  assert (HnV3 : NoDup (v1 :: V3)).
  { rewrite Hsplit in HnV. apply NoDup_app in HnV as (_ & _ & HnV).
    exact HnV. }
  pose proof (last_view_only V3 v1 view HnV3 HlV3) as Hend_v.
  pose proof (last_view_only L' l layer HnL HlL) as Hend_l.
  assert (Hlayered_view : V3 <> [] -> layered V3 <> []).
  { intros Hne Hnil.
    assert (Hin : view ∈ layered V3).
    { apply list_elem_of_filter. split; [exact Hroot|].
      rewrite last_cons in HlV3. destruct (last V3) as [y|] eqn:E.
      - injection HlV3 as ->. apply last_Some in E as [l' ->].
        apply elem_of_app. right. left.
      - apply last_None in E. contradiction. }
    rewrite Hnil in Hin. inversion Hin. }
  assert (Hhead : forall n,
    sync_loop' view layer n (Some v) (Some l)
    = if decide (layer_of v1 <> Some l) then Reached false
      else if negb (eqb (IsVisibleInRootView v1) (IsDrawn l)) then
        if climb (parent s) fuel (Some v1) && climb layer_parent fuel (Some l)
        then Reached false else OutOfSteps
      else if decide (bounds s v1 <> layer_bounds l) then Reached false
      else if bool_decide (v1 = view) || bool_decide (l = layer) then
        Reached (bool_decide (v1 = view) && bool_decide (l = layer))
      else
        match n with
        | O => OutOfSteps
        | S m =>
            match NextView fuel s v1 with
            | Reached v' =>
                match NextLayer layer_parent layer_children fuel l with
                | Reached l' => sync_loop' view layer m v' l'
                | OutOfSteps => OutOfSteps
                | OutOfRange => OutOfRange
                end
            | OutOfSteps => OutOfSteps
            | OutOfRange => OutOfRange
            end
        end).
  { intros n. destruct n; cbn [sync_loop]; rewrite Hskip; reflexivity. }
  rewrite Hlayered.
  destruct (decide (layer_of v1 <> Some l)) as [Hne|Heq].
  { left. exists false. split; [intros n; rewrite Hhead; reflexivity|].
    split; [discriminate|].
    intros H2. inversion H2 as [|? ? ? ? [Hl _]]; subst. contradiction. }
  apply dec_stable in Heq.
  destruct (eqb (IsVisibleInRootView v1) (IsDrawn l)) eqn:Hvis.
  2:{ left. exists false. split.
      - intros n. rewrite Hhead. cbn [negb]. rewrite Hclimb_v, Hclimb_l.
        reflexivity.
      - split; [discriminate|].
        intros H2. inversion H2 as [|? ? ? ? (_ & Hv & _)]; subst.
        rewrite Hv, eqb_reflx in Hvis. discriminate. }
  apply eqb_prop in Hvis.
  destruct (decide (bounds s v1 <> layer_bounds l)) as [Hnb|Hb].
  { left. exists false. split; [intros n; rewrite Hhead; reflexivity|].
    split; [discriminate|].
    intros H2. inversion H2 as [|? ? ? ? (_ & _ & Hbd)]; subst.
    contradiction. }
  apply dec_stable in Hb.
  assert (Hpair : in_sync' v1 l) by (repeat split; assumption).
  cbn [negb] in Hhead.
  destruct (decide (v1 = view)) as [Hv1v|Hv1v];
    destruct (decide (l = layer)) as [Hll|Hll].
  - left. exists true. split.
    + intros n. rewrite Hhead, !bool_decide_eq_true_2 by assumption.
      reflexivity.
    + split; [|reflexivity]. intros _.
      apply Hend_v in Hv1v. apply Hend_l in Hll. subst V3 L'.
      rewrite filter_nil. repeat constructor; apply Hpair.
  - left. exists false. split.
    + intros n.
      rewrite Hhead, (bool_decide_eq_true_2 (v1 = view)),
        (bool_decide_eq_false_2 (l = layer)) by assumption.
      reflexivity.
    + split; [discriminate|]. intros H2.
      apply Hend_v in Hv1v. subst V3. rewrite filter_nil in H2.
      inversion H2 as [|? ? ? ? _ Hrest]; subst. inversion Hrest; subst.
      exfalso. apply Hll, Hend_l. reflexivity.
  - left. exists false. split.
    + intros n.
      rewrite Hhead, (bool_decide_eq_false_2 (v1 = view)),
        (bool_decide_eq_true_2 (l = layer)) by assumption.
      reflexivity.
    + split; [discriminate|]. intros H2.
      apply Hend_l in Hll. subst L'.
      inversion H2 as [|? ? ? ? _ Hrest]; subst.
      inversion Hrest as [E|]. exfalso.
      apply Hlayered_view; [|symmetry; exact E].
      intros ->. apply Hv1v, Hend_v. reflexivity.
  - right.
    destruct V3 as [|v3 V3]; [exfalso; apply Hv1v, Hend_v; reflexivity|].
    destruct L' as [|l3 L3]; [exfalso; apply Hll, Hend_l; reflexivity|].
    cbn [follows] in HfV3, HfL. destruct HfV3 as [HnextV HfV3].
    destruct HfL as [HnextL HfL].
    exists v1, v3, V3, l3, L3.
    split; [reflexivity|].
    split. { rewrite Hsplit, length_app. cbn [length]. lia. }
    split; [exact HfV3|].
    split. { rewrite last_cons in HlV3. destruct (last (v3 :: V3)) eqn:E;
               [exact HlV3|apply last_None in E; discriminate]. }
    split. { apply NoDup_cons in HnV3 as [_ H3]. exact H3. }
    split; [exact Hpair|].
    split; [reflexivity|].
    split.
    + rewrite Hhead, !bool_decide_eq_false_2 by assumption. reflexivity.
    + intros n.
      rewrite Hhead, !bool_decide_eq_false_2 by assumption.
      cbn [orb]. rewrite HnextV, HnextL. reflexivity.
Qed.

(** The outer loop, from any point of the two walks. *)
Lemma sync_loop_decides (view : ViewId) (layer : Layer) :
  is_Some (layer_of view) ->
  (forall v, climb (parent s) fuel (Some v) = true) ->
  (forall l, climb layer_parent fuel (Some l) = true) ->
  forall (n : nat) (v : ViewId) (V' : list ViewId) (l : Layer)
    (L' : list Layer),
    follows (NextView fuel s) (v :: V') ->
    follows (NextLayer layer_parent layer_children fuel) (l :: L') ->
    last (v :: V') = Some view -> last (l :: L') = Some layer ->
    NoDup (v :: V') -> NoDup (l :: L') ->
    (length (v :: V') <= fuel)%nat ->
    (length (v :: V') <= S n)%nat ->
    exists b,
      sync_loop' view layer n (Some v) (Some l) = Reached b
      /\ (b = true <-> Forall2 in_sync' (layered (v :: V')) (l :: L')).
Proof.
  intros Hroot Hclimb_v Hclimb_l.
  induction n as [|n IH]; intros v V' l L' HfV HfL HlV HlL HnV HnL HFu Hlen;
    destruct (sync_loop_turn view layer Hroot Hclimb_v Hclimb_l v V' l L'
                HfV HfL HlV HlL HnV HnL HFu)
      as [(b & Hrun & Hb)
         |(v1 & v3 & V3 & l3 & L3 & -> & Hshort & HfV3 & HlV3 & HnV3 & Hpair
           & Hlayered & Hzero & Hstep)];
    try (exists b; split; [apply Hrun|exact Hb]).
  - cbn [length] in *. lia.
  - assert (HfL3 : follows (NextLayer layer_parent layer_children fuel)
                     (l3 :: L3)) by exact (proj2 HfL).
    destruct (IH v3 V3 l3 L3) as (b & Hrun & Hb); try assumption.
    { apply NoDup_cons in HnL as [_ H3]. exact H3. }
    { lia. }
    { lia. }
    exists b. split; [rewrite Hstep; exact Hrun|].
    rewrite Hlayered, Hb. split.
    + intros H2. constructor; assumption.
    + intros H2. inversion H2; subst. assumption.
Qed.

Lemma below_in_store (v w : ViewId) :
  consistent s -> below (children s) v w -> w = v \/ (w < length s)%nat.
Proof.
  intros Hwf Hb. destruct Hb as [|u w _ Hw]; [left; reflexivity|right].
  apply (consistent_link s Hwf) in Hw.
  destruct (decide (w < length s)%nat) as [|Hge]; [assumption|].
  rewrite parent_out_of_range in Hw by lia. discriminate.
Qed.

Lemma postorder_length (view : ViewId) :
  consistent s -> (length s < fuel)%nat ->
  (length (postorder (children s) fuel view) <= fuel)%nat.
Proof.
  intros Hwf Hlen.
  assert (Hfit : fits (children s) fuel view).
  { apply (fits_mono (children s) (length s)); [lia|].
    apply consistent_fits_store. exact Hwf. }
  destruct (decide (view < length s)%nat) as [Hin|Hout].
  - assert (length (postorder (children s) fuel view) <= length s)%nat; [|lia].
    apply bounded_nodup_length.
    + apply (postorder_NoDup (parent s) (children s));
        [apply (consistent_link s Hwf)|apply (consistent_nodup s Hwf)
        |exact Hfit].
    + intros x Hx. apply (postorder_below (children s) fuel view x Hfit) in Hx.
      destruct (below_in_store view x Hwf Hx) as [->|]; assumption.
  - destruct fuel as [|f]; [lia|]. cbn [postorder].
    rewrite children_out_of_range by lia. cbn. lia.
Qed.

(** X21. ViewAndLayerTreeAreConsistent decides whether the two trees are in
    sync.  For a view tree with consistent parent pointers and child lists
    under a view that paints to a layer, and a layer tree whose parent
    pointers and child vectors agree, the function returns, and it returns
    true exactly when the views that paint to a layer, taken in the
    post-order of the view tree, are paired one to one with the layers of the
    layer tree in its post-order, each view with its own layer, of the same
    visibility and the same bounds. *)
Theorem ViewAndLayerTreeAreConsistent_decides (view : ViewId) (layer : Layer) :
  consistent s ->
  (length s < fuel)%nat ->
  (forall p c, c ∈ layer_children p <-> layer_parent c = Some p) ->
  (forall p, NoDup (layer_children p)) ->
  (forall l, up layer_parent fuel l = None) ->
  is_Some (layer_of view) ->
  exists b,
    ViewAndLayerTreeAreConsistent s layer_parent layer_children layer_of
      IsVisibleInRootView IsDrawn layer_bounds fuel view layer = Reached b
    /\ (b = true <->
        Forall2 in_sync' (layered (postorder (children s) fuel view))
          (postorder layer_children fuel layer)).
Proof.
  intros Hwf Hlen Hlink Hnd Hfin Hroot.
  pose proof (consistent_link s Hwf) as Hlink_v.
  pose proof (consistent_nodup s Hwf) as Hnd_v.
  assert (Hfit_v : fits (children s) fuel view).
  { apply (fits_mono (children s) (length s)); [lia|].
    apply consistent_fits_store. exact Hwf. }
  pose proof (bounded_above_fits layer_parent layer_children fuel Hlink Hfin
                layer) as Hfit_l.
  pose proof (First_postorder (children s) fuel view Hfit_v) as HfirstV.
  pose proof (First_postorder layer_children fuel layer Hfit_l) as HfirstL.
  pose proof (postorder_last (children s) fuel view) as HlastV.
  pose proof (postorder_last layer_children fuel layer) as HlastL.
  pose proof (postorder_follows (parent s) (children s) fuel (NextView fuel s)
                (NextView_sibling fuel s) Hlink_v Hnd_v fuel view (le_n _)
                Hfit_v) as HfolV.
  pose proof (postorder_follows layer_parent layer_children fuel
                (NextLayer layer_parent layer_children fuel)
                (NextLayer_sibling layer_parent layer_children fuel)
                Hlink Hnd fuel layer (le_n _) Hfit_l) as HfolL.
  pose proof (postorder_NoDup (parent s) (children s) Hlink_v Hnd_v fuel view
                Hfit_v) as HndV.
  pose proof (postorder_NoDup layer_parent layer_children Hlink Hnd fuel layer
                Hfit_l) as HndL.
  pose proof (postorder_length view Hwf Hlen) as HlenV.
  unfold ViewAndLayerTreeAreConsistent, FirstView.
  rewrite HfirstV, HfirstL.
  destruct (postorder (children s) fuel view) as [|v V']; [discriminate|].
  destruct (postorder layer_children fuel layer) as [|l L']; [discriminate|].
  cbn [head].
  apply sync_loop_decides; try assumption.
  - intros x. destruct (consistent_rooted s Hwf x) as [n HR].
    apply (climb_Rooted x n fuel HR).
    pose proof (depth_bounded s x n Hwf HR). lia.
  - intros x. apply climb_up, Hfin.
  - lia.
Qed.

End Sync.

Lemma small_tree_bounded (l : nat) : up small_parent 5 l = None.
Proof. destruct l as [|[|[|[|l]]]]; reflexivity. Qed.

(** The tree of ViewTest.GetIndexOf against the small layer tree, each view
    painting to the layer of its number: in sync. *)
Lemma ViewAndLayerTreeAreConsistent_decides_witness :
  Views.consistent Views.GetIndexOf_tree
  /\ (length Views.GetIndexOf_tree < 5)%nat
  /\ is_Some (mirror_layer 0%nat)
  /\ ViewAndLayerTreeAreConsistent Views.GetIndexOf_tree small_parent
       small_children mirror_layer always always mirror_bounds 5 0%nat 0%nat
     = Reached true
  /\ exists b,
       ViewAndLayerTreeAreConsistent Views.GetIndexOf_tree small_parent
         small_children mirror_layer always always mirror_bounds 5 0%nat 0%nat
       = Reached b
       /\ (b = true <->
           Forall2 (in_sync Views.GetIndexOf_tree mirror_layer always always
                      mirror_bounds)
             (filter (fun v : Views.ViewId => is_Some (mirror_layer v))
                (postorder (Views.children Views.GetIndexOf_tree) 5 0%nat))
             (postorder small_children 5 0%nat)).
Proof.
  assert (Hwf : Views.consistent Views.GetIndexOf_tree).
  { apply ViewsProps.built_consistent. unfold Views.GetIndexOf_tree.
    ViewsProps.build_store. }
  assert (Hlen : (length Views.GetIndexOf_tree < 5)%nat) by (vm_compute; lia).
  assert (Hroot : is_Some (mirror_layer 0%nat)) by (eexists; reflexivity).
  split; [exact Hwf|]. split; [exact Hlen|]. split; [exact Hroot|].
  split; [reflexivity|].
  exact (ViewAndLayerTreeAreConsistent_decides Views.GetIndexOf_tree
           small_parent small_children mirror_layer always always
           mirror_bounds 5 0%nat 0%nat Hwf Hlen small_tree_link
           small_tree_nodup small_tree_bounded Hroot).
Defined.

(** With view 2 painting to no layer the layer tree has a layer too many:
    not in sync.  A view tree compared with the layers under layer 1 only
    is not in sync either. *)
Example ViewAndLayerTreeAreConsistent_test :
  ViewAndLayerTreeAreConsistent Views.GetIndexOf_tree small_parent
    small_children all_but_2 always always mirror_bounds 5 0%nat 0%nat
  = Reached false
  /\ ViewAndLayerTreeAreConsistent Views.GetIndexOf_tree small_parent
       small_children mirror_layer always always mirror_bounds 5 0%nat 1%nat
     = Reached false
  /\ ViewAndLayerTreeAreConsistent Views.GetIndexOf_tree small_parent
       small_children mirror_layer always always mirror_bounds 5 1%nat 1%nat
     = Reached true.
Proof. repeat split. Qed.

End TreeWalkProps.

(** ** ConstructTree and ScrambleTree *)

Module TreeBuildProps.
Import Views ViewsProps TreeWalk TreeBuild.

Lemma grown_refl (view : ViewId) (s : Store) : consistent s -> grown view s s.
Proof. intros Hwf. split; [exact Hwf|]. split; [lia|]. split; auto. Qed.

Lemma grown_trans (view : ViewId) (s1 s2 s3 : Store) :
  grown view s1 s2 -> grown view s2 s3 -> grown view s1 s3.
Proof.
  intros (_ & Hl1 & Hp1 & Hc1) (Hwf & Hl2 & Hp2 & Hc2).
  split; [exact Hwf|]. split; [lia|]. split.
  - intros u Hu. rewrite Hp2 by lia. apply Hp1. exact Hu.
  - intros u Hu Hne. rewrite Hc2 by (lia || assumption). apply Hc1; assumption.
Qed.

Lemma child_in_store (s : Store) (p c : ViewId) :
  consistent s -> c ∈ children s p -> (c < length s)%nat.
Proof.
  intros Hwf Hc. apply (consistent_link s Hwf) in Hc.
  destruct (decide (c < length s)%nat) as [|Hge]; [assumption|].
  rewrite parent_out_of_range in Hc by lia. discriminate.
Qed.

Lemma childless_has_no_descendant (s : Store) (c w : ViewId) :
  children s c = [] -> descendant_or_self s c w -> w = c.
Proof.
  intros Hc Hd. induction Hd as [|u w _ IH Hw]; [reflexivity|].
  subst u. rewrite Hc in Hw. inversion Hw.
Qed.

Lemma Contains_childless (s : Store) (c p : ViewId) :
  consistent s -> children s c = [] -> p <> c ->
  Contains s c (Some p) = false.
Proof.
  intros Hwf Hc Hne. destruct (Contains s c (Some p)) eqn:E; [|reflexivity].
  apply (Contains_spec s c p Hwf), (ancestor_iff_descendant s c p Hwf) in E.
  apply (childless_has_no_descendant s c p Hc) in E. contradiction.
Qed.

(** A new view added to [view]. *)
Lemma add_new_child (view : ViewId) (s : Store) :
  consistent s -> (view < length s)%nat ->
  let created := new_view PlainView s in
  let s2 := AddChildView view (snd created) (fst created) in
  snd created = length s
  /\ consistent s2
  /\ length s2 = S (length s)
  /\ (forall u, parent s2 u
                = if decide (length s = u) then Some view else parent s u)
  /\ (forall u, children s2 u
                = if decide (view = u) then children s view ++ [length s]
                  else children s u).
Proof.
  intros Hwf Hview created s2.
  destruct (tree_after_new_view PlainView s) as [Hp1 Hc1].
  fold created in Hp1, Hc1.
  assert (Hv : snd created = length s) by reflexivity.
  assert (Hlen1 : length (fst created) = S (length s)).
  { subst created. cbn. rewrite length_app. cbn. lia. }
  assert (Hwf1 : consistent (fst created)).
  { apply (consistent_ext s); assumption. }
  assert (Hfresh_p : parent (fst created) (length s) = None).
  { rewrite Hp1. apply parent_out_of_range. lia. }
  assert (Hfresh_c : children (fst created) (length s) = []).
  { rewrite Hc1. apply children_out_of_range. lia. }
  split; [exact Hv|]. subst s2. rewrite Hv.
  split.
  { apply consistent_AddChildView; [exact Hwf1|lia|lia|].
    apply Contains_childless; [exact Hwf1|exact Hfresh_c|lia]. }
  unfold AddChildView. rewrite Hfresh_p.
  split; [rewrite length_set_parent, length_set_children; exact Hlen1|].
  split.
  - intros u. rewrite parent_set_parent, parent_set_children,
      length_set_children, Hlen1, Hp1.
    destruct (decide (length s = u)); [|reflexivity].
    rewrite decide_True by lia. reflexivity.
  - intros u. rewrite children_set_parent, children_set_children, Hlen1,
      !Hc1.
    destruct (decide (view = u)); [|reflexivity].
    rewrite decide_True by lia. reflexivity.
Qed.

Lemma complete_lower (s : Store) (lo lo' d : nat) (v : ViewId) :
  (lo' <= lo)%nat -> complete s lo d v -> complete s lo' d v.
Proof.
  intros Hle. revert v. induction d as [|d IH]; intros v Hc; [exact Hc|].
  destruct Hc as [Hn Hc]. split; [exact Hn|].
  intros c Hin. destruct (Hc c Hin) as [Hlo Hsub].
  split; [lia|apply IH; exact Hsub].
Qed.

(** A complete tree of new views is left alone by what is built next. *)
Lemma complete_grown (view : ViewId) (s s' : Store) (lo d : nat)
  (v : ViewId) :
  consistent s -> grown view s s' ->
  (view < lo)%nat -> (lo <= v)%nat -> (v < length s)%nat ->
  complete s lo d v -> complete s' lo d v.
Proof.
  intros Hwf (_ & _ & _ & Hc) Hview. revert v.
  induction d as [|d IH]; intros v Hlo Hv Hcomp; cbn [complete] in *;
    rewrite (Hc v Hv) by lia; [exact Hcomp|].
  destruct Hcomp as [Hn Hsub]. split; [exact Hn|].
  intros c Hin. destruct (Hsub c Hin) as [Hloc Hcc].
  split; [exact Hloc|]. apply IH; [exact Hloc| |exact Hcc].
  eapply child_in_store; eauto.
Qed.

Lemma same_tree_refl (s : Store) : same_tree s s.
Proof. repeat split; auto. Qed.

Lemma same_tree_trans (s1 s2 s3 : Store) :
  same_tree s1 s2 -> same_tree s2 s3 -> same_tree s1 s3.
Proof.
  intros (Hl1 & Hp1 & Hc1) (Hl2 & Hp2 & Hc2). split; [congruence|]. split.
  - intros u. rewrite Hp2. apply Hp1.
  - intros u. rewrite Hc2. apply Hc1.
Qed.

Lemma same_tree_consistent (s s' : Store) :
  consistent s -> same_tree s s' -> consistent s'.
Proof. intros Hwf (_ & Hp & Hc). apply (consistent_permute s); assumption. Qed.

Lemma fits_same_tree (s s' : Store) (f : nat) (v : ViewId) :
  same_tree s s' -> fits (children s) f v -> fits (children s') f v.
Proof.
  intros (_ & _ & Hc). revert v. induction f as [|f IH]; intros v Hfit.
  - cbn [fits] in *. apply Permutation_nil. rewrite <- Hfit. symmetry.
    apply Hc.
  - intros c Hin. apply IH, Hfit. rewrite <- (Hc v). exact Hin.
Qed.

Lemma complete_same_tree (s s' : Store) (lo d : nat) (v : ViewId) :
  same_tree s s' -> complete s lo d v -> complete s' lo d v.
Proof.
  intros (_ & _ & Hc). revert v. induction d as [|d IH]; intros v Hcomp.
  - cbn [complete] in *. apply Permutation_nil. rewrite <- Hcomp. symmetry.
    apply Hc.
  - destruct Hcomp as [Hn Hsub]. split.
    + rewrite (Permutation_length (Hc v)). exact Hn.
    + intros c Hin. rewrite (Hc v) in Hin. destruct (Hsub c Hin) as [Hlo Hcc].
      split; [exact Hlo|apply IH; exact Hcc].
Qed.

Lemma ReorderChildView_same_tree (p c : ViewId) (index : Z) (s : Store) :
  consistent s -> same_tree s (ReorderChildView p c index s).
Proof.
  intros Hwf. unfold ReorderChildView.
  destruct (decide (parent s c = Some p)) as [Hcp|]; [|apply same_tree_refl].
  destruct (child_count s p <=? _); [apply same_tree_refl|].
  assert (Hin : c ∈ children s p) by (apply (consistent_link s Hwf); exact Hcp).
  split; [apply length_set_children|]. split.
  - intros u. apply parent_set_children.
  - intros u. rewrite children_set_children.
    destruct (decide (p = u)) as [<-|]; [|reflexivity].
    destruct (decide (p < length s)%nat) as [|Hge].
    + apply move_child_permutation; [apply (consistent_nodup s Hwf)|exact Hin].
    + exfalso. apply Hge. eapply child_list_in_range; eauto.
Qed.

Lemma SetVisible_same_tree (v : ViewId) (b : bool) (s : Store) :
  same_tree s (SetVisible v b s).
Proof.
  unfold SetVisible.
  destruct (tree_after_alter
              (fun n => mkView (parent_ n) (children_ n) (bounds_ n) b
                          (scale_x_ n) (scale_y_ n) (class_ n)) v s)
    as [Hp Hc]; [reflexivity|reflexivity|].
  split; [apply length_alter|]. split; [exact Hp|].
  intros u. rewrite Hc. reflexivity.
Qed.

Section Random.
Variable double : Type.
Variable double_lt : double -> double -> bool.
Variable d_0_5 d_0_2 d_0_1 : double.
Variable RandInt : nat -> Z -> Z -> Z.
Variable RandDouble : nat -> double.

Local Abbreviation ConstructTree' :=
  (ConstructTree double double_lt d_0_5 d_0_2 RandInt RandDouble).
Local Abbreviation add_children' :=
  (add_children double double_lt d_0_5 d_0_2 RandDouble).
Local Abbreviation ScrambleTree' :=
  (ScrambleTree double double_lt d_0_1 RandInt RandDouble).

(** The state in which the recursive call of a turn starts: the store with
    the new child, perhaps made invisible. *)
Lemma turn_store (view : ViewId) (st : TreeState) :
  consistent (store st) -> (view < length (store st))%nat ->
  exists st2,
    (forall rec m,
       add_children' rec (S m) view st
       = match rec (length (store st)) st2 with
         | Some st' => add_children' rec m view st'
         | None => None
         end)
    /\ consistent (store st2)
    /\ length (store st2) = S (length (store st))
    /\ (forall u, parent (store st2) u
                  = if decide (length (store st) = u) then Some view
                    else parent (store st) u)
    /\ (forall u, children (store st2) u
                  = if decide (view = u)
                    then children (store st) view ++ [length (store st)]
                    else children (store st) u).
Proof.
  intros Hwf Hview.
  destruct (add_new_child view (store st) Hwf Hview)
    as (Hv & Hwf2 & Hlen2 & Hp2 & Hc2).
  eexists. split; [intros rec m; cbn [add_children]; reflexivity|].
  cbv zeta. cbn [rand_double fst snd store].
  destruct (double_lt d_0_5 _); destruct (double_lt _ d_0_2);
    cbn [SetPaintToLayer on_store store];
    try (destruct (tree_after_alter
                    (fun n => mkView (parent_ n) (children_ n) (bounds_ n)
                                false (scale_x_ n) (scale_y_ n) (class_ n))
                    (length (store st))
                    (AddChildView view (length (store st))
                       (fst (new_view PlainView (store st)))))
          as [Hpa Hca]; [reflexivity|reflexivity|];
         unfold SetVisible; split; [apply consistent_alter; auto|];
         split; [rewrite length_alter; exact Hlen2|];
         split; intros u; [rewrite Hpa; apply Hp2|rewrite Hca; apply Hc2]);
    (split; [exact Hwf2|]; split; [exact Hlen2|]; split; assumption).
Qed.

Lemma add_children_spec (f d : nat) :
  (forall view st,
     consistent (store st) -> (view < length (store st))%nat ->
     children (store st) view = [] ->
     exists st',
       ConstructTree' f view (Z.of_nat d) st = Some st'
       /\ grown view (store st) (store st')
       /\ complete (store st') (length (store st)) d view) ->
  forall n view st,
    consistent (store st) -> (view < length (store st))%nat ->
    exists st' cs,
      add_children' (fun v => ConstructTree' f v (Z.of_nat d)) n view st
      = Some st'
      /\ grown view (store st) (store st')
      /\ children (store st') view = children (store st) view ++ cs
      /\ length cs = n
      /\ forall c, c ∈ cs ->
                   (length (store st) <= c)%nat
                   /\ complete (store st') (length (store st)) d c.
Proof.
  intros IH. induction n as [|n IHn]; intros view st Hwf Hview.
  - exists st, []. split; [reflexivity|]. split; [apply grown_refl; exact Hwf|].
    split; [rewrite app_nil_r; reflexivity|]. split; [reflexivity|].
    intros c Hc. inversion Hc.
  - destruct (turn_store view st Hwf Hview)
      as (st2 & Hturn & Hwf2 & Hlen2 & Hp2 & Hc2).
    set (v := length (store st)) in *.
    assert (Hleaf : children (store st2) v = []).
    { rewrite Hc2, decide_False by lia. apply children_out_of_range. lia. }
    destruct (IH v st2 Hwf2 ltac:(lia) Hleaf) as (st3 & Hrec & Hg3 & Hcomp3).
    pose proof Hg3 as (Hwf3 & Hlen3 & Hp3 & Hc3).
    destruct (IHn view st3 Hwf3 ltac:(lia))
      as (st' & cs & Hloop & Hg' & Hch & Hlen & Hcs).
    assert (Hg : grown view (store st) (store st')).
    { apply (grown_trans view _ (store st3)); [|exact Hg'].
      split; [exact Hwf3|]. split; [lia|]. split.
      - intros u Hu. rewrite Hp3, Hp2 by lia.
        rewrite decide_False by lia. reflexivity.
      - intros u Hu Hne. rewrite Hc3, Hc2 by lia.
        rewrite decide_False by congruence. reflexivity. }
    exists st', (v :: cs).
    split; [rewrite Hturn, Hrec; exact Hloop|].
    split; [exact Hg|]. split.
    { rewrite Hch, Hc3, Hc2 by lia. rewrite decide_True by reflexivity.
      rewrite <- app_assoc. reflexivity. }
    split; [cbn [length]; rewrite Hlen; reflexivity|].
    intros c Hc. apply elem_of_cons in Hc as [->|Hc].
    + split; [lia|].
      apply (complete_grown view (store st3) (store st') v d v Hwf3 Hg');
        [lia|lia|lia|].
      apply (complete_lower _ (length (store st2))); [lia|exact Hcomp3].
    + destruct (Hcs c Hc) as [Hlo Hcomp]. split; [lia|].
      apply (complete_lower _ (length (store st3))); [lia|exact Hcomp].
Qed.

Hypothesis RandInt_range :
  forall k lo hi, lo <= hi -> lo <= RandInt k lo hi <= hi.

Lemma ConstructTree_spec (d : nat) :
  forall view st,
    consistent (store st) -> (view < length (store st))%nat ->
    children (store st) view = [] ->
    exists st',
      ConstructTree' d view (Z.of_nat d) st = Some st'
      /\ grown view (store st) (store st')
      /\ complete (store st') (length (store st)) d view.
Proof.
  induction d as [|d IH]; intros view st Hwf Hview Hleaf.
  - exists st. split; [reflexivity|].
    split; [apply grown_refl; exact Hwf|exact Hleaf].
  - cbn [ConstructTree]. rewrite decide_False by lia.
    replace (Z.of_nat (S d) - 1) with (Z.of_nat d) by lia.
    pose proof (RandInt_range (drawn st) 1 5 ltac:(lia)) as Hcount.
    cbn [rand_int fst snd].
    match goal with
    | |- context [add_children' _ ?n view ?st1] =>
        destruct (add_children_spec d d IH n view st1 Hwf Hview)
          as (st' & cs & Hrun & Hg & Hch & Hlen & Hcs)
    end.
    exists st'. split; [exact Hrun|]. split; [exact Hg|].
    cbn [store] in Hch, Hcs. rewrite Hleaf in Hch. cbn [app] in Hch.
    cbn [complete]. rewrite Hch, Hlen. split; [lia|]. exact Hcs.
Qed.

Lemma ConstructTree_negative_depth (fuel : nat) :
  forall view depth st,
    depth < 0 -> ConstructTree' fuel view depth st = None.
Proof.
  induction fuel as [|f IH]; intros view depth st Hneg; cbn [ConstructTree];
    rewrite decide_False by lia; [reflexivity|].
  pose proof (RandInt_range (drawn st) 1 5 ltac:(lia)) as Hcount.
  cbn [rand_int fst snd].
  destruct (Z.to_nat (RandInt (drawn st) 1 5)) as [|m] eqn:Hn; [lia|].
  cbn [add_children]. rewrite IH by lia. reflexivity.
Qed.

(** X22. ConstructTree(view, depth), for a depth that is not negative and a
    view of a consistent tree that has no children yet, returns and leaves a
    consistent tree in which the tree under the view is complete: exactly
    [depth] levels deep everywhere, each view above the last level with
    between one and five children, all of them views that did not exist
    before.  The views that existed keep their parents and, but for the view
    itself, their children.  With a negative depth the recursion never comes
    to an end.  (base::RandInt(1, 5) is taken to return a number from 1 to
    5.) *)
Theorem ConstructTree_builds_complete_tree (d : nat) (view : ViewId)
  (st : TreeState) :
  consistent (store st) ->
  (view < length (store st))%nat ->
  children (store st) view = [] ->
  (exists st',
     ConstructTree' d view (Z.of_nat d) st = Some st'
     /\ consistent (store st')
     /\ complete (store st') (length (store st)) d view
     /\ (forall u, (u < length (store st))%nat ->
                   parent (store st') u = parent (store st) u)
     /\ (forall u, (u < length (store st))%nat -> u <> view ->
                   children (store st') u = children (store st) u))
  /\ (forall fuel depth,
        depth < 0 -> ConstructTree' fuel view depth st = None).
Proof.
  intros Hwf Hview Hleaf. split.
  - destruct (ConstructTree_spec d view st Hwf Hview Hleaf)
      as (st' & Hrun & (Hwf' & _ & Hp & Hc) & Hcomp).
    exists st'. auto.
  - intros fuel depth Hneg. apply ConstructTree_negative_depth. exact Hneg.
Qed.

Lemma toggle_same_tree (view : ViewId) (st : TreeState) :
  same_tree (store st)
    (store (toggle double double_lt d_0_1 RandDouble view st)).
Proof.
  unfold toggle. cbn [rand_double fst snd].
  destruct (negb (has_layer st view)); [destruct (double_lt _ d_0_1)|];
    cbn [SetPaintToLayer store drawn painted];
    destruct (double_lt _ d_0_1); cbn [on_store store];
    first [apply same_tree_refl|apply SetVisible_same_tree].
Qed.

Lemma child_at_in_range (s : Store) (view : ViewId) (i : Z) :
  0 <= i < child_count s view ->
  exists c, child_at s view i = Some c /\ c ∈ children s view.
Proof.
  intros Hi. unfold child_at, child_count in *.
  replace (i <? 0) with false by (symmetry; apply Z.ltb_ge; lia).
  destruct (lookup_lt_is_Some_2 (children s view) (Z.to_nat i)) as [c Hc];
    [lia|].
  exists c. split; [exact Hc|]. eapply list_elem_of_lookup_2. exact Hc.
Qed.

Lemma swap_two_same_tree (view : ViewId) (st : TreeState) :
  consistent (store st) ->
  exists st',
    swap_two RandInt (child_count (store st) view) view st = Reached st'
    /\ same_tree (store st) (store st').
Proof.
  intros Hwf. unfold swap_two.
  destruct (decide (1 < child_count (store st) view)) as [Hmany|];
    [|exists st; split; [reflexivity|apply same_tree_refl]].
  cbn [rand_int fst snd store drawn painted].
  pose proof (RandInt_range (drawn st) 0 (child_count (store st) view - 1)
                ltac:(lia)) as Ha.
  pose proof (RandInt_range (S (drawn st)) 0
                (child_count (store st) view - 1) ltac:(lia)) as Hb.
  destruct (child_at_in_range (store st) view _ ltac:(split; [apply Ha|lia]))
    as (view_a & -> & _).
  destruct (child_at_in_range (store st) view _ ltac:(split; [apply Hb|lia]))
    as (view_b & -> & _).
  eexists. split; [reflexivity|]. cbn [on_store store].
  eapply same_tree_trans.
  - apply ReorderChildView_same_tree. exact Hwf.
  - apply ReorderChildView_same_tree. apply consistent_ReorderChildView.
    exact Hwf.
Qed.

Lemma scramble_children_spec (f : nat) (view : ViewId) (st0 : TreeState) :
  (forall c st,
     consistent (store st) -> fits (children (store st)) f c ->
     exists st',
       ScrambleTree' f c st = Reached st'
       /\ same_tree (store st) (store st')) ->
  consistent (store st0) ->
  (forall c, c ∈ children (store st0) view ->
             fits (children (store st0)) f c) ->
  forall (n k : nat) (st : TreeState),
    same_tree (store st0) (store st) ->
    (k + n = length (children (store st0) view))%nat ->
    exists st',
      scramble_children (ScrambleTree' f) n (Z.of_nat k) view st = Reached st'
      /\ same_tree (store st0) (store st').
Proof.
  intros IH Hwf0 Hfit. induction n as [|n IHn]; intros k st Hsame Hkn.
  - exists st. split; [reflexivity|exact Hsame].
  - cbn [scramble_children].
    pose proof Hsame as (_ & _ & Hperm).
    destruct (child_at_in_range (store st) view (Z.of_nat k))
      as (c & -> & Hc).
    { unfold child_count. rewrite (Permutation_length (Hperm view)). lia. }
    destruct (IH c st) as (st1 & -> & Hsame1).
    { eapply same_tree_consistent; eauto. }
    { apply (fits_same_tree (store st0)); [exact Hsame|].
      apply Hfit. rewrite <- (Hperm view). exact Hc. }
    replace (Z.of_nat k + 1) with (Z.of_nat (S k)) by lia.
    apply IHn; [|lia]. eapply same_tree_trans; eauto.
Qed.

Lemma ScrambleTree_spec (fuel : nat) :
  forall view st,
    consistent (store st) -> fits (children (store st)) fuel view ->
    exists st',
      ScrambleTree' fuel view st = Reached st'
      /\ same_tree (store st) (store st').
Proof.
  induction fuel as [|f IH]; intros view st Hwf Hfit.
  - cbn [ScrambleTree fits] in *. unfold child_count. rewrite Hfit.
    exists st. split; [reflexivity|apply same_tree_refl].
  - cbn [ScrambleTree].
    destruct (decide (child_count (store st) view = 0)) as [|Hsome];
      [exists st; split; [reflexivity|apply same_tree_refl]|].
    destruct (scramble_children_spec f view st IH Hwf Hfit
                (Z.to_nat (child_count (store st) view)) 0%nat st
                (same_tree_refl _))
      as (st1 & Hloop & Hsame1).
    { unfold child_count. lia. }
    change (Z.of_nat 0) with 0 in Hloop. rewrite Hloop.
    assert (Hwf1 : consistent (store st1))
      by (eapply same_tree_consistent; eauto).
    assert (Hcount : child_count (store st) view
                     = child_count (store st1) view).
    { unfold child_count. destruct Hsame1 as (_ & _ & Hperm).
      rewrite (Permutation_length (Hperm view)). reflexivity. }
    rewrite Hcount.
    destruct (swap_two_same_tree view st1 Hwf1) as (st2 & -> & Hsame2).
    eexists. split; [reflexivity|].
    eapply same_tree_trans; [exact Hsame1|].
    eapply same_tree_trans; [exact Hsame2|]. apply toggle_same_tree.
Qed.

(** X23. ScrambleTree(view), in a consistent view tree, returns - as many
    levels as the store has views are enough, and child_at is never asked
    for a child that is not there - and leaves the same tree but for the
    order of the children: the same views, each with the parent it had and
    with the children it had, so the tree stays consistent, and a tree that
    was complete stays complete.  (base::RandInt(min, max) is taken to
    return a number from min to max.) *)
Theorem ScrambleTree_keeps_the_tree (view : ViewId) (st : TreeState) :
  consistent (store st) ->
  exists st',
    ScrambleTree' (length (store st)) view st = Reached st'
    /\ consistent (store st')
    /\ same_tree (store st) (store st')
    /\ (forall lo d v, complete (store st) lo d v ->
                       complete (store st') lo d v).
Proof.
  intros Hwf.
  destruct (ScrambleTree_spec (length (store st)) view st Hwf
              (TreeWalkProps.consistent_fits_store (store st) view Hwf))
    as (st' & Hrun & Hsame).
  exists st'. split; [exact Hrun|].
  split; [eapply same_tree_consistent; eauto|]. split; [exact Hsame|].
  intros lo d v. apply complete_same_tree. exact Hsame.
Qed.

End Random.

Lemma round_robin_range (k : nat) (lo hi : Z) :
  lo <= hi -> lo <= round_robin k lo hi <= hi.
Proof.
  intros Hle. unfold round_robin.
  pose proof (Z.mod_pos_bound (Z.of_nat k) (hi - lo + 1) ltac:(lia)). lia.
Qed.

(** From a single view, two levels are built with the draws going round. *)
Lemma ConstructTree_builds_complete_tree_witness :
  let st := mkTreeState (fst (new_view PlainView [])) [] 0 in
  consistent (store st)
  /\ (0 < length (store st))%nat
  /\ children (store st) 0 = []
  /\ exists st',
       ConstructTree Z Z.ltb 50 20 round_robin hundredths 2 0 2 st = Some st'
       /\ consistent (store st')
       /\ complete (store st') 1 2 0.
Proof.
  cbv zeta.
  assert (Hwf : consistent (fst (new_view PlainView []))).
  { apply built_consistent. build_store. }
  split; [exact Hwf|]. split; [cbn; lia|]. split; [reflexivity|].
  destruct (ConstructTree_builds_complete_tree Z Z.ltb 50 20 round_robin
              hundredths round_robin_range 2 0
              (mkTreeState (fst (new_view PlainView [])) [] 0)
              Hwf ltac:(cbn; lia) eq_refl)
    as [(st' & Hrun & Hwf' & Hcomp & _) _].
  exists st'. split; [exact Hrun|]. split; [exact Hwf'|exact Hcomp].
Defined.

(** The tree of ViewTest.ReorderChildren, scrambled with the draws going
    round. *)
Lemma ScrambleTree_keeps_the_tree_witness :
  let st := mkTreeState ReorderChildren_tree [] 0 in
  consistent (store st)
  /\ exists st',
       ScrambleTree Z Z.ltb 10 round_robin hundredths 5 0 st = Reached st'
       /\ consistent (store st')
       /\ same_tree (store st) (store st').
Proof.
  cbv zeta.
  assert (Hwf : consistent ReorderChildren_tree).
  { apply built_consistent. unfold ReorderChildren_tree. build_store. }
  split; [exact Hwf|].
  destruct (ScrambleTree_keeps_the_tree Z Z.ltb 10 round_robin hundredths
              round_robin_range 0 (mkTreeState ReorderChildren_tree [] 0) Hwf)
    as (st' & Hrun & Hwf' & Hsame & _).
  exists st'. split; [exact Hrun|]. split; [exact Hwf'|exact Hsame].
Defined.

(** Two levels built from one view with the draws going round: six views in
    all, one child under the root and four under that child, two of them
    painting to a layer and one invisible; scrambling changes the order of
    the four. *)
Example ConstructTree_ScrambleTree_test :
  match ConstructTree Z Z.ltb 50 20 round_robin hundredths 2 0 2
          (mkTreeState (fst (new_view PlainView [])) [] 0) with
  | Some st =>
      Some (map (children (store st)) (seq 0 6),
            painted st,
            map (IsVisible (store st)) (seq 0 6),
            match ScrambleTree Z Z.ltb 10 round_robin hundredths 6 0 st with
            | Reached st' => Some (map (children (store st')) (seq 0 6))
            | _ => None
            end)
  | None => None
  end
  = Some ([[1%nat]; [2%nat; 3%nat; 4%nat; 5%nat]; []; []; []; []],
          [5%nat; 4%nat],
          [true; true; true; true; true; false],
          Some [[1%nat]; [3%nat; 2%nat; 4%nat; 5%nat]; []; []; []; []]).
Proof. vm_compute. reflexivity. Qed.

End TreeBuildProps.
